(** * DMM/util.py: the mini-batch construction and packing pipeline

    A shallow embedding of [reverse_sequences], [get_mini_batch_mask],
    [batchify], [get_mini_batch] and [pad_and_reverse] of [DMM/util.py],
    together with the numpy / torch primitives these functions call.

    Data model.
    - A numpy or torch integer is a [Z]; an index array produced by
      [np.where], [np.arange] or [torch.sort] holds naturals.
    - A [(T, D)] array is a list of [T] frames, a frame being the list of
      its [D] channel values; a [(B, T, D)] tensor is a list of [B] such
      arrays.  The element type [F] of the float arrays is left abstract:
      the pipeline only moves values around and pads with [zero].
    - Casts ([.type('torch.DoubleTensor')], [torch.from_numpy]) and device
      placement ([.cuda()]) leave the content of an array alone.
    - A Python exception is a value of [error]; a function that may raise
      returns a [result]. *)

From Stdlib Require Import ZArith Lia Ascii.
From stdpp Require Import base tactics option list numbers sorting strings.

Local Open Scope Z_scope.
Local Open Scope nat_scope.

(** ** Exceptions *)

Inductive error : Type :=
  | IndexError          (* index out of range *)
  | RuntimeError        (* torch shape / argument errors *)
  | TypeError           (* subscripting None *)
  | ZeroDivisionError.

Inductive result (A : Type) : Type :=
  | Ok (a : A)
  | Err (e : error).
Arguments Ok {A} a.
Arguments Err {A} e.

Global Instance result_ret : MRet result := λ A a, Ok a.
Global Instance result_bind : MBind result := λ A B f m,
  match m with Ok a => f a | Err e => Err e end.
Global Instance result_fmap : FMap result := λ A B f m,
  match m with Ok a => Ok (f a) | Err e => Err e end.

(** [for x in xs: s = body(s, x)], stopping at the first exception. *)
Fixpoint for_each {A S : Type} (body : S → A → result S) (xs : list A) (s : S)
    : result S :=
  match xs with
  | [] => Ok s
  | x :: xs' => s' ← body s x; for_each body xs' s'
  end.

(** ** numpy / torch primitives *)

(** [a[i]] for a non-negative integer [i]. *)
Definition item {A : Type} (a : list A) (i : nat) : result A :=
  match a !! i with
  | Some x => Ok x
  | None => Err IndexError
  end.

(** [[f(x) for x in xs]], stopping at the first exception. *)
Fixpoint map_result {A B : Type} (f : A → result B) (xs : list A)
    : result (list B) :=
  match xs with
  | [] => Ok []
  | x :: xs' => y ← f x; ys ← map_result f xs'; Ok (y :: ys)
  end.

(** [a[idx]] for an integer index array [idx] (gather along axis 0). *)
Definition take_along {A : Type} (a : list A) (idx : list nat)
    : result (list A) :=
  map_result (item a) idx.

(** [x[:k]] on the first axis: a negative [k] counts from the end. *)
Definition py_upto {A : Type} (k : Z) (x : list A) : list A :=
  if (k <? 0)%Z then take (length x - Z.to_nat (- k)) x
  else take (Z.to_nat k) x.

(** [torch.arange(T - 1, -1, -1)]: [T-1, ..., 0]; a start below the end is
    rejected because the step is negative. *)
Definition arange_down (T : Z) : result (list nat) :=
  if (T <? 0)%Z then Err RuntimeError
  else Ok (reverse (seq 0 (Z.to_nat T))).

(** [torch.index_select(x, 0, index)].  An index beyond the rows of [x]
    is an IndexError; selecting anything from an [x] without rows is
    reported as a RuntimeError. *)
Definition index_select {A : Type} (x : list A) (index : list nat)
    : result (list A) :=
  match x, index with
  | [], _ :: _ => Err RuntimeError
  | _, _ => take_along x index
  end.

(** [torch.max(t)] of a 1-d integer tensor; the empty tensor has no maximum. *)
Definition torch_max (t : list Z) : result Z :=
  match t with
  | [] => Err RuntimeError
  | x :: t' => Ok (foldr Z.max x t')
  end.

(** [dst[0:T] = src] along the first axis of [dst], for [T >= 0].  The
    slice holds [min T (length dst)] entries; [src] must have as many, or
    be a single entry, which is then broadcast over the slice. *)
Definition assign_upto {A : Type} (dst : list A) (T : Z) (src : list A)
    : result (list A) :=
  let n := length (take (Z.to_nat T) dst) in
  if decide (length src = n) then Ok (src ++ drop n dst)
  else match src with
       | [v] => Ok (replicate n v ++ drop n dst)
       | _ => Err RuntimeError
       end.

(** [torch.ones(n)], entries written as the integer 1. *)
Definition torch_ones (n : Z) : result (list Z) :=
  if (n <? 0)%Z then Err RuntimeError
  else Ok (replicate (Z.to_nat n) 1%Z).

(** [np.where(mask)[0]]: the positions holding [True], in increasing order. *)
Fixpoint np_where_from (i : nat) (mask : list bool) : list nat :=
  match mask with
  | [] => []
  | m :: mask' =>
      if m then i :: np_where_from (S i) mask' else np_where_from (S i) mask'
  end.
Definition np_where (mask : list bool) : list nat := np_where_from 0 mask.

(** [range(n)]. *)
Definition py_range (n : Z) : list Z := Z.of_nat <$> seq 0 (Z.to_nat n).

(** [a[start:stop]] for non-negative [start] and [stop]. *)
Definition py_slice {A : Type} (a : list A) (start stop : Z) : list A :=
  take (Z.to_nat stop - Z.to_nat start) (drop (Z.to_nat start) a).

(** [x[idx]] where [x] may be [None]: subscripting [None] is a TypeError. *)
Definition subscript {A : Type} (x : option (list A)) (idx : list nat)
    : result (list A) :=
  match x with
  | None => Err TypeError
  | Some a => take_along a idx
  end.

(** [.cuda()] moves a tensor to the device and leaves its content alone. *)
Definition to_cuda {A : Type} (x : A) : A := x.

(** ** torch.sort

    [torch.sort(t)] returns the values of [t] in ascending order together
    with the indices that sort them.  [get_mini_batch] calls it without
    [stable=True], so the order in which equal values come out is not
    specified.  The pipeline is modelled over any [torch_sort] that meets
    this contract. *)
Class TorchSort : Type := {
  torch_sort : list Z → list Z * list nat;
  torch_sort_indices t : (torch_sort t).2 ≡ₚ seq 0 (length t);
  torch_sort_values t :
    Forall2 (λ v k, t !! k = Some v) (torch_sort t).1 (torch_sort t).2;
  torch_sort_ascending t : StronglySorted Z.le (torch_sort t).1;
}.

(** One sort that meets the contract: a stable insertion sort on
    (value, index) pairs, which leaves equal values in their input
    order. *)
Fixpoint sort_insert (x : Z * nat) (l : list (Z * nat)) : list (Z * nat) :=
  match l with
  | [] => [x]
  | y :: l' =>
      if (x.1 <=? y.1)%Z then x :: y :: l' else y :: sort_insert x l'
  end.

Definition sort_pairs (l : list (Z * nat)) : list (Z * nat) :=
  foldr sort_insert [] l.

Definition stable_sort (t : list Z) : list Z * list nat :=
  let sorted := sort_pairs (zip t (seq 0 (length t))) in
  (sorted.*1, sorted.*2).

(** ** Arrays *)

Abbreviation frame F := (list F) (only parsing).            (* (D,) *)
Abbreviation array2 F := (list (list F)) (only parsing).     (* (T, D) *)
Abbreviation tensor3 F := (list (list (list F))) (only parsing). (* (B, T, D) *)

(** [t.numel()]. *)
Definition numel {F : Type} (t : tensor3 F) : nat :=
  sum_list_with (sum_list_with length) t.

(** The trailing dimension shared by a list of [(T_i, D)] arrays, read off
    the first stored frame. *)
Definition trailing_dim {F : Type} (sequences : list (array2 F)) : nat :=
  match mjoin sequences with
  | fr :: _ => length fr
  | [] => 0
  end.

(** [torch.nn.utils.rnn.PackedSequence]: the time-major concatenation of the
    valid frames, and the number of sequences alive at each time step. *)
Record PackedSequence (F : Type) : Type := mkPacked {
  data : list (frame F);
  batch_sizes : list nat;
}.
Arguments mkPacked {F} _ _.
Arguments data {F} _.
Arguments batch_sizes {F} _.

(** The nine values returned by [get_mini_batch], named after the local
    variables of the source; the last one, [indices_dataset[sorted_mini_batch_indices]],
    is the [source_indices] of the specification. *)
Record MiniBatch (F : Type) : Type := mkMiniBatch {
  mini_batch_static : list (frame F);
  mini_batch : tensor3 F;
  mini_batch_reversed_with_mask : PackedSequence F;
  mini_batch_mask : list (list Z);
  sorted_seq_lengths : list Z;
  mini_batch_feature_mask : option (tensor3 F);
  y_mini_batch : option (list F);
  y_mask_mini_batch : option (list F);
  source_indices : list nat;
}.
Arguments mkMiniBatch {F} _ _ _ _ _ _ _ _ _.
Arguments mini_batch_static {F} _.
Arguments mini_batch {F} _.
Arguments mini_batch_reversed_with_mask {F} _.
Arguments mini_batch_mask {F} _.
Arguments sorted_seq_lengths {F} _.
Arguments mini_batch_feature_mask {F} _.
Arguments y_mini_batch {F} _.
Arguments y_mask_mini_batch {F} _.
Arguments source_indices {F} _.

(** Lines 285-286 of [get_mini_batch]: the indices of an ascending sort,
    flipped. *)
Definition descending_order `{TS : !TorchSort} (seq_lengths : list Z)
    : list nat :=
  reverse (torch_sort seq_lengths).2.

Section Tensors.
Context `{TS : !TorchSort} {F : Type} (zero : F).

(** [torch.zeros_like(t)]. *)
Definition zeros_like (t : tensor3 F) : tensor3 F :=
  map (map (map (λ _, zero))) t.

(** ** reverse_sequences (util.py 227-234) *)
Definition reverse_sequences (mini_batch : tensor3 F) (seq_lengths : list Z)
    : result (tensor3 F) :=
  for_each
    (λ reversed_mini_batch b,
       T ← item seq_lengths b;
       time_slice ← arange_down T;
       row ← item mini_batch b;
       reversed_sequence ← index_select row time_slice;
       old ← item reversed_mini_batch b;
       new ← assign_upto old T reversed_sequence;
       Ok (<[b := new]> reversed_mini_batch))
    (seq 0 (length mini_batch))
    (zeros_like mini_batch).

(** ** get_mini_batch_mask (util.py 236-240)

    [torch.zeros(mini_batch.shape[0:2])] is a [(B, T)] array of zeros; its
    entries, 0.0 and 1.0 in the source, are written as integers. *)
Definition get_mini_batch_mask (mini_batch : tensor3 F) (seq_lengths : list Z)
    : result (list (list Z)) :=
  for_each
    (λ mask b,
       L ← item seq_lengths b;
       ones ← torch_ones L;
       old ← item mask b;
       new ← assign_upto old L ones;
       Ok (<[b := new]> mask))
    (seq 0 (length mini_batch))
    ((λ row, replicate (length row) 0%Z) <$> mini_batch).

(** ** torch.nn.utils.rnn.pad_sequence (batch_first=True)

    There must be at least one sequence.  The output has the trailing
    dimension [D] of the batch and as many time steps as the longest
    sequence; every sequence is copied into its row of a tensor of
    zeros.  The copy broadcasts: a sequence must have [D] channels, or a
    single channel, which is then repeated [D] times; any other channel
    count is rejected.  (In this data model an array without time steps
    has no frame to read a channel count from: it agrees with any [D].) *)
Definition copy_channels (D : nat) (src : array2 F) : result (array2 F) :=
  if decide (Forall (λ fr, length fr = D) src) then Ok src
  else if decide (Forall (λ fr, length fr = 1) src)
  then Ok ((λ fr, v ← fr; replicate D v) <$> src)
  else Err RuntimeError.

Definition pad_sequence (sequences : list (array2 F)) : result (tensor3 F) :=
  match sequences with
  | [] => Err RuntimeError
  | _ :: _ =>
      let D := trailing_dim sequences in
      let max_len := max_list (length <$> sequences) in
      map_result
        (λ s, copied ← copy_channels D s;
              Ok (copied ++ replicate (max_len - length s) (replicate D zero)))
        sequences
  end.

(** [torch.cat((x, y), dim=-1)]: both tensors must agree on the batch
    and time dimensions. *)
Definition cat_last (x y : tensor3 F) : result (tensor3 F) :=
  if decide (length <$> x = length <$> y)
  then Ok (zip_with (zip_with app) x y)
  else Err RuntimeError.

(** ** torch.nn.utils.rnn.pack_padded_sequence (batch_first=True)

    The input must hold at least one element, [lengths] must have one
    entry per row, be sorted in decreasing order and be positive.  Time
    step [t] contributes the frames of the rows whose length exceeds [t],
    in row order. *)
Definition alive (lengths : list Z) (t : nat) : nat :=
  length (filter (λ l, (Z.of_nat t < l)%Z) lengths).

Definition pack_padded_sequence (input : tensor3 F) (lengths : list Z)
    : result (PackedSequence F) :=
  if decide (numel input = 0) then Err RuntimeError
  else if decide (length lengths ≠ length input) then Err RuntimeError
  else if decide (Forall (λ l, (0 < l)%Z) lengths
                  ∧ Sorted (λ a b, (b ≤ a)%Z) lengths)
  then
    let steps := seq 0 (Z.to_nat (default 0%Z (head lengths))) in
    Ok {| data := t ← steps;
                  b ← seq 0 (alive lengths t);
                  option_list (input !! b ≫= (.!! t));
          batch_sizes := alive lengths <$> steps |}
  else Err RuntimeError.

(** ** torch.nn.utils.rnn.pad_packed_sequence (batch_first=True)

    The padded tensor has [batch_sizes[0]] rows and one time step per
    entry of [batch_sizes]; row [b] at step [t] is the [b]-th frame of
    step [t] when [b < batch_sizes[t]] and a zero frame otherwise.  The
    second component is the length of every row. *)
Definition step_offset (sizes : list nat) (t : nat) : nat :=
  sum_list (take t sizes).

Definition pad_packed_sequence (sequence : PackedSequence F)
    : result (tensor3 F * list Z) :=
  match batch_sizes sequence with
  | [] => Err RuntimeError
  | B :: _ =>
      let sizes := batch_sizes sequence in
      let D := trailing_dim [data sequence] in
      padded ← map_result
        (λ b, map_result
           (λ t, if decide (b < sizes !!! t)
                 then item (data sequence) (step_offset sizes t + b)
                 else Ok (replicate D zero))
           (seq 0 (length sizes)))
        (seq 0 B);
      Ok (padded,
          (λ b, Z.of_nat (length (filter (λ n, b < n) sizes))) <$> seq 0 B)
  end.

(** ** pad_and_reverse (util.py 356-359) *)
Definition pad_and_reverse (rnn_output : PackedSequence F) (seq_lengths : list Z)
    : result (tensor3 F) :=
  '(rnn_output, _) ← pad_packed_sequence rnn_output;
  reversed_output ← reverse_sequences rnn_output seq_lengths;
  Ok reversed_output.

(** ** get_mini_batch (util.py 274-352) *)

(** [x[sorted_mini_batch_indices]] for an optional per-example array. *)
Definition take_optional {A : Type} (x : option (list A)) (idx : list nat)
    : result (option (list A)) :=
  match x with
  | None => Ok None
  | Some a => Some <$> take_along a idx
  end.

(** Lines 316-332: the three feature-mask policies.  The first component
    is [mini_batch_feature_mask], the second the dense reversed batch
    that is handed to the packing step. *)
Definition feature_mask_policy
    (mini_batch : tensor3 F) (sorted_seq_lengths : list Z) (T_max : Z)
    (sorted_mini_batch_indices : list nat)
    (sequences_feature_mask : option (list (array2 F)))
    (use_feature_mask : bool) : result (option (tensor3 F) * tensor3 F) :=
  match sequences_feature_mask with
  | None =>
      (* Feature_mask not used for ELBO as masking or guide *)
      reversed ← reverse_sequences mini_batch sorted_seq_lengths;
      Ok (None, reversed)
  | Some feature_mask =>
      if negb use_feature_mask then
        (* Feature mask only used for ELBO as masking *)
        gathered ← take_along feature_mask sorted_mini_batch_indices;
        padded ← pad_sequence (py_upto T_max <$> gathered);
        reversed ← reverse_sequences mini_batch sorted_seq_lengths;
        Ok (Some padded, reversed)
      else
        (* Feature mask will be used for both ELBO and guide *)
        gathered ← take_along feature_mask sorted_mini_batch_indices;
        padded ← pad_sequence (py_upto T_max <$> gathered);
        fused ← cat_last mini_batch padded;
        reversed ← reverse_sequences fused sorted_seq_lengths;
        Ok (Some padded, reversed)
  end.

Definition get_mini_batch
    (mini_batch_indices : list nat)
    (sequences : list (array2 F)) (seq_lengths : list Z)
    (sequences_feature_mask : option (list (array2 F)))
    (static : option (list (frame F)))
    (y_sequence y_mask_sequence : option (list F))
    (indices_dataset : option (list nat))
    (use_feature_mask cuda : bool) : result (MiniBatch F) :=
  (* get the sequence lengths of the mini-batch *)
  seq_lengths ← take_along seq_lengths mini_batch_indices;
  (* sort the sequence lengths *)
  let sorted_seq_length_indices := descending_order seq_lengths in
  sorted_seq_lengths ← take_along seq_lengths sorted_seq_length_indices;
  sorted_mini_batch_indices ←
    take_along mini_batch_indices sorted_seq_length_indices;
  (* compute the length of the longest sequence in the mini-batch *)
  T_max ← torch_max seq_lengths;
  (* this is the sorted mini-batch *)
  gathered ← take_along sequences sorted_mini_batch_indices;
  mini_batch ← pad_sequence (py_upto T_max <$> gathered);
  mini_batch_static ← subscript static sorted_mini_batch_indices;
  (* get mask for mini-batch *)
  mini_batch_mask ← get_mini_batch_mask mini_batch sorted_seq_lengths;
  y_mini_batch ← take_optional y_sequence sorted_mini_batch_indices;
  y_mask_mini_batch ← take_optional y_mask_sequence sorted_mini_batch_indices;
  '(mini_batch_feature_mask, mini_batch_reversed_with_mask) ←
    feature_mask_policy mini_batch sorted_seq_lengths T_max
      sorted_mini_batch_indices sequences_feature_mask use_feature_mask;
  (* cuda() here because need to cuda() before packing *)
  let place {A} (x : A) : A := if cuda then to_cuda x else x in
  let mini_batch := place mini_batch in
  let mini_batch_static := place mini_batch_static in
  let mini_batch_mask := place mini_batch_mask in
  let y_mini_batch := place y_mini_batch in
  let y_mask_mini_batch := place y_mask_mini_batch in
  let mini_batch_reversed_with_mask := place mini_batch_reversed_with_mask in
  let mini_batch_feature_mask := place mini_batch_feature_mask in
  (* do sequence packing *)
  mini_batch_reversed_with_mask ←
    pack_padded_sequence mini_batch_reversed_with_mask sorted_seq_lengths;
  source ← subscript indices_dataset sorted_mini_batch_indices;
  Ok (mkMiniBatch mini_batch_static mini_batch mini_batch_reversed_with_mask
        mini_batch_mask sorted_seq_lengths mini_batch_feature_mask
        y_mini_batch y_mask_mini_batch source).

(** ** batchify (util.py 242-272) *)

(** Lines 244-254: the length filter and the gathers that apply it. *)
Record Kept : Type := mkKept {
  keep_index : list nat;
  kept_static : list (frame F);
  kept_sequences : list (array2 F);
  kept_seq_lengths : list Z;
  kept_feature_mask : option (list (array2 F));
  kept_y : option (list F);
  kept_y_mask : option (list F);
}.

Definition keep_mask (seq_lengths : list Z) (max_len : Z) : list bool :=
  (λ l, (l <=? max_len)%Z && (0 <? l)%Z) <$> seq_lengths.

Definition batchify_keep
    (sequences : list (array2 F)) (seq_lengths : list Z)
    (sequences_feature_mask : option (list (array2 F)))
    (static : list (frame F))
    (y_sequence y_mask_sequence : option (list F))
    (max_len : Z) : result Kept :=
  let keep_index := np_where (keep_mask seq_lengths max_len) in
  static ← take_along static keep_index;
  sequences ← take_along sequences keep_index;
  seq_lengths ← take_along seq_lengths keep_index;
  sequences_feature_mask ← take_optional sequences_feature_mask keep_index;
  y_sequence ← take_optional y_sequence keep_index;
  y_mask_sequence ← take_optional y_mask_sequence keep_index;
  Ok (mkKept keep_index static sequences seq_lengths sequences_feature_mask
        y_sequence y_mask_sequence).

(** [int(N_data / batch_size + int(N_data % batch_size > 0))]: the true
    division is exact on array sizes, [int] truncates towards zero and
    [%] takes the sign of the divisor. *)
Definition N_mini_batches (N_data batch_size : Z) : result Z :=
  if (batch_size =? 0)%Z then Err ZeroDivisionError
  else Ok (N_data ÷ batch_size
           + (if (0 <? N_data `mod` batch_size) then 1 else 0))%Z.

(** Lines 257-272: the partition into mini-batches. *)
Definition batchify_batches (kept : Kept) (batch_size : Z)
    (use_feature_mask cuda : bool) : result (list (MiniBatch F)) :=
  let N_data := Z.of_nat (length (kept_seq_lengths kept)) in
  N ← N_mini_batches N_data batch_size;
  let shuffled_indices := seq 0 (length (kept_seq_lengths kept)) in
  for_each
    (λ batches which_mini_batch,
       let mini_batch_start := (which_mini_batch * batch_size)%Z in
       let mini_batch_end :=
         Z.min ((which_mini_batch + 1) * batch_size) N_data in
       let mini_batch_indices :=
         py_slice shuffled_indices mini_batch_start mini_batch_end in
       batch ← get_mini_batch mini_batch_indices
                 (kept_sequences kept) (kept_seq_lengths kept)
                 (kept_feature_mask kept) (Some (kept_static kept))
                 (kept_y kept) (kept_y_mask kept) (Some (keep_index kept))
                 use_feature_mask cuda;
       Ok (batches ++ [batch]))
    (py_range N) [].

Definition batchify
    (sequences : list (array2 F)) (seq_lengths : list Z)
    (sequences_feature_mask : option (list (array2 F)))
    (static : list (frame F))
    (y_sequence y_mask_sequence : option (list F))
    (max_len batch_size : Z) (use_feature_mask cuda : bool)
    : result (list (MiniBatch F)) :=
  kept ← batchify_keep sequences seq_lengths sequences_feature_mask static
           y_sequence y_mask_sequence max_len;
  batchify_batches kept batch_size use_feature_mask cuda.

End Tensors.

(** ** Shapes and entries *)

(** [x] is a dense array of shape [(B, T, D)]. *)
Definition shape3 {F : Type} (B T D : nat) (x : tensor3 F) : Prop :=
  length x = B ∧
  Forall (λ row, length row = T ∧ Forall (λ fr, length fr = D) row) x.

(** [x[b, t]], when both indices are in range. *)
Definition entry {A : Type} (x : list (list A)) (b t : nat) : option A :=
  x !! b ≫= (.!! t).

(** Row [b] of a reversed batch, in closed form: the first [l] frames in
    reverse order, then zero frames. *)
Definition reversed_row {F : Type} (zero : F) (row : array2 F) (l : Z)
    : array2 F :=
  reverse (take (Z.to_nat l) row)
  ++ drop (Z.to_nat l) (map (map (λ _, zero)) row).

(** The order in which a stable ascending sort leaves (value, index) pairs
    whose indices were increasing: by value, then by index. *)
Definition lex_lt (a b : Z * nat) : Prop :=
  (a.1 < b.1)%Z ∨ (a.1 = b.1 ∧ a.2 < b.2).

(** Two ways of ordering the positions [perm] of equally long examples:
    in their original relative order, or in the opposite order. *)
Definition ties_stable (lengths : list Z) (perm : list nat) : Prop :=
  ∀ i j pi pj l, i < j → perm !! i = Some pi → perm !! j = Some pj →
    lengths !! pi = Some l → lengths !! pj = Some l → pi < pj.

Definition ties_reversed (lengths : list Z) (perm : list nat) : Prop :=
  ∀ i j pi pj l, i < j → perm !! i = Some pi → perm !! j = Some pj →
    lengths !! pi = Some l → lengths !! pj = Some l → pj < pi.

(** Every parallel array of the dataset has a row for every entry of
    [seq_lengths]; arrays of equal leading dimension are the special case
    the data model asks for. *)
Definition leading_dims_cover {F : Type}
    (sequences : list (array2 F)) (seq_lengths : list Z)
    (sequences_feature_mask : option (list (array2 F)))
    (static : list (frame F)) (y_sequence y_mask_sequence : option (list F))
    : Prop :=
  length seq_lengths ≤ length sequences ∧
  length seq_lengths ≤ length static ∧
  from_option (λ m, length seq_lengths ≤ length m) True sequences_feature_mask ∧
  from_option (λ v, length seq_lengths ≤ length v) True y_sequence ∧
  from_option (λ v, length seq_lengths ≤ length v) True y_mask_sequence.

(** Every frame of a batch (of a list of arrays) has [D] channels. *)
Definition channels {F : Type} (D : nat) (x : tensor3 F) : Prop :=
  Forall (Forall (λ fr, length fr = D)) x.

(** What [get_mini_batch] needs of the rows it is asked to assemble: at
    least one index; for every index a positive declared length that the
    stored sequence (and feature mask) covers; [D >= 1] channels
    throughout; and a row in every other per-example array. *)
Definition batch_ready {F : Type} (D : nat) (idx : list nat)
    (sequences : list (array2 F)) (seq_lengths : list Z)
    (sequences_feature_mask : option (list (array2 F)))
    (static : list (frame F)) (y_sequence y_mask_sequence : option (list F))
    (indices_dataset : list nat) : Prop :=
  idx ≠ [] ∧ 0 < D ∧ channels D sequences ∧
  (∀ i, i ∈ idx → ∃ l s, seq_lengths !! i = Some l ∧ sequences !! i = Some s ∧
                         (0 < l ≤ Z.of_nat (length s))%Z) ∧
  Forall (λ i, i < length static ∧ i < length indices_dataset) idx ∧
  from_option
    (λ m, channels D m ∧
          ∀ i l, i ∈ idx → seq_lengths !! i = Some l →
                 ∃ s, m !! i = Some s ∧ (l ≤ Z.of_nat (length s))%Z)
    True sequences_feature_mask ∧
  from_option (λ v, Forall (λ i, i < length v) idx) True y_sequence ∧
  from_option (λ v, Forall (λ i, i < length v) idx) True y_mask_sequence.

(** No declared length exceeds the time dimension of the stored array. *)
Definition stored_cover {F : Type} (a : list (array2 F)) (seq_lengths : list Z)
    : Prop :=
  ∀ i s l, a !! i = Some s → seq_lengths !! i = Some l →
           (l ≤ Z.of_nat (length s))%Z.

(** The invariants of the data model that [batchify] relies on: parallel
    arrays, [input_dim = D >= 1] channels in every sequence and feature
    mask, and stored arrays that cover the declared lengths. *)
Definition valid_dataset {F : Type} (D : nat)
    (sequences : list (array2 F)) (seq_lengths : list Z)
    (sequences_feature_mask : option (list (array2 F)))
    (static : list (frame F)) (y_sequence y_mask_sequence : option (list F))
    : Prop :=
  leading_dims_cover sequences seq_lengths sequences_feature_mask static
    y_sequence y_mask_sequence ∧
  0 < D ∧ channels D sequences ∧ stored_cover sequences seq_lengths ∧
  from_option (λ m, channels D m ∧ stored_cover m seq_lengths) True
    sequences_feature_mask.

(** The row [row] of a dense batch is the stored array [s] truncated to
    [T_max] time steps and padded with zero frames of [D] channels: it
    has at most [T_max] time steps, it holds every frame that [s] has
    before [T_max] at the same time step, and wherever [s] has no frame
    it holds zeros. *)
Definition padded_from {F : Type} (zero : F) (D : nat) (T_max : Z)
    (row s : array2 F) : Prop :=
  (Z.of_nat (length row) ≤ T_max)%Z ∧
  (∀ t fr, (Z.of_nat t < T_max)%Z → s !! t = Some fr → row !! t = Some fr) ∧
  (∀ t fr, row !! t = Some fr → s !! t = None → fr = replicate D zero).

(** Entry [b] of an optional per-example output is entry [j] of the
    optional dataset array it was gathered from; an absent array stays
    absent. *)
Definition optional_row {A : Type} (out : option (list A)) (b : nat)
    (x : option (list A)) (j : nat) : Prop :=
  match x with
  | None => out = None
  | Some v => ∃ w e, out = Some w ∧ w !! b = Some e ∧ v !! j = Some e
  end.

(** Row [b] of every per-example array of the mini-batch [mb] holds the
    data of example [j] of the dataset arrays: the static row and the
    length as they are, the sequence truncated to [T_max] (the first
    sorted length) and zero-padded to exactly [T_max] time steps, the
    feature mask truncated to [T_max] and zero-padded, and the entries
    of y and y_mask. *)
Definition row_of {F : Type} (zero : F) (D : nat) (mb : MiniBatch F) (b : nat)
    (sequences : list (array2 F)) (seq_lengths : list Z)
    (sequences_feature_mask : option (list (array2 F)))
    (static : list (frame F)) (y_sequence y_mask_sequence : option (list F))
    (j : nat) : Prop :=
  (∃ row, mini_batch_static mb !! b = Some row ∧ static !! j = Some row) ∧
  (∃ l, sorted_seq_lengths mb !! b = Some l ∧ seq_lengths !! j = Some l) ∧
  (∃ T_max s row,
     head (sorted_seq_lengths mb) = Some T_max ∧
     sequences !! j = Some s ∧
     mini_batch mb !! b = Some row ∧
     Z.of_nat (length row) = T_max ∧
     padded_from zero D T_max row s ∧
     match sequences_feature_mask with
     | None => mini_batch_feature_mask mb = None
     | Some m =>
         ∃ fmb sm rowm,
           mini_batch_feature_mask mb = Some fmb ∧
           m !! j = Some sm ∧
           fmb !! b = Some rowm ∧
           padded_from zero D T_max rowm sm
     end) ∧
  optional_row (y_mini_batch mb) b y_sequence j ∧
  optional_row (y_mask_mini_batch mb) b y_mask_sequence j.

(** The array [out] is the array [src] gathered at the positions [keep]:
    it has one entry per position, and entry [k] is the entry of [src]
    at the [k]-th position. *)
Definition gathered_at {A : Type} (keep : list nat) (src out : list A)
    : Prop :=
  length out = length keep ∧
  ∀ k i, keep !! k = Some i → ∃ x, src !! i = Some x ∧ out !! k = Some x.

(** The same for an optional array: an absent array stays absent. *)
Definition gathered_optional {A : Type} (keep : list nat)
    (src out : option (list A)) : Prop :=
  match src with
  | None => out = None
  | Some v => ∃ w, out = Some w ∧ gathered_at keep v w
  end.

(** Every array has a row at each of the positions [keep]. *)
Definition rows_at {F : Type} (keep : list nat)
    (sequences : list (array2 F))
    (sequences_feature_mask : option (list (array2 F)))
    (static : list (frame F)) (y_sequence y_mask_sequence : option (list F))
    : Prop :=
  Forall
    (λ i, i < length static ∧ i < length sequences ∧
          from_option (λ m, i < length m) True sequences_feature_mask ∧
          from_option (λ v, i < length v) True y_sequence ∧
          from_option (λ v, i < length v) True y_mask_sequence)
    keep.

(** Every per-example array of the mini-batch has [n] rows. *)
Definition row_count {F : Type} (mb : MiniBatch F) (n : nat) : Prop :=
  length (source_indices mb) = n ∧
  length (mini_batch_static mb) = n ∧
  length (mini_batch mb) = n ∧
  length (mini_batch_mask mb) = n ∧
  length (sorted_seq_lengths mb) = n ∧
  from_option (λ t, length t = n) True (mini_batch_feature_mask mb) ∧
  from_option (λ v, length v = n) True (y_mini_batch mb) ∧
  from_option (λ v, length v = n) True (y_mask_mini_batch mb).

(** ** A small dataset

    Six examples with one channel; the second one is empty and the last
    one is longer than the [max_len] of 3 used with it. *)
Definition ex_sequences : list (array2 Z) :=
  [ [[1]; [2]]; []; [[3]; [4]; [5]]; [[6]]; [[7]; [8]];
    [[9]; [9]; [9]; [9]] ]%Z.
Definition ex_seq_lengths : list Z := [2; 0; 3; 1; 2; 4]%Z.
Definition ex_feature_mask : list (array2 Z) :=
  [ [[1]; [0]]; []; [[1]; [1]; [0]]; [[1]]; [[0]; [1]];
    [[1]; [1]; [1]; [1]] ]%Z.
Definition ex_static : list (frame Z) :=
  [[10]; [20]; [30]; [40]; [50]; [60]]%Z.
Definition ex_y : list Z := [1; 0; 1; 0; 1; 0]%Z.

(** A padded row with everything beyond its first [l] frames set to zero. *)
Definition zero_beyond {F : Type} (zero : F) (row : array2 F) (l : Z)
    : array2 F :=
  take (Z.to_nat l) row ++ drop (Z.to_nat l) (map (map (λ _, zero)) row).

(** The dense batch that [get_mini_batch] reverses and packs: the padded
    sequence, with the padded feature mask appended channel-wise when the
    mask is fused. *)
Definition packed_source {F : Type} (mb : MiniBatch F) (fused : bool)
    : tensor3 F :=
  match mini_batch_feature_mask mb with
  | Some padded =>
      if fused then zip_with (zip_with app) (mini_batch mb) padded
      else mini_batch mb
  | None => mini_batch mb
  end.

(** ** Predicter_Attention.__init__: the sizes of the MLP (util.py 171-185)

    The constructor reads the layer sizes off a string such as
    ["48-24-12"].  Only this part of the constructor is modelled; the
    statements before it build the attention parameters and do not touch
    the variables used here.  A raised exception (the ValueError of
    [int], the RuntimeError of [nn.Linear] on a negative size) is [None]. *)

(** [s.split(sep)] for a one-character separator. *)
Fixpoint split_on (sep : ascii) (s : string) : list string :=
  match s with
  | EmptyString => [EmptyString]
  | String ch s' =>
      if decide (ch = sep) then EmptyString :: split_on sep s'
      else match split_on sep s' with
           | w :: ws => String ch w :: ws
           | [] => [String ch EmptyString]
           end
  end.

(** [sep.join(l)], used to state what [split_on] computes. *)
Fixpoint join_with (sep : ascii) (l : list string) : string :=
  match l with
  | [] => ""
  | [w] => w
  | w :: ws => w +:+ String sep (join_with sep ws)
  end.

(** [nn.Linear(in_features, out_features)], as far as its sizes go: it
    raises on a negative size (no tensor has a negative dimension) and
    accepts 0.  Sizes too large to allocate are not modelled. *)
Record Linear : Type := mkLinear {
  in_features : Z;
  out_features : Z;
}.

Definition nn_Linear (i o : Z) : option Linear :=
  if decide (0 ≤ i ∧ 0 ≤ o)%Z then Some (mkLinear i o) else None.

Section LayerSizes.
Variable int : string → option Z.   (* Python's [int] on a [str] *)

Definition middle_layers (MLP_dims : string) : list string :=
  if decide (MLP_dims = "-") then [] else split_on "-"%char MLP_dims.

Definition all_MLP_dimensions (z_dim : Z) (MLP_dims : string)
    : option (list Z) :=
  dims ← mapM int (middle_layers MLP_dims);
  Some ([z_dim] ++ dims ++ [1%Z]).

Definition lin_layers_nn (z_dim : Z) (MLP_dims : string)
    : option (list Linear) :=
  all_MLP_dimensions ← all_MLP_dimensions z_dim MLP_dims;
  mapM (λ i, a ← all_MLP_dimensions !! i;
             b ← all_MLP_dimensions !! (i + 1);
             nn_Linear a b)
       (seq 0 (length all_MLP_dimensions - 1)).

End LayerSizes.

(** A stand-in for [int] in examples: it reads a non-empty string of ASCII
    decimal digits and rejects every other string ([int] itself also
    accepts surrounding blanks, a sign and underscores). *)
Fixpoint digits_value (acc : Z) (s : string) : option Z :=
  match s with
  | EmptyString => Some acc
  | String ch s' =>
      let n := nat_of_ascii ch in
      if decide (48 ≤ n ≤ 57)
      then digits_value (10 * acc + Z.of_nat (n - 48))%Z s'
      else None
  end.

Definition int_digits (s : string) : option Z :=
  match s with
  | EmptyString => None
  | String _ _ => digits_value 0 s
  end.

(** * Properties *)

(** ** The exception monad and the loops *)

Lemma bind_Ok {A B : Type} (m : result A) (f : A → result B) (b : B) :
  m ≫= f = Ok b ↔ ∃ a, m = Ok a ∧ f a = Ok b.
Proof.
  destruct m as [a|e]; simpl; split.
  - intros H. by exists a.
  - by intros (a' & [= <-] & H).
  - intros H. discriminate H.
  - by intros (a' & [=] & _).
Qed.

Lemma fmap_Ok {A B : Type} (m : result A) (f : A → B) (b : B) :
  f <$> m = Ok b ↔ ∃ a, m = Ok a ∧ b = f a.
Proof.
  destruct m as [a|e]; simpl; split.
  - intros [= <-]. by exists a.
  - by intros (a' & [= <-] & ->).
  - intros H. discriminate H.
  - by intros (a' & [=] & _).
Qed.

Lemma item_Ok {A : Type} (a : list A) (i : nat) (x : A) :
  item a i = Ok x ↔ a !! i = Some x.
Proof. unfold item. destruct (a !! i); split; congruence. Qed.

Lemma item_lookup {A : Type} (a : list A) (i : nat) (x : A) :
  a !! i = Some x → item a i = Ok x.
Proof. apply item_Ok. Qed.

Lemma map_result_Ok {A B : Type} (f : A → result B) (xs : list A) (ys : list B) :
  map_result f xs = Ok ys ↔ Forall2 (λ x y, f x = Ok y) xs ys.
Proof.
  revert ys. induction xs as [|x xs IH]; intros ys; simpl.
  - split.
    + intros [= <-]. constructor.
    + intros H. by inversion H.
  - split.
    + intros (y & Hy & H)%bind_Ok. apply bind_Ok in H as (ys' & Hys & [= <-]).
      constructor; [done|]. by apply IH.
    + intros H. inversion H as [|? y ? ys' Hy Hys]; subst.
      rewrite Hy. simpl. apply IH in Hys. by rewrite Hys.
Qed.

Lemma map_result_length {A B : Type} (f : A → result B) xs ys :
  map_result f xs = Ok ys → length ys = length xs.
Proof. intros H%map_result_Ok. symmetry. by eapply Forall2_length. Qed.

Lemma take_along_Ok {A : Type} (a : list A) (idx : list nat) (ys : list A) :
  take_along a idx = Ok ys ↔ Forall2 (λ i y, a !! i = Some y) idx ys.
Proof.
  unfold take_along. rewrite map_result_Ok.
  split; intros H; (eapply Forall2_impl; [exact H|]); intros i y; apply item_Ok.
Qed.

Lemma take_along_length {A : Type} (a : list A) idx ys :
  take_along a idx = Ok ys → length ys = length idx.
Proof. apply map_result_length. Qed.

Lemma take_along_lookup {A : Type} (a : list A) idx ys k i :
  take_along a idx = Ok ys → idx !! k = Some i → ys !! k = a !! i.
Proof.
  intros H%take_along_Ok Hk.
  destruct (Forall2_lookup_l _ _ _ _ _ H Hk) as (y & Hy & Hai). congruence.
Qed.

Lemma take_along_total {A : Type} (a : list A) (idx : list nat) :
  Forall (λ i, i < length a) idx → ∃ ys, take_along a idx = Ok ys.
Proof.
  induction 1 as [|i idx Hi _ [ys IH]].
  - by exists [].
  - destruct (lookup_lt_is_Some_2 a i Hi) as [x Hx].
    exists (x :: ys). unfold take_along in *. simpl.
    by rewrite (item_lookup _ _ _ Hx), IH.
Qed.

Lemma take_along_Err {A : Type} (a : list A) (idx : list nat) (i : nat) :
  i ∈ idx → length a ≤ i → ∃ e, take_along a idx = Err e.
Proof.
  intros Hin Hi. destruct (take_along a idx) as [ys|e] eqn:E; [|by exists e].
  apply take_along_Ok in E. apply list_elem_of_lookup in Hin as [k Hk].
  destruct (Forall2_lookup_l _ _ _ _ _ E Hk) as (y & _ & Hy).
  apply lookup_lt_Some in Hy. lia.
Qed.

Lemma take_along_seq {A : Type} (a : list A) (n : nat) :
  n ≤ length a → take_along a (seq 0 n) = Ok (take n a).
Proof.
  intros Hn. apply take_along_Ok. apply Forall2_same_length_lookup_2.
  - rewrite length_seq, length_take. lia.
  - intros k i y Hk Hy. apply lookup_seq in Hk as [-> Hk].
    by rewrite lookup_take_lt in Hy.
Qed.

Lemma take_along_reverse {A : Type} (a : list A) idx ys :
  take_along a idx = Ok ys → take_along a (reverse idx) = Ok (reverse ys).
Proof. rewrite !take_along_Ok. apply Forall2_reverse. Qed.

(** A loop over [range(n)] that keeps an invariant [P k] before iteration
    [k] runs to completion and establishes [P n]. *)
Lemma index_select_Ok {A : Type} (x : list A) (index : list nat) ys :
  index_select x index = Ok ys ↔ take_along x index = Ok ys.
Proof.
  unfold index_select. by destruct x as [|a x], index as [|i index].
Qed.

Lemma for_each_range {St : Type} (body : St → nat → result St)
    (P : nat → St → Prop) (n : nat) (s0 : St) :
  P 0 s0 →
  (∀ k s, k < n → P k s → ∃ s', body s k = Ok s' ∧ P (S k) s') →
  ∃ s, for_each body (seq 0 n) s0 = Ok s ∧ P n s.
Proof.
  intros H0 Hstep.
  assert (G : ∀ m a s, a + m = n → P a s →
                ∃ s', for_each body (seq a m) s = Ok s' ∧ P n s').
  { induction m as [|m IH]; intros a s Ha HP; simpl.
    - exists s. split; [done|]. by replace n with a by lia.
    - destruct (Hstep a s) as (s' & Hb & HP'); [lia|done|].
      rewrite Hb. simpl. apply IH; [lia|done]. }
  by apply (G n 0 s0).
Qed.

(** Partial correctness of a loop: an invariant that every successful
    iteration preserves holds of the final state. *)
Lemma for_each_inv {A St : Type} (body : St → A → result St)
    (P : St → Prop) (xs : list A) (s0 s : St) :
  P s0 →
  (∀ s x s', x ∈ xs → P s → body s x = Ok s' → P s') →
  for_each body xs s0 = Ok s → P s.
Proof.
  revert s0. induction xs as [|x xs IH]; intros s0 H0 Hstep; simpl.
  - by intros [= <-].
  - intros (s' & Hb & H)%bind_Ok. eapply (IH s'); [|..|done].
    + eapply Hstep; [|done..]. by left.
    + intros s1 x1 s2 Hin. apply Hstep. by right.
Qed.

Lemma take_along_Forall {A : Type} (P : A → Prop) (a : list A) idx ys :
  Forall P a → take_along a idx = Ok ys → Forall P ys.
Proof.
  intros Ha H%take_along_Ok. apply Forall_lookup. intros k y Hy.
  destruct (Forall2_lookup_r _ _ _ _ _ H Hy) as (i & _ & Hi).
  rewrite Forall_lookup in Ha. by eapply Ha.
Qed.

Lemma take_along_perm {A : Type} (a : list A) idx1 idx2 ys1 :
  idx1 ≡ₚ idx2 → take_along a idx1 = Ok ys1 →
  ∃ ys2, take_along a idx2 = Ok ys2 ∧ ys1 ≡ₚ ys2.
Proof.
  unfold take_along. intros Hp. revert ys1.
  induction Hp as [|i idx1 idx2 Hp IH|i j idx|idx1 idx2 idx3 _ IH1 _ IH2];
    intros ys1; simpl.
  - intros [= <-]. by exists [].
  - intros (x & Hx & H)%bind_Ok. apply bind_Ok in H as (xs & Hxs & [= <-]).
    destruct (IH _ Hxs) as (ys2 & Hys2 & Hperm).
    exists (x :: ys2). rewrite Hx, Hys2. simpl. split; [done|].
    by apply Permutation_skip.
  - intros (x & Hx & H)%bind_Ok. apply bind_Ok in H as (xs & H & [= <-]).
    apply bind_Ok in H as (y & Hy & H). apply bind_Ok in H as (ys & Hys & [= <-]).
    exists (y :: x :: ys). rewrite Hx, Hy, Hys. simpl. split; [done|].
    apply Permutation_swap.
  - intros H1. destruct (IH1 _ H1) as (ys2 & H2 & Hp12).
    destruct (IH2 _ H2) as (ys3 & H3 & Hp23).
    exists ys3. split; [done|]. by etrans.
Qed.

Lemma take_along_all {A : Type} (a : list A) :
  take_along a (seq 0 (length a)) = Ok a.
Proof. rewrite take_along_seq by done. by rewrite take_ge. Qed.

(** Gathering at a permutation of all positions permutes the array. *)
Lemma take_along_permutation {A : Type} (a : list A) idx ys :
  idx ≡ₚ seq 0 (length a) → take_along a idx = Ok ys → ys ≡ₚ a.
Proof.
  intros Hp H. destruct (take_along_perm a _ _ _ Hp H) as (ys2 & H2 & Hperm).
  rewrite take_along_all in H2. by simplify_eq.
Qed.

Lemma take_along_elem_of {A : Type} (a : list A) idx ys y :
  take_along a idx = Ok ys → y ∈ ys → ∃ i, i ∈ idx ∧ a !! i = Some y.
Proof.
  intros H%take_along_Ok [k Hk]%list_elem_of_lookup.
  destruct (Forall2_lookup_r _ _ _ _ _ H Hk) as (i & Hi & Hai).
  exists i. split; [by eapply list_elem_of_lookup_2|done].
Qed.

Lemma torch_max_Ok (t : list Z) :
  t ≠ [] → ∃ m, torch_max t = Ok m ∧ m ∈ t ∧ Forall (λ l, (l ≤ m)%Z) t.
Proof.
  destruct t as [|x t]; [done|]. intros _. simpl.
  exists (foldr Z.max x t). split; [done|].
  induction t as [|y t [IH1 IH2]]; simpl.
  - split; [by left|]. by repeat constructor.
  - apply Forall_cons in IH2 as [Hx IH2].
    destruct (Z.max_spec y (foldr Z.max x t)) as [[Hlt ->]|[Hle ->]].
    + split.
      * apply elem_of_cons in IH1 as [->|IH1]; [by left|by do 2 right].
      * repeat constructor; [done|lia|done].
    + split; [right; by left|].
      repeat constructor; [lia|lia|].
      eapply Forall_impl; [exact IH2|]. simpl. lia.
Qed.

Lemma max_list_le (n : nat) (ns : list nat) :
  Forall (λ k, k ≤ n) ns → max_list ns ≤ n.
Proof. induction 1; simpl; lia. Qed.

(** A loop that appends one result per iteration is a comprehension. *)
Lemma for_each_append {A B : Type} (f : A → result B) (xs : list A)
    (acc : list B) :
  for_each (λ acc x, y ← f x; Ok (acc ++ [y])) xs acc
  = ys ← map_result f xs; Ok (acc ++ ys).
Proof.
  revert acc. induction xs as [|x xs IH]; intros acc; simpl.
  - by rewrite app_nil_r.
  - destruct (f x) as [y|e]; simpl; [|done]. rewrite IH.
    destruct (map_result f xs) as [ys|e]; simpl; [|done].
    by rewrite <- app_assoc.
Qed.

Lemma take_along_seq_from {A : Type} (a : list A) (start n : nat) :
  start + n ≤ length a →
  take_along a (seq start n) = Ok (take n (drop start a)).
Proof.
  intros Hn. apply take_along_Ok. apply Forall2_same_length_lookup_2.
  - rewrite length_seq, length_take, length_drop. lia.
  - intros k i y Hk Hy. apply lookup_seq in Hk as [-> Hk].
    rewrite lookup_take_lt in Hy by done. by rewrite lookup_drop in Hy.
Qed.

Lemma py_slice_seq (N : nat) (start stop : Z) :
  (0 ≤ start ≤ stop)%Z → (stop ≤ Z.of_nat N)%Z →
  py_slice (seq 0 N) start stop
  = seq (Z.to_nat start) (Z.to_nat stop - Z.to_nat start).
Proof.
  intros H1 H2. unfold py_slice. rewrite drop_seq, take_seq. simpl.
  f_equal. lia.
Qed.

(** ** The number of mini-batches *)

Lemma N_mini_batches_ceil (N batch_size : Z) :
  (0 ≤ N)%Z → (1 ≤ batch_size)%Z →
  N_mini_batches N batch_size = Ok ((N + batch_size - 1) `div` batch_size)%Z.
Proof.
  intros HN Hbs. unfold N_mini_batches.
  rewrite (proj2 (Z.eqb_neq batch_size 0)) by lia. f_equal.
  rewrite Z.quot_div_nonneg by lia.
  pose proof (Z.div_mod N batch_size ltac:(lia)) as Hdm.
  pose proof (Z.mod_pos_bound N batch_size ltac:(lia)) as Hmod.
  destruct (0 <? N `mod` batch_size)%Z eqn:E.
  - apply Z.ltb_lt in E.
    apply (Z.div_unique _ _ _ (N `mod` batch_size - 1)); lia.
  - apply Z.ltb_ge in E.
    apply (Z.div_unique _ _ _ (batch_size - 1)); lia.
Qed.

Lemma torch_max_unique (t : list Z) (m : Z) :
  m ∈ t → Forall (λ l, (l ≤ m)%Z) t → torch_max t = Ok m.
Proof.
  intros Hin Hmax. destruct (torch_max_Ok t) as (m' & -> & Hin' & Hmax').
  { intros ->. by apply elem_of_nil in Hin. }
  rewrite Forall_forall in Hmax, Hmax'.
  specialize (Hmax _ Hin'). specialize (Hmax' _ Hin). f_equal. lia.
Qed.

Lemma torch_max_perm (t t' : list Z) (m : Z) :
  t ≡ₚ t' → torch_max t = Ok m → torch_max t' = Ok m.
Proof.
  intros Hp H.
  assert (Hne : t ≠ []) by (intros ->; done).
  destruct (torch_max_Ok t Hne) as (m' & Hm' & Hin & Hmax).
  assert (m' = m) as -> by congruence.
  apply torch_max_unique; by rewrite <- Hp.
Qed.

Lemma take_along_lookup_Some {A : Type} (a : list A) idx ys k y :
  take_along a idx = Ok ys → ys !! k = Some y →
  ∃ i, idx !! k = Some i ∧ a !! i = Some y.
Proof.
  intros H%take_along_Ok Hy.
  destruct (Forall2_lookup_r _ _ _ _ _ H Hy) as (i & Hi & Hai). by exists i.
Qed.

Lemma take_along_lookup_idx {A : Type} (a : list A) idx ys k i :
  take_along a idx = Ok ys → idx !! k = Some i →
  ∃ y, ys !! k = Some y ∧ a !! i = Some y.
Proof.
  intros H%take_along_Ok Hi.
  destruct (Forall2_lookup_l _ _ _ _ _ H Hi) as (y & Hy & Hai). by exists y.
Qed.

Lemma take_optional_row {A : Type} (x : option (list A)) idx out k i :
  take_optional x idx = Ok out → idx !! k = Some i → optional_row out k x i.
Proof.
  destruct x as [v|]; simpl.
  - intros (w & Hw & ->)%fmap_Ok Hi.
    destruct (take_along_lookup_idx _ _ _ _ _ Hw Hi) as (e & He & Hv).
    by exists w, e.
  - by intros [= <-].
Qed.

Lemma take_optional_length {A : Type} (x : option (list A)) idx out :
  take_optional x idx = Ok out →
  from_option (λ v, length v = length idx) True out.
Proof.
  destruct x as [v|]; simpl.
  - intros (w & Hw & ->)%fmap_Ok. simpl. by eapply take_along_length.
  - by intros [= <-].
Qed.

Lemma map_result_exists {A B : Type} (f : A → result B) (xs : list A) :
  Forall (λ x, ∃ y, f x = Ok y) xs → ∃ ys, map_result f xs = Ok ys.
Proof.
  induction 1 as [|x xs [y Hy] _ [ys IH]]; simpl.
  - by exists [].
  - exists (y :: ys). by rewrite Hy, IH.
Qed.

Lemma join_Permutation {A : Type} (ls1 ls2 : list (list A)) :
  Forall2 (≡ₚ) ls1 ls2 → mjoin ls1 ≡ₚ mjoin ls2.
Proof.
  induction 1 as [|l1 l2 ls1 ls2 Hl _ IH]; simpl; [done|].
  by rewrite Hl, IH.
Qed.

(** ** The chunks of the partition *)

Lemma ceil_bounds (N batch_size : Z) :
  (0 ≤ N)%Z → (1 ≤ batch_size)%Z →
  let n := ((N + batch_size - 1) `div` batch_size)%Z in
  (0 ≤ n)%Z ∧ (N ≤ n * batch_size)%Z ∧ ((n - 1) * batch_size < N ∨ N = 0)%Z ∧
  (N = 0%Z → n = 0%Z).
Proof.
  intros HN Hbs n.
  pose proof (Z.div_mod (N + batch_size - 1) batch_size ltac:(lia)) as Hdm.
  pose proof (Z.mod_pos_bound (N + batch_size - 1) batch_size ltac:(lia)) as Hm.
  fold n in Hdm.
  assert (0 ≤ n)%Z by (apply Z.div_pos; lia).
  split; [done|]. split; [nia|]. split; [nia|].
  intros ->. unfold n. apply Z.div_small. lia.
Qed.

Lemma chunk_bounds (N batch_size k : Z) :
  (0 ≤ N)%Z → (1 ≤ batch_size)%Z →
  (0 ≤ k < (N + batch_size - 1) `div` batch_size)%Z →
  let n := ((N + batch_size - 1) `div` batch_size)%Z in
  let start := (k * batch_size)%Z in
  let stop := Z.min ((k + 1) * batch_size) N in
  (0 ≤ start < stop)%Z ∧ (stop ≤ N)%Z ∧
  (stop - start =
     if decide (k + 1 < n)%Z then batch_size
     else if decide (N `mod` batch_size = 0)%Z then batch_size
          else N `mod` batch_size)%Z.
Proof.
  intros HN Hbs Hk n start stop.
  destruct (ceil_bounds N batch_size HN Hbs) as (Hn & Hn2 & _ & _).
  fold n in Hn, Hn2.
  pose proof (Z.div_mod N batch_size ltac:(lia)) as Hdm.
  pose proof (Z.mod_pos_bound N batch_size ltac:(lia)) as Hm.
  pose proof (Z.div_mod (N + batch_size - 1) batch_size ltac:(lia)) as Hdm'.
  pose proof (Z.mod_pos_bound (N + batch_size - 1) batch_size ltac:(lia)) as Hm'.
  fold n in Hdm', Hk.
  unfold start, stop. split; [nia|]. split; [lia|].
  destruct (decide (k + 1 < n)%Z) as [Hlt|Hge].
  - rewrite Z.min_l by nia. lia.
  - assert (k = n - 1)%Z as -> by lia.
    rewrite Z.min_r by nia.
    destruct (decide (N `mod` batch_size = 0)%Z) as [Hz|Hnz].
    + assert (N + batch_size - 1
              = batch_size * (N `div` batch_size) + (batch_size - 1))%Z
        as Heq by lia.
      assert (n = N `div` batch_size)%Z as Hq.
      { unfold n. symmetry. apply (Z.div_unique _ _ _ (batch_size - 1)); lia. }
      nia.
    + assert (n = N `div` batch_size + 1)%Z as Hq.
      { unfold n. symmetry.
        apply (Z.div_unique _ _ _ (N `mod` batch_size - 1)); lia. }
      nia.
Qed.

Lemma chunks_join {A : Type} (l : list A) (batch_size : Z) :
  (1 ≤ batch_size)%Z →
  let N := Z.of_nat (length l) in
  mjoin ((λ k, py_slice l (k * batch_size) (Z.min ((k + 1) * batch_size) N))
           <$> py_range ((N + batch_size - 1) `div` batch_size)) = l.
Proof.
  intros Hbs N. set (n := ((N + batch_size - 1) `div` batch_size)%Z).
  destruct (ceil_bounds N batch_size ltac:(lia) Hbs) as (Hn & Hn2 & _ & _).
  fold n in Hn, Hn2.
  assert (G : ∀ m : nat, (Z.of_nat m ≤ n)%Z →
    mjoin ((λ k, py_slice l (k * batch_size) (Z.min ((k + 1) * batch_size) N))
             <$> (Z.of_nat <$> seq 0 m))
    = take (Z.to_nat (Z.min (Z.of_nat m * batch_size) N)) l).
  { induction m as [|m IH]; intros Hm.
    - replace (Z.min (Z.of_nat 0 * batch_size) N) with 0%Z by lia. done.
    - rewrite seq_S, !fmap_app, join_app, IH by lia. simpl.
      rewrite app_nil_r. unfold py_slice.
      destruct (chunk_bounds N batch_size (Z.of_nat m) ltac:(lia) Hbs
                  ltac:(fold n; lia)) as (Hs1 & Hs2 & _).
      rewrite Z.min_l by lia.
      rewrite take_take_drop. f_equal. lia. }
  unfold py_range. rewrite G by lia.
  apply take_ge. lia.
Qed.

Lemma StronglySorted_lt_NoDup (l : list nat) : StronglySorted lt l → NoDup l.
Proof.
  induction 1 as [|x l _ IH Hx]; constructor; [|done].
  intros Hin. rewrite Forall_forall in Hx. specialize (Hx x Hin). lia.
Qed.

(** ** Packing *)

Lemma bind_join_fmap {A B : Type} (f : A → list B) (xs : list A) :
  xs ≫= f = mjoin (f <$> xs).
Proof. by rewrite list_join_bind, list_fmap_bind. Qed.

Lemma bind_option_list {A B : Type} (g : A → option B) (h : A → B) xs :
  Forall (λ x, g x = Some (h x)) xs →
  (xs ≫= λ x, option_list (g x)) = h <$> xs.
Proof.
  induction 1 as [|x xs Hx _ IH]; [done|].
  rewrite bind_cons, Hx, IH. done.
Qed.

Lemma filter_none {A : Type} (P : A → Prop) `{!∀ x, Decision (P x)}
    (l : list A) :
  Forall (λ x, ¬ P x) l → filter P l = [].
Proof.
  induction 1 as [|x l Hx _ IH]; [done|]. by rewrite filter_cons_False.
Qed.

Lemma filter_all {A : Type} (P : A → Prop) `{!∀ x, Decision (P x)}
    (l : list A) :
  Forall P l → filter P l = l.
Proof.
  induction 1 as [|x l Hx _ IH]; [done|].
  rewrite filter_cons_True by done. by rewrite IH.
Qed.

Lemma alive_sorted (L : list Z) (t b : nat) (l : Z) :
  StronglySorted (λ a b, (b ≤ a)%Z) L → L !! b = Some l →
  b < alive L t ↔ (Z.of_nat t < l)%Z.
Proof.
  intros Hs. revert b. unfold alive.
  induction Hs as [|l0 L Hs IH Hl0]; intros b Hb; [done|].
  rewrite filter_cons. case_decide as Ht.
  - destruct b as [|b]; simpl in *.
    + simplify_eq. split; [done|lia].
    + rewrite <- (IH b Hb). lia.
  - assert (Hnil : filter (λ l, (Z.of_nat t < l)%Z) L = []).
    { apply filter_none. eapply Forall_impl; [exact Hl0|]. simpl. lia. }
    rewrite Hnil. simpl. split; [lia|]. intros Hlt.
    destruct b as [|b]; simpl in *; [simplify_eq; lia|].
    rewrite Forall_forall in Hl0.
    specialize (Hl0 l (list_elem_of_lookup_2 _ _ _ Hb)). lia.
Qed.
(** A loop that rewrites row [b] of its state at iteration [b], from the
    row it finds there, computes the row-wise image of the initial state. *)
Lemma for_each_rows {A : Type} (body : list A → nat → result (list A))
    (h : nat → A → A) (init : list A) :
  (∀ st b old, length st = length init → init !! b = Some old →
     st !! b = Some old → body st b = Ok (<[b := h b old]> st)) →
  for_each body (seq 0 (length init)) init = Ok (imap h init).
Proof.
  intros Hbody.
  destruct (for_each_range body
    (λ k st, length st = length init ∧
             ∀ b, st !! b = if decide (b < k) then h b <$> init !! b
                            else init !! b)
    (length init) init) as (st & -> & Hlen & Hst).
  - split; [done|]. intros b. by rewrite decide_False by lia.
  - intros k st Hk [Hlen Hst].
    destruct (lookup_lt_is_Some_2 init k Hk) as [old Hold].
    exists (<[k := h k old]> st). split.
    + apply Hbody; [done..|]. rewrite Hst. by rewrite decide_False by lia.
    + split; [by rewrite length_insert|]. intros b.
      destruct (decide (b = k)) as [->|Hne].
      * rewrite list_lookup_insert_eq by lia.
        rewrite decide_True by lia. by rewrite Hold.
      * rewrite list_lookup_insert_ne by done. rewrite Hst.
        repeat case_decide; (done || lia).
  - f_equal. apply list_eq. intros b. rewrite Hst, list_lookup_imap.
    case_decide as Hb; [done|].
    rewrite lookup_ge_None_2 by lia. done.
Qed.

(** ** torch.sort and the descending order *)

Lemma StronglySorted_lookup {A : Type} (R : relation A) (l : list A) i j x y :
  StronglySorted R l → i < j → l !! i = Some x → l !! j = Some y → R x y.
Proof.
  intros Hs. revert i j. induction Hs as [|a l Hs IH Ha]; intros i j Hij Hi Hj.
  - by rewrite lookup_nil in Hi.
  - destruct j as [|j]; [lia|]. simpl in Hj. destruct i as [|i]; simpl in Hi.
    + simplify_eq. rewrite Forall_forall in Ha. apply Ha.
      by eapply list_elem_of_lookup_2.
    + apply (IH i j); [lia|done..].
Qed.

Lemma sort_insert_perm (x : Z * nat) (l : list (Z * nat)) :
  sort_insert x l ≡ₚ x :: l.
Proof.
  induction l as [|y l IH]; simpl; [done|].
  case_match; [done|]. rewrite IH. apply Permutation_swap.
Qed.

Lemma sort_pairs_perm (l : list (Z * nat)) : sort_pairs l ≡ₚ l.
Proof.
  induction l as [|x l IH]; simpl; [done|].
  by rewrite sort_insert_perm, IH.
Qed.

Lemma sort_insert_sorted (x : Z * nat) (l : list (Z * nat)) :
  StronglySorted lex_lt l → Forall (λ y, x.2 < y.2) l →
  StronglySorted lex_lt (sort_insert x l).
Proof.
  induction 1 as [|y l Hs IH Hy]; intros Hx; simpl.
  - repeat constructor.
  - apply Forall_cons in Hx as [Hxy Hx].
    destruct (x.1 <=? y.1)%Z eqn:E.
    + apply Z.leb_le in E. constructor; [by constructor|].
      constructor.
      * unfold lex_lt. lia.
      * rewrite Forall_forall in Hy, Hx. apply Forall_forall. intros z Hz.
        specialize (Hy z Hz). specialize (Hx z Hz). unfold lex_lt in *. lia.
    + apply Z.leb_gt in E. constructor; [by apply IH|].
      rewrite sort_insert_perm. constructor; [|done].
      unfold lex_lt. lia.
Qed.

Lemma sort_pairs_sorted (l : list (Z * nat)) :
  StronglySorted lt (l.*2) → StronglySorted lex_lt (sort_pairs l).
Proof.
  induction l as [|x l IH]; intros Hs.
  - constructor.
  - rewrite fmap_cons in Hs. apply StronglySorted_cons in Hs as [Hx Hs].
    change (sort_pairs (x :: l)) with (sort_insert x (sort_pairs l)).
    apply sort_insert_sorted; [by apply IH|].
    rewrite sort_pairs_perm. rewrite Forall_fmap in Hx.
    eapply Forall_impl; [exact Hx|]. by intros [v k].
Qed.

Lemma seq_strongly_sorted (a n : nat) : StronglySorted lt (seq a n).
Proof.
  revert a. induction n as [|n IH]; intros a; simpl; constructor; [done|].
  apply Forall_seq. intros j Hj. lia.
Qed.

(** The stable insertion sort meets the contract of [torch.sort]. *)
Lemma stable_sort_indices (t : list Z) :
  (stable_sort t).2 ≡ₚ seq 0 (length t).
Proof.
  unfold stable_sort. simpl. rewrite sort_pairs_perm.
  by rewrite snd_zip by (rewrite length_seq; lia).
Qed.

Lemma stable_sort_values (t : list Z) :
  Forall2 (λ v k, t !! k = Some v) (stable_sort t).1 (stable_sort t).2.
Proof.
  unfold stable_sort. simpl.
  apply Forall2_fmap, Forall_Forall2_diag, Forall_forall.
  intros [v k] Hin. simpl. rewrite sort_pairs_perm in Hin.
  apply list_elem_of_lookup in Hin as [n Hn].
  apply lookup_zip_Some in Hn as [Hv Hk].
  apply lookup_seq in Hk as [-> _]. done.
Qed.

Lemma stable_sort_lex (t : list Z) :
  StronglySorted lex_lt (sort_pairs (zip t (seq 0 (length t)))).
Proof.
  apply sort_pairs_sorted. rewrite snd_zip by (rewrite length_seq; lia).
  apply seq_strongly_sorted.
Qed.

Lemma stable_sort_ascending (t : list Z) :
  StronglySorted Z.le (stable_sort t).1.
Proof.
  unfold stable_sort. simpl. pose proof (stable_sort_lex t) as Hs.
  induction Hs as [|x l Hs IH Hx]; simpl; constructor; [done|].
  apply Forall_fmap. eapply Forall_impl; [exact Hx|].
  intros y Hy. unfold lex_lt in Hy. simpl. lia.
Qed.

Global Instance stable_torch_sort : TorchSort := {|
  torch_sort := stable_sort;
  torch_sort_indices := stable_sort_indices;
  torch_sort_values := stable_sort_values;
  torch_sort_ascending := stable_sort_ascending;
|}.

(** With the stable sort, the flipped indices put the later one of two
    equally long examples first. *)
Lemma stable_sort_ties (gl : list Z) :
  ties_reversed gl (reverse (stable_sort gl).2).
Proof.
  intros i j pi pj l Hij Hi Hj Hli Hlj.
  unfold stable_sort in Hi, Hj. simpl in Hi, Hj.
  pose proof (stable_sort_lex gl) as Hs.
  set (sorted := sort_pairs (zip gl (seq 0 (length gl)))) in *.
  assert (Hmem : ∀ v k, (v, k) ∈ sorted → gl !! k = Some v).
  { intros v k Hin. unfold sorted in Hin. rewrite sort_pairs_perm in Hin.
    apply list_elem_of_lookup in Hin as [n Hn].
    apply lookup_zip_Some in Hn as [Hv Hk].
    apply lookup_seq in Hk as [-> _]. done. }
  apply reverse_lookup_Some in Hi as [Hi Hi'].
  apply reverse_lookup_Some in Hj as [Hj Hj'].
  rewrite list_lookup_fmap in Hi, Hj.
  destruct (sorted !! _) as [[li pi']|] eqn:Ei in Hi; simplify_eq/=.
  destruct (sorted !! _) as [[lj pj']|] eqn:Ej in Hj; simplify_eq/=.
  rewrite length_fmap in *.
  assert (Hlt : lex_lt (lj, pj) (li, pi)).
  { eapply (StronglySorted_lookup lex_lt sorted); [exact Hs| |exact Ej|exact Ei].
    lia. }
  pose proof (Hmem _ _ (list_elem_of_lookup_2 _ _ _ Ei)) as Hli'.
  pose proof (Hmem _ _ (list_elem_of_lookup_2 _ _ _ Ej)) as Hlj'.
  unfold lex_lt in Hlt. simpl in Hlt. simplify_eq. lia.
Qed.

Section DescendingOrder.
Context `{TS : !TorchSort}.

(** The flipped sort indices enumerate the positions of the batch by
    decreasing length. *)
Lemma descending_order_perm (t : list Z) :
  descending_order t ≡ₚ seq 0 (length t).
Proof.
  unfold descending_order. by rewrite reverse_Permutation, torch_sort_indices.
Qed.

Lemma descending_order_length (t : list Z) :
  length (descending_order t) = length t.
Proof. by rewrite descending_order_perm, length_seq. Qed.

Lemma descending_order_lookup (t : list Z) (i j pi pj : nat) :
  i < j →
  descending_order t !! i = Some pi → descending_order t !! j = Some pj →
  ∃ li lj, t !! pi = Some li ∧ t !! pj = Some lj ∧ (lj ≤ li)%Z.
Proof.
  intros Hij Hi Hj. unfold descending_order in Hi, Hj.
  pose proof (torch_sort_values t) as Hv.
  pose proof (torch_sort_ascending t) as Hs.
  pose proof (Forall2_length _ _ _ Hv) as Hlen.
  apply reverse_lookup_Some in Hi as [Hi Hi'].
  apply reverse_lookup_Some in Hj as [Hj Hj'].
  destruct (Forall2_lookup_r _ _ _ _ _ Hv Hi) as (li & Eli & Hli).
  destruct (Forall2_lookup_r _ _ _ _ _ Hv Hj) as (lj & Elj & Hlj).
  exists li, lj. split; [done|]. split; [done|].
  eapply (StronglySorted_lookup Z.le (torch_sort t).1);
    [exact Hs| |exact Elj|exact Eli].
  lia.
Qed.

Lemma StronglySorted_lookup_2 {A : Type} (R : relation A) (l : list A) :
  (∀ i j x y, i < j → l !! i = Some x → l !! j = Some y → R x y) →
  StronglySorted R l.
Proof.
  induction l as [|a l IH]; intros H'; constructor.
  - apply IH. intros i j x y Hij Hi Hj. by apply (H' (S i) (S j)); [lia|..].
  - apply Forall_lookup. intros j y Hj. by apply (H' 0 (S j)); [lia|..].
Qed.

Lemma descending_order_sorted (gl ssl : list Z) :
  take_along gl (descending_order gl) = Ok ssl →
  StronglySorted (λ a b, (b ≤ a)%Z) ssl.
Proof.
  intros Hssl. apply StronglySorted_lookup_2. intros i j x y Hij Hi Hj.
  assert (Hlen := take_along_length _ _ _ Hssl).
  destruct (lookup_lt_is_Some_2 (descending_order gl) i) as [pi Hpi].
  { rewrite <- Hlen. by eapply lookup_lt_Some. }
  destruct (lookup_lt_is_Some_2 (descending_order gl) j) as [pj Hpj].
  { rewrite <- Hlen. by eapply lookup_lt_Some. }
  rewrite (take_along_lookup _ _ _ _ _ Hssl Hpi) in Hi.
  rewrite (take_along_lookup _ _ _ _ _ Hssl Hpj) in Hj.
  destruct (descending_order_lookup gl i j pi pj Hij Hpi Hpj)
    as (li & lj & Hli & Hlj & Hord).
  simplify_eq. lia.
Qed.

End DescendingOrder.

(** ** The length filter *)

Lemma np_where_from_elem (i : nat) (mask : list bool) (k : nat) :
  k ∈ np_where_from i mask ↔ ∃ j, k = i + j ∧ mask !! j = Some true.
Proof.
  revert i. induction mask as [|m mask IH]; intros i; simpl.
  - split; [by intros ?%elem_of_nil|]. by intros (j & _ & ?).
  - destruct m.
    + rewrite elem_of_cons, IH. split.
      * intros [->|(j & -> & Hj)]; [exists 0|exists (S j)]; split; (lia || done).
      * intros ([|j] & -> & Hj); [left; lia|right]. exists j. split; [lia|done].
    + rewrite IH. split.
      * intros (j & -> & Hj). exists (S j). split; [lia|done].
      * intros ([|j] & -> & Hj); [done|]. exists j. split; [lia|done].
Qed.

Lemma np_where_from_sorted (i : nat) (mask : list bool) :
  StronglySorted lt (np_where_from i mask).
Proof.
  revert i. induction mask as [|m mask IH]; intros i; simpl; [constructor|].
  destruct m; [|apply IH]. constructor; [apply IH|].
  apply Forall_forall. intros k (j & -> & _)%np_where_from_elem. lia.
Qed.

Lemma np_where_elem (mask : list bool) (k : nat) :
  k ∈ np_where mask ↔ mask !! k = Some true.
Proof.
  unfold np_where. rewrite np_where_from_elem. split.
  - by intros (j & -> & Hj).
  - intros Hk. by exists k.
Qed.

Lemma keep_index_elem (seq_lengths : list Z) (max_len : Z) (i : nat) :
  i ∈ np_where (keep_mask seq_lengths max_len) ↔
  ∃ l, seq_lengths !! i = Some l ∧ (0 < l ≤ max_len)%Z.
Proof.
  rewrite np_where_elem. unfold keep_mask. rewrite list_lookup_fmap.
  destruct (seq_lengths !! i) as [l|]; simpl.
  - split.
    + intros [= [H1 H2]%andb_prop]. exists l. split; [done|lia].
    + intros (l' & [= <-] & Hl). f_equal. apply andb_true_intro. lia.
  - split; [done|]. by intros (l & ? & _).
Qed.

Lemma keep_index_lt (seq_lengths : list Z) (max_len : Z) :
  Forall (λ i, i < length seq_lengths)
    (np_where (keep_mask seq_lengths max_len)).
Proof.
  apply Forall_forall. intros i (l & Hl & _)%keep_index_elem.
  by eapply lookup_lt_Some.
Qed.

Lemma take_along_Err_Index {A : Type} (a : list A) (idx : list nat) (e : error) :
  take_along a idx = Err e → e = IndexError.
Proof.
  unfold take_along. induction idx as [|i idx IH]; simpl; [done|].
  destruct (item a i) eqn:Ei; simpl.
  - destruct (map_result (item a) idx); simpl; [done|].
    intros [= <-]. by apply IH.
  - intros [= <-]. unfold item in Ei. destruct (a !! i); congruence.
Qed.

Lemma take_optional_Err_Index {A : Type} (x : option (list A)) idx e :
  take_optional x idx = Err e → e = IndexError.
Proof.
  destruct x as [a|]; simpl; [|done].
  destruct (take_along a idx) eqn:E; simpl; [done|].
  intros [= <-]. by eapply take_along_Err_Index.
Qed.

Section Properties.
Context `{TS : !TorchSort} {F : Type} (zero : F).

(** *** get_mini_batch_mask *)

(** Row [b] of the mask: [L] ones followed by zeros. *)
Lemma get_mini_batch_mask_rows (mb : tensor3 F) (L : list Z) :
  length L = length mb →
  Forall2 (λ row l, (0 ≤ l ≤ Z.of_nat (length row))%Z) mb L →
  get_mini_batch_mask mb L =
    Ok (zip_with (λ row l, replicate (Z.to_nat l) 1%Z
                           ++ replicate (length row - Z.to_nat l) 0%Z) mb L).
Proof.
  intros Hlen Hrange. unfold get_mini_batch_mask.
  set (init := (λ row : list (list F), replicate (length row) 0%Z) <$> mb).
  replace (length mb) with (length init) by (unfold init; by rewrite length_fmap).
  rewrite (for_each_rows _
    (λ b old, replicate (Z.to_nat (L !!! b)) 1%Z
              ++ drop (Z.to_nat (L !!! b)) old)).
  - f_equal. apply list_eq. intros b.
    rewrite list_lookup_imap, lookup_zip_with. unfold init.
    rewrite list_lookup_fmap.
    destruct (mb !! b) as [row|] eqn:Hrow; simpl; [|done].
    destruct (Forall2_lookup_l _ _ _ _ _ Hrange Hrow) as (l & Hl & Hl').
    rewrite Hl. simpl. rewrite (list_lookup_total_correct _ _ _ Hl).
    by rewrite drop_replicate.
  - intros st b old Hst Hinit Hold.
    unfold init in Hinit. rewrite list_lookup_fmap in Hinit.
    destruct (mb !! b) as [row|] eqn:Hrow; simplify_eq/=.
    destruct (Forall2_lookup_l _ _ _ _ _ Hrange Hrow) as (l & Hl & Hl').
    rewrite (item_lookup _ _ _ Hl). simpl.
    rewrite (list_lookup_total_correct _ _ _ Hl).
    unfold torch_ones. rewrite (proj2 (Z.ltb_ge l 0)) by lia. simpl.
    rewrite (item_lookup _ _ _ Hold). simpl.
    unfold assign_upto. rewrite length_take, !length_replicate.
    rewrite decide_True by lia. simpl.
    by replace (Z.to_nat l `min` length row) with (Z.to_nat l) by lia.
Qed.

(** C5.  For a mini-batch of shape [(B, T_max, ...)] and lengths with
    every entry in [[0, T_max]], [get_mini_batch_mask] returns a
    [(B, T_max)] array whose entry [(b, t)] is 1 exactly when
    [t < seq_lengths[b]] and 0 for every [t >= seq_lengths[b]]. *)
Theorem get_mini_batch_mask_correct (mb : tensor3 F) (L : list Z) (T_max : nat) :
  length L = length mb →
  Forall (λ row, length row = T_max) mb →
  Forall (λ l, (0 ≤ l ≤ Z.of_nat T_max)%Z) L →
  ∃ mask,
    get_mini_batch_mask mb L = Ok mask ∧
    length mask = length mb ∧
    Forall (λ row, length row = T_max) mask ∧
    ∀ b t l, L !! b = Some l → t < T_max →
      ∃ v, entry mask b t = Some v ∧
           (v = 1%Z ↔ (Z.of_nat t < l)%Z) ∧
           ((l ≤ Z.of_nat t)%Z → v = 0%Z).
Proof.
  intros Hlen Hshape Hrange.
  assert (Hrange2 : Forall2 (λ (row : list (list F)) l,
                       (0 ≤ l ≤ Z.of_nat (length row))%Z) mb L).
  { apply Forall2_same_length_lookup_2; [done|].
    intros b row l Hrow Hl.
    rewrite Forall_lookup in Hshape. rewrite (Hshape _ _ Hrow).
    rewrite Forall_lookup in Hrange. by apply (Hrange _ _ Hl). }
  eexists. split; [by apply get_mini_batch_mask_rows|].
  split; [|split].
  - rewrite length_zip_with. lia.
  - apply Forall_lookup. intros b r Hr.
    apply lookup_zip_with_Some in Hr as (row & l & -> & Hrow & Hl).
    rewrite Forall_lookup in Hshape. rewrite Forall_lookup in Hrange.
    specialize (Hshape _ _ Hrow). specialize (Hrange _ _ Hl).
    rewrite length_app, !length_replicate. lia.
  - intros b t l Hl Ht.
    destruct (lookup_lt_is_Some_2 mb b) as [row Hrow].
    { rewrite <- Hlen. by eapply lookup_lt_Some. }
    rewrite Forall_lookup in Hshape. rewrite Forall_lookup in Hrange.
    specialize (Hshape _ _ Hrow). specialize (Hrange _ _ Hl).
    unfold entry. rewrite lookup_zip_with, Hrow, Hl. simpl.
    destruct (decide (Z.of_nat t < l)%Z) as [Hlt|Hge].
    + exists 1%Z. rewrite lookup_app_l by (rewrite length_replicate; lia).
      rewrite lookup_replicate_2 by lia. split; [done|]. split; [done|lia].
    + exists 0%Z. rewrite lookup_app_r by (rewrite length_replicate; lia).
      rewrite lookup_replicate_2 by (rewrite length_replicate; lia).
      split; [done|]. split; [done|lia].
Qed.

(** *** reverse_sequences *)

Lemma reverse_sequences_rows (x : tensor3 F) (L : list Z) :
  Forall2 (λ row l, (0 ≤ l ≤ Z.of_nat (length row))%Z) x L →
  reverse_sequences zero x L = Ok (zip_with (reversed_row zero) x L).
Proof.
  intros Hrange. unfold reverse_sequences.
  replace (length x) with (length (zeros_like zero x))
    by (unfold zeros_like; by rewrite length_map).
  rewrite (for_each_rows _
    (λ b old, reverse (take (Z.to_nat (L !!! b)) (x !!! b))
              ++ drop (Z.to_nat (L !!! b)) old)).
  - f_equal. apply list_eq. intros b.
    rewrite list_lookup_imap, lookup_zip_with. unfold zeros_like.
    rewrite list_lookup_fmap.
    destruct (x !! b) as [row|] eqn:Hrow; simpl; [|done].
    destruct (Forall2_lookup_l _ _ _ _ _ Hrange Hrow) as (l & Hl & Hl').
    rewrite Hl. simpl. rewrite (list_lookup_total_correct _ _ _ Hl).
    by rewrite (list_lookup_total_correct _ _ _ Hrow).
  - intros st b old Hst Hinit Hold.
    unfold zeros_like in Hinit. rewrite list_lookup_fmap in Hinit.
    destruct (x !! b) as [row|] eqn:Hrow; simplify_eq/=.
    destruct (Forall2_lookup_l _ _ _ _ _ Hrange Hrow) as (l & Hl & Hl').
    rewrite (item_lookup _ _ _ Hl). simpl.
    rewrite (list_lookup_total_correct _ _ _ Hl).
    rewrite (list_lookup_total_correct _ _ _ Hrow).
    unfold arange_down. rewrite (proj2 (Z.ltb_ge l 0)) by lia. simpl.
    rewrite (item_lookup _ _ _ Hrow). simpl.
    rewrite (proj2 (index_select_Ok _ _ _)
               (take_along_reverse _ _ _
                  (take_along_seq row (Z.to_nat l) ltac:(lia)))).
    simpl. rewrite (item_lookup _ _ _ Hold). simpl.
    unfold assign_upto.
    rewrite length_reverse, !length_take, !length_map.
    rewrite decide_True by lia. simpl.
    by replace (Z.to_nat l `min` length row) with (Z.to_nat l) by lia.
Qed.

Lemma reversed_row_length (row : array2 F) (l : Z) :
  length (reversed_row zero row l) = length row.
Proof.
  unfold reversed_row.
  rewrite length_app, length_reverse, length_take, length_drop, length_map.
  lia.
Qed.

Lemma reversed_row_lookup_lt (row : array2 F) (l : Z) (t : nat) :
  (0 ≤ l ≤ Z.of_nat (length row))%Z → (Z.of_nat t < l)%Z →
  reversed_row zero row l !! t = row !! (Z.to_nat l - 1 - t).
Proof.
  intros Hl Ht. unfold reversed_row.
  rewrite lookup_app_l by (rewrite length_reverse, length_take; lia).
  rewrite reverse_lookup by (rewrite length_take; lia).
  rewrite length_take.
  replace (Z.to_nat l `min` length row) with (Z.to_nat l) by lia.
  rewrite lookup_take_lt by lia. f_equal. lia.
Qed.

Lemma reversed_row_lookup_ge (row : array2 F) (l : Z) (t : nat) :
  (0 ≤ l ≤ Z.of_nat (length row))%Z → (l ≤ Z.of_nat t)%Z →
  reversed_row zero row l !! t = map (λ _, zero) <$> row !! t.
Proof.
  intros Hl Ht. unfold reversed_row.
  rewrite lookup_app_r by (rewrite length_reverse, length_take; lia).
  rewrite length_reverse, length_take, lookup_drop, list_lookup_fmap.
  f_equal. f_equal. lia.
Qed.

Lemma zero_frame (D : nat) (fr : frame F) :
  length fr = D → map (λ _, zero) fr = replicate D zero.
Proof.
  intros <-. induction fr as [|x fr IH]; simpl; [done|]. by rewrite IH.
Qed.

(** C3.  For a padded batch of shape [(B, T, D)] and lengths with
    [0 <= L_b <= T], [reverse_sequences] returns an array of the same
    shape with [out[b,t] = seq[b, L_b-1-t]] for [t < L_b] and
    [out[b,t] = 0] for [t >= L_b]. *)
Theorem reverse_sequences_correct (x : tensor3 F) (L : list Z) (B T D : nat) :
  shape3 B T D x →
  length L = B →
  Forall (λ l, (0 ≤ l ≤ Z.of_nat T)%Z) L →
  ∃ out,
    reverse_sequences zero x L = Ok out ∧
    shape3 B T D out ∧
    ∀ b t l, L !! b = Some l → t < T →
      ((Z.of_nat t < l)%Z →
         ∃ fr, entry out b t = Some fr ∧
               entry x b (Z.to_nat l - 1 - t) = Some fr) ∧
      ((l ≤ Z.of_nat t)%Z → entry out b t = Some (replicate D zero)).
Proof.
  intros [HB Hshape] Hlen Hrange.
  rewrite Forall_lookup in Hshape. rewrite Forall_lookup in Hrange.
  assert (Hrange2 : Forall2 (λ (row : array2 F) l,
                       (0 ≤ l ≤ Z.of_nat (length row))%Z) x L).
  { apply Forall2_same_length_lookup_2; [lia|].
    intros b row l Hrow Hl.
    destruct (Hshape _ _ Hrow) as [-> _]. by apply (Hrange _ _ Hl). }
  eexists. split; [by apply reverse_sequences_rows|].
  split; [split|].
  - rewrite length_zip_with. lia.
  - apply Forall_lookup. intros b r Hr.
    apply lookup_zip_with_Some in Hr as (row & l & -> & Hrow & Hl).
    destruct (Hshape _ _ Hrow) as [HT HD]. specialize (Hrange _ _ Hl).
    split; [by rewrite reversed_row_length|].
    unfold reversed_row. apply Forall_app. split.
    + apply Forall_reverse. by apply Forall_take.
    + apply Forall_drop. apply Forall_fmap.
      eapply Forall_impl; [exact HD|]. intros fr Hfr. simpl.
      by rewrite length_map.
  - intros b t l Hl Ht.
    destruct (lookup_lt_is_Some_2 x b) as [row Hrow].
    { rewrite HB, <- Hlen. by eapply lookup_lt_Some. }
    destruct (Hshape _ _ Hrow) as [HT HD]. specialize (Hrange _ _ Hl).
    unfold entry. rewrite lookup_zip_with, Hrow, Hl. simpl. split.
    + intros Hlt. rewrite reversed_row_lookup_lt by lia.
      destruct (lookup_lt_is_Some_2 row (Z.to_nat l - 1 - t)) as [fr Hfr];
        [lia|]. by exists fr.
    + intros Hge. rewrite reversed_row_lookup_ge by lia.
      destruct (lookup_lt_is_Some_2 row t) as [fr Hfr]; [lia|].
      rewrite Hfr. simpl. f_equal. apply zero_frame.
      rewrite Forall_lookup in HD. by apply (HD _ _ Hfr).
Qed.

(** *** get_mini_batch, step by step *)

Lemma subscript_Ok {A : Type} (x : option (list A)) idx (ys : list A) :
  subscript x idx = Ok ys ↔ ∃ a, x = Some a ∧ take_along a idx = Ok ys.
Proof.
  destruct x as [a|]; simpl; split.
  - intros H. by exists a.
  - by intros (a' & [= <-] & H).
  - intros H. discriminate H.
  - by intros (a' & [=] & _).
Qed.

(** A successful call went through every step of the source. *)
Lemma get_mini_batch_inv idx seqs lens fm st y ym ids u c (mb : MiniBatch F) :
  get_mini_batch zero idx seqs lens fm st y ym ids u c = Ok mb →
  ∃ gl smi T_max gathered static ids' reversed,
    take_along lens idx = Ok gl ∧
    take_along gl (descending_order gl) = Ok (sorted_seq_lengths mb) ∧
    take_along idx (descending_order gl) = Ok smi ∧
    torch_max gl = Ok T_max ∧
    take_along seqs smi = Ok gathered ∧
    pad_sequence zero (py_upto T_max <$> gathered) = Ok (mini_batch mb) ∧
    st = Some static ∧
    take_along static smi = Ok (mini_batch_static mb) ∧
    get_mini_batch_mask (mini_batch mb) (sorted_seq_lengths mb)
      = Ok (mini_batch_mask mb) ∧
    take_optional y smi = Ok (y_mini_batch mb) ∧
    take_optional ym smi = Ok (y_mask_mini_batch mb) ∧
    feature_mask_policy zero (mini_batch mb) (sorted_seq_lengths mb) T_max
      smi fm u = Ok (mini_batch_feature_mask mb, reversed) ∧
    pack_padded_sequence reversed (sorted_seq_lengths mb)
      = Ok (mini_batch_reversed_with_mask mb) ∧
    ids = Some ids' ∧
    take_along ids' smi = Ok (source_indices mb).
Proof.
  unfold get_mini_batch. intros H.
  apply bind_Ok in H as (gl & Hgl & H).
  apply bind_Ok in H as (ssl & Hssl & H).
  apply bind_Ok in H as (smi & Hsmi & H).
  apply bind_Ok in H as (T_max & HT & H).
  apply bind_Ok in H as (gathered & Hg & H).
  apply bind_Ok in H as (mbatch & Hpad & H).
  apply bind_Ok in H as (mstatic & Hst & H).
  apply subscript_Ok in Hst as (static & -> & Hst).
  apply bind_Ok in H as (mask & Hmask & H).
  apply bind_Ok in H as (ymb & Hy & H).
  apply bind_Ok in H as (ymmb & Hym & H).
  apply bind_Ok in H as ([mfm reversed] & Hpol & H).
  apply bind_Ok in H as (packed & Hpack & H).
  apply bind_Ok in H as (source & Hsrc & H).
  apply subscript_Ok in Hsrc as (ids' & -> & Hsrc).
  assert (Hplace : ∀ A (x : A), (if c then to_cuda x else x) = x)
    by (intros; by destruct c).
  rewrite !Hplace in H. rewrite Hplace in Hpack.
  injection H as <-. simpl.
  exists gl, smi, T_max, gathered, static, ids', reversed.
  repeat split; done.
Qed.

(** Conversely, the steps of the source compose to a successful call. *)
Lemma get_mini_batch_intro idx seqs lens fm static y ym ids' u c
    gl ssl smi T_max gathered mbatch mstatic mask ymb ymmb mfm reversed
    packed source :
  take_along lens idx = Ok gl →
  take_along gl (descending_order gl) = Ok ssl →
  take_along idx (descending_order gl) = Ok smi →
  torch_max gl = Ok T_max →
  take_along seqs smi = Ok gathered →
  pad_sequence zero (py_upto T_max <$> gathered) = Ok mbatch →
  take_along static smi = Ok mstatic →
  get_mini_batch_mask mbatch ssl = Ok mask →
  take_optional y smi = Ok ymb →
  take_optional ym smi = Ok ymmb →
  feature_mask_policy zero mbatch ssl T_max smi fm u = Ok (mfm, reversed) →
  pack_padded_sequence reversed ssl = Ok packed →
  take_along ids' smi = Ok source →
  get_mini_batch zero idx seqs lens fm (Some static) y ym (Some ids') u c
    = Ok (mkMiniBatch mstatic mbatch packed mask ssl mfm ymb ymmb source).
Proof.
  intros Hgl Hssl Hsmi HT Hg Hpad Hst Hmask Hy Hym Hpol Hpack Hsrc.
  unfold get_mini_batch.
  rewrite Hgl. simpl. rewrite Hssl. simpl. rewrite Hsmi. simpl.
  rewrite HT. simpl. rewrite Hg. simpl. rewrite Hpad. simpl.
  rewrite Hst. simpl. rewrite Hmask. simpl. rewrite Hy. simpl.
  rewrite Hym. simpl. rewrite Hpol. simpl.
  assert (Hplace : ∀ A (x : A), (if c then to_cuda x else x) = x)
    by (intros; by destruct c).
  rewrite !Hplace. rewrite Hpack. simpl. rewrite Hsrc. simpl.
  done.
Qed.

(** *** The sort of get_mini_batch *)


(** *** The filter of batchify *)

Lemma take_optional_total {A : Type} (x : option (list A)) (idx : list nat) :
  from_option (λ v, Forall (λ i, i < length v) idx) True x →
  ∃ r, take_optional x idx = Ok r.
Proof.
  destruct x as [v|]; simpl; [|by exists None].
  intros [ys ->]%take_along_total. by exists (Some ys).
Qed.

Lemma batchify_keep_inv seqs lens fm st y ym max_len (kept : Kept (F := F)) :
  batchify_keep seqs lens fm st y ym max_len = Ok kept →
  keep_index kept = np_where (keep_mask lens max_len) ∧
  take_along st (keep_index kept) = Ok (kept_static kept) ∧
  take_along seqs (keep_index kept) = Ok (kept_sequences kept) ∧
  take_along lens (keep_index kept) = Ok (kept_seq_lengths kept) ∧
  take_optional fm (keep_index kept) = Ok (kept_feature_mask kept) ∧
  take_optional y (keep_index kept) = Ok (kept_y kept) ∧
  take_optional ym (keep_index kept) = Ok (kept_y_mask kept).
Proof.
  unfold batchify_keep. intros H.
  apply bind_Ok in H as (kst & Hst & H).
  apply bind_Ok in H as (kseqs & Hseqs & H).
  apply bind_Ok in H as (klens & Hlens & H).
  apply bind_Ok in H as (kfm & Hfm & H).
  apply bind_Ok in H as (ky & Hy & H).
  apply bind_Ok in H as (kym & Hym & H).
  injection H as <-. simpl. done.
Qed.

Lemma batchify_keep_Err seqs lens fm st y ym max_len e :
  batchify_keep (F := F) seqs lens fm st y ym max_len = Err e → e = IndexError.
Proof.
  unfold batchify_keep.
  destruct (take_along st _) eqn:E1; simpl;
    [|intros [= <-]; by eapply take_along_Err_Index].
  destruct (take_along seqs _) eqn:E2; simpl;
    [|intros [= <-]; by eapply take_along_Err_Index].
  destruct (take_along lens _) eqn:E3; simpl;
    [|intros [= <-]; by eapply take_along_Err_Index].
  destruct (take_optional fm _) eqn:E4; simpl;
    [|intros [= <-]; by eapply take_optional_Err_Index].
  destruct (take_optional y _) eqn:E5; simpl;
    [|intros [= <-]; by eapply take_optional_Err_Index].
  destruct (take_optional ym _) eqn:E6; simpl;
    [|intros [= <-]; by eapply take_optional_Err_Index].
  done.
Qed.

Lemma batchify_keep_total seqs lens fm st y ym (max_len : Z) :
  leading_dims_cover (F := F) seqs lens fm st y ym →
  ∃ kept, batchify_keep seqs lens fm st y ym max_len = Ok kept.
Proof.
  intros (Hseqs & Hst & Hfm & Hy & Hym).
  set (keep := np_where (keep_mask lens max_len)).
  assert (Hkeep := keep_index_lt lens max_len). fold keep in Hkeep.
  assert (Hin : ∀ n, length lens ≤ n → Forall (λ i, i < n) keep).
  { intros n Hn. eapply Forall_impl; [exact Hkeep|]. simpl. lia. }
  destruct (take_along_total st keep (Hin _ Hst)) as [kst Hkst].
  destruct (take_along_total seqs keep (Hin _ Hseqs)) as [kseqs Hkseqs].
  destruct (take_along_total lens keep Hkeep) as [klens Hklens].
  destruct (take_optional_total fm keep) as [kfm Hkfm].
  { destruct fm; simpl in *; [by apply Hin|done]. }
  destruct (take_optional_total y keep) as [ky Hky].
  { destruct y; simpl in *; [by apply Hin|done]. }
  destruct (take_optional_total ym keep) as [kym Hkym].
  { destruct ym; simpl in *; [by apply Hin|done]. }
  exists (mkKept keep kst kseqs klens kfm ky kym).
  unfold batchify_keep. fold keep.
  rewrite Hkst. simpl. rewrite Hkseqs. simpl. rewrite Hklens. simpl.
  rewrite Hkfm. simpl. rewrite Hky. simpl. rewrite Hkym. done.
Qed.



(** *** Channel counts *)

Lemma py_upto_Forall {A : Type} (P : A → Prop) (k : Z) (x : list A) :
  Forall P x → Forall P (py_upto k x).
Proof. intros H. unfold py_upto. case_match; by apply Forall_take. Qed.

Lemma assign_upto_Forall {A : Type} (P : A → Prop) dst T src (new : list A) :
  Forall P dst → Forall P src → assign_upto dst T src = Ok new → Forall P new.
Proof.
  intros Hd Hs. unfold assign_upto. case_decide.
  - intros [= <-]. apply Forall_app. split; [done|by apply Forall_drop].
  - destruct src as [|v [|? ?]]; [done| |done]. intros [= <-].
    apply Forall_app. split; [|by apply Forall_drop].
    apply Forall_replicate. by apply Forall_cons in Hs as [? _].
Qed.

Lemma reverse_sequences_channels (D : nat) (x : tensor3 F) L out :
  channels D x → reverse_sequences zero x L = Ok out → channels D out.
Proof.
  intros Hx. unfold reverse_sequences.
  apply for_each_inv; clear out.
  - unfold channels, zeros_like. apply Forall_fmap.
    eapply Forall_impl; [exact Hx|]. intros row Hrow. simpl.
    apply Forall_fmap. eapply Forall_impl; [exact Hrow|]. intros fr Hfr.
    simpl. by rewrite length_map.
  - intros st b st' _ Hst H.
    apply bind_Ok in H as (T & _ & H).
    apply bind_Ok in H as (slice & _ & H).
    apply bind_Ok in H as (row & Hrow%item_Ok & H).
    apply bind_Ok in H as (rev & Hrev%index_select_Ok & H).
    apply bind_Ok in H as (old & Hold%item_Ok & H).
    apply bind_Ok in H as (new & Hnew & [= <-]).
    unfold channels in *. apply Forall_insert; [done|].
    eapply assign_upto_Forall; [| |exact Hnew].
    + rewrite Forall_lookup in Hst. by eapply Hst.
    + eapply take_along_Forall; [|exact Hrev].
      rewrite Forall_lookup in Hx. by eapply Hx.
Qed.

Lemma copy_channels_same (D : nat) (s : array2 F) :
  Forall (λ fr, length fr = D) s → copy_channels D s = Ok s.
Proof. intros Hs. unfold copy_channels. by rewrite decide_True. Qed.

Lemma copy_channels_Ok (D : nat) (s copied : array2 F) :
  copy_channels D s = Ok copied →
  length copied = length s ∧ Forall (λ fr, length fr = D) copied.
Proof.
  unfold copy_channels. case_decide as H1; [by intros [= <-]|].
  case_decide as H2; [|done]. intros [= <-].
  split; [by rewrite length_fmap|].
  apply Forall_fmap. eapply Forall_impl; [exact H2|].
  intros fr Hfr. simpl. destruct fr as [|v [|? ?]]; simplify_eq/=.
  by rewrite app_nil_r, length_replicate.
Qed.

(** A successful call copied every sequence into its row. *)
Lemma pad_sequence_inv (seqs : list (array2 F)) (t : tensor3 F) :
  pad_sequence zero seqs = Ok t →
  seqs ≠ [] ∧
  Forall2
    (λ s row, ∃ copied,
       copy_channels (trailing_dim seqs) s = Ok copied ∧
       row = copied ++ replicate (max_list (length <$> seqs) - length s)
                         (replicate (trailing_dim seqs) zero))
    seqs t.
Proof.
  unfold pad_sequence. destruct seqs as [|s0 seqs]; [done|].
  intros Hall%map_result_Ok. split; [done|].
  eapply Forall2_impl; [exact Hall|]. intros s row Hrow. simpl in Hrow.
  apply bind_Ok in Hrow as (copied & Hc & [= <-]). by exists copied.
Qed.

Lemma pad_sequence_length (seqs : list (array2 F)) t :
  pad_sequence zero seqs = Ok t → length t = length seqs.
Proof.
  intros (_ & Hall)%pad_sequence_inv. symmetry. by eapply Forall2_length.
Qed.

(** Whatever the sequences, every frame of the output has the trailing
    dimension of the batch. *)
Lemma pad_sequence_out_channels (seqs : list (array2 F)) t :
  pad_sequence zero seqs = Ok t → channels (trailing_dim seqs) t.
Proof.
  intros (_ & Hall)%pad_sequence_inv. unfold channels.
  apply Forall_lookup. intros b row Hrow.
  destruct (Forall2_lookup_r _ _ _ _ _ Hall Hrow)
    as (s & Hs & copied & Hcopy & ->).
  apply Forall_app. split; [by apply copy_channels_Ok in Hcopy as [_ ?]|].
  apply Forall_replicate. by rewrite length_replicate.
Qed.

Lemma trailing_dim_channels (D : nat) (seqs : list (array2 F)) :
  channels D seqs → mjoin seqs ≠ [] → trailing_dim seqs = D.
Proof.
  intros Hc Hne. unfold trailing_dim.
  destruct (mjoin seqs) as [|fr frs] eqn:E; [done|].
  assert (Hin : fr ∈ mjoin seqs) by (rewrite E; by left).
  apply list_elem_of_join in Hin as (s & Hfr & Hs).
  unfold channels in Hc. rewrite Forall_forall in Hc.
  specialize (Hc s Hs). rewrite Forall_forall in Hc. by apply Hc.
Qed.

(** Sequences that agree on their channel count are copied as they are. *)
Lemma copy_channels_batch (D : nat) (seqs : list (array2 F)) (s : array2 F) :
  channels D seqs → s ∈ seqs → copy_channels (trailing_dim seqs) s = Ok s.
Proof.
  intros Hc Hs. apply copy_channels_same.
  destruct s as [|fr s']; [constructor|].
  rewrite (trailing_dim_channels D); [|done|].
  - unfold channels in Hc. rewrite Forall_forall in Hc. by apply Hc.
  - intros Hnil%join_nil_1. rewrite Forall_forall in Hnil.
    by specialize (Hnil _ Hs).
Qed.

Lemma pad_sequence_Ok (D : nat) (seqs : list (array2 F)) (t : tensor3 F) :
  channels D seqs → pad_sequence zero seqs = Ok t →
  seqs ≠ [] ∧
  t = (λ s, s ++ replicate (max_list (length <$> seqs) - length s)
                    (replicate (trailing_dim seqs) zero)) <$> seqs.
Proof.
  intros Hc (Hne & Hall)%pad_sequence_inv. split; [done|].
  apply list_eq. intros b. rewrite list_lookup_fmap.
  destruct (seqs !! b) as [s|] eqn:Hs; simpl.
  - destruct (Forall2_lookup_l _ _ _ _ _ Hall Hs)
      as (row & Hrow & copied & Hcopy & ->).
    rewrite Hrow. do 2 f_equal.
    rewrite (copy_channels_batch D) in Hcopy;
      [by injection Hcopy|done|by eapply list_elem_of_lookup_2].
  - apply lookup_ge_None in Hs. apply lookup_ge_None.
    by rewrite <- (Forall2_length _ _ _ Hall).
Qed.

Lemma pad_sequence_channels (D : nat) (seqs : list (array2 F)) t :
  channels D seqs → pad_sequence zero seqs = Ok t → channels D t.
Proof.
  intros Hc Ht. destruct (pad_sequence_Ok D _ _ Hc Ht) as (Hne & ->).
  clear Ht. unfold channels in *. apply Forall_fmap.
  apply Forall_forall. intros s Hs. simpl.
  apply Forall_app. split; [rewrite Forall_forall in Hc; by apply Hc|].
  destruct (decide (max_list (length <$> seqs) - length s = 0)) as [->|Hpad].
  { constructor. }
  apply Forall_replicate. rewrite length_replicate.
  apply trailing_dim_channels; [done|].
  (* some sequence is longer than [s], hence holds a frame *)
  intros Hnil%join_nil_1. contradict Hpad.
  assert (max_list (length <$> seqs) = 0) as ->; [|done].
  clear Hc Hne Hs. induction Hnil as [|s' seqs -> _ IH]; [done|].
  rewrite fmap_cons. simpl. exact IH.
Qed.

Lemma cat_last_channels (D1 D2 : nat) (x y z : tensor3 F) :
  channels D1 x → channels D2 y → cat_last x y = Ok z → channels (D1 + D2) z.
Proof.
  intros Hx Hy. unfold cat_last. case_decide; [|done]. intros [= <-].
  unfold channels in *. apply Forall_lookup. intros b row Hrow.
  apply lookup_zip_with_Some in Hrow as (rx & ry & -> & Hrx & Hry).
  rewrite Forall_lookup in Hx. rewrite Forall_lookup in Hy.
  specialize (Hx _ _ Hrx). specialize (Hy _ _ Hry).
  apply Forall_lookup. intros t fr Hfr.
  apply lookup_zip_with_Some in Hfr as (fx & fy & -> & Hfx & Hfy).
  rewrite Forall_lookup in Hx. rewrite Forall_lookup in Hy.
  rewrite length_app. by rewrite (Hx _ _ Hfx), (Hy _ _ Hfy).
Qed.

Lemma pack_padded_sequence_Ok (x : tensor3 F) (L : list Z) p :
  pack_padded_sequence x L = Ok p →
  numel x ≠ 0 ∧ length L = length x ∧
  Forall (λ l, (0 < l)%Z) L ∧ Sorted (λ a b, (b ≤ a)%Z) L ∧
  p = {| data := t ← seq 0 (Z.to_nat (default 0%Z (head L)));
                 b ← seq 0 (alive L t);
                 option_list (x !! b ≫= (.!! t));
         batch_sizes := alive L <$> seq 0 (Z.to_nat (default 0%Z (head L))) |}.
Proof.
  unfold pack_padded_sequence.
  case_decide as H1; [done|]. case_decide as H2; [done|].
  case_decide as H3; [|done]. intros [= <-].
  destruct H3. repeat split; (done || lia || by apply dec_stable).
Qed.

Lemma pack_padded_sequence_channels (D : nat) (x : tensor3 F) L p :
  channels D x → pack_padded_sequence x L = Ok p →
  Forall (λ fr, length fr = D) (data p).
Proof.
  intros Hx (_ & _ & _ & _ & ->)%pack_padded_sequence_Ok. simpl.
  apply Forall_forall. intros fr Hfr.
  apply list_elem_of_bind in Hfr as (t & Hfr & _).
  apply list_elem_of_bind in Hfr as (b & Hfr & _).
  destruct (x !! b) as [row|] eqn:Hrow; simpl in Hfr;
    [|by apply elem_of_nil in Hfr].
  destruct (row !! t) as [fr'|] eqn:Hfr'; simpl in Hfr;
    [|by apply elem_of_nil in Hfr].
  apply list_elem_of_singleton in Hfr as ->.
  unfold channels in Hx. rewrite Forall_lookup in Hx.
  specialize (Hx _ _ Hrow). rewrite Forall_lookup in Hx. by eapply Hx.
Qed.

(** *** The feature-mask policies *)

Lemma feature_mask_policy_inv mbatch ssl T_max smi fm u
    (mfm : option (tensor3 F)) reversed :
  feature_mask_policy zero mbatch ssl T_max smi fm u = Ok (mfm, reversed) →
  match fm with
  | None => mfm = None ∧ reverse_sequences zero mbatch ssl = Ok reversed
  | Some feature_mask =>
      ∃ gathered padded,
        take_along feature_mask smi = Ok gathered ∧
        pad_sequence zero (py_upto T_max <$> gathered) = Ok padded ∧
        mfm = Some padded ∧
        if u
        then ∃ fused, cat_last mbatch padded = Ok fused ∧
                      reverse_sequences zero fused ssl = Ok reversed
        else reverse_sequences zero mbatch ssl = Ok reversed
  end.
Proof.
  unfold feature_mask_policy. destruct fm as [feature_mask|].
  - destruct u; simpl; intros H.
    + apply bind_Ok in H as (gathered & Hg & H).
      apply bind_Ok in H as (padded & Hp & H).
      apply bind_Ok in H as (fused & Hf & H).
      apply bind_Ok in H as (rev & Hr & [= <- <-]).
      exists gathered, padded. repeat split; [done..|]. by exists fused.
    + apply bind_Ok in H as (gathered & Hg & H).
      apply bind_Ok in H as (padded & Hp & H).
      apply bind_Ok in H as (rev & Hr & [= <- <-]).
      by exists gathered, padded.
  - intros H. by apply bind_Ok in H as (rev & Hr & [= <- <-]).
Qed.

Lemma gathered_channels (D : nat) (a : list (array2 F)) idx gathered T_max t :
  channels D a → take_along a idx = Ok gathered →
  pad_sequence zero (py_upto T_max <$> gathered) = Ok t → channels D t.
Proof.
  intros Ha Hg Hp. eapply pad_sequence_channels; [|exact Hp].
  unfold channels. apply Forall_fmap.
  eapply Forall_impl; [by eapply take_along_Forall|].
  intros s Hs. simpl. by apply py_upto_Forall.
Qed.

(** C8.  With a feature mask and [use_feature_mask=True] the batch handed
    to packing is the reversal of the channel-concatenation of the padded
    sequence followed by the padded feature mask, and carries
    [2*input_dim] channels; with a feature mask and
    [use_feature_mask=False] only the plain sequence ([input_dim]
    channels) is reversed and packed while the dense sorted padded
    feature mask is still returned; without a feature mask the plain
    sequence alone is reversed and packed. *)
Theorem get_mini_batch_fusion idx seqs lens fm st y ym ids u c
    (mb : MiniBatch F) :
  get_mini_batch zero idx seqs lens fm st y ym ids u c = Ok mb →
  ∃ reversed,
    pack_padded_sequence reversed (sorted_seq_lengths mb)
      = Ok (mini_batch_reversed_with_mask mb) ∧
    match fm with
    | Some feature_mask =>
        ∃ padded smi T_max gs gm,
          mini_batch_feature_mask mb = Some padded ∧
          take_along seqs smi = Ok gs ∧
          pad_sequence zero (py_upto T_max <$> gs) = Ok (mini_batch mb) ∧
          take_along feature_mask smi = Ok gm ∧
          pad_sequence zero (py_upto T_max <$> gm) = Ok padded ∧
          if u
          then cat_last (mini_batch mb) padded
                 = Ok (zip_with (zip_with app) (mini_batch mb) padded) ∧
               reverse_sequences zero
                 (zip_with (zip_with app) (mini_batch mb) padded)
                 (sorted_seq_lengths mb) = Ok reversed
          else reverse_sequences zero (mini_batch mb) (sorted_seq_lengths mb)
                 = Ok reversed
    | None =>
        mini_batch_feature_mask mb = None ∧
        reverse_sequences zero (mini_batch mb) (sorted_seq_lengths mb)
          = Ok reversed
    end ∧
    ∀ input_dim,
      channels input_dim seqs →
      from_option (channels input_dim) True fm →
      Forall (λ fr, length fr = if u && bool_decide (is_Some fm)
                                then 2 * input_dim else input_dim)
        (data (mini_batch_reversed_with_mask mb)).
Proof.
  intros Hmb.
  apply get_mini_batch_inv in Hmb
    as (gl & smi & T_max & gathered & static & ids' & reversed & _ & _
        & _ & _ & Hg & Hpad & _ & _ & _ & _ & _ & Hpol & Hpack & _ & _).
  exists reversed. split; [done|].
  apply feature_mask_policy_inv in Hpol.
  destruct fm as [feature_mask|].
  - destruct Hpol as (gm & padded & Hgm & Hpm & Hmfm & Hrev). split.
    + exists padded, smi, T_max, gathered, gm. repeat split; [done..|].
      destruct u; [|done]. destruct Hrev as (fused & Hcat & Hrev).
      assert (fused = zip_with (zip_with app) (mini_batch mb) padded) as ->.
      { unfold cat_last in Hcat. case_decide; by simplify_eq. }
      done.
    + intros D Hseqs Hfm. simpl in Hfm.
      assert (Hc1 : channels D (mini_batch mb))
        by exact (gathered_channels D _ _ _ _ _ Hseqs Hg Hpad).
      assert (Hc2 : channels D padded)
        by exact (gathered_channels D _ _ _ _ _ Hfm Hgm Hpm).
      rewrite bool_decide_eq_true_2 by done. rewrite andb_true_r.
      destruct u.
      * destruct Hrev as (fused & Hcat & Hrev).
        eapply pack_padded_sequence_channels; [|exact Hpack].
        eapply reverse_sequences_channels; [|exact Hrev].
        replace (2 * D) with (D + D) by lia.
        exact (cat_last_channels D D _ _ _ Hc1 Hc2 Hcat).
      * eapply pack_padded_sequence_channels; [|exact Hpack].
        exact (reverse_sequences_channels D _ _ _ Hc1 Hrev).
  - destruct Hpol as [Hmfm Hrev]. split; [done|].
    intros D Hseqs _.
    assert (Hc1 : channels D (mini_batch mb))
      by exact (gathered_channels D _ _ _ _ _ Hseqs Hg Hpad).
    rewrite andb_false_r.
    eapply pack_padded_sequence_channels; [|exact Hpack].
    exact (reverse_sequences_channels D _ _ _ Hc1 Hrev).
Qed.

(** *** get_mini_batch succeeds on well-formed rows *)

Lemma pad_sequence_total (D : nat) (seqs : list (array2 F)) :
  seqs ≠ [] → channels D seqs → ∃ t, pad_sequence zero seqs = Ok t.
Proof.
  intros Hne Hc.
  assert (Hall : ∃ t, map_result
            (λ s, copied ← copy_channels (trailing_dim seqs) s;
                  Ok (copied ++ replicate (max_list (length <$> seqs) - length s)
                                  (replicate (trailing_dim seqs) zero)))
            seqs = Ok t).
  { apply map_result_exists, Forall_forall. intros s Hs.
    rewrite (copy_channels_batch D) by done. simpl. by eexists. }
  unfold pad_sequence. by destruct seqs.
Qed.

Lemma pad_sequence_row_length (seqs : list (array2 F)) t :
  pad_sequence zero seqs = Ok t →
  Forall (λ row, length row = max_list (length <$> seqs)) t.
Proof.
  intros (_ & Hall)%pad_sequence_inv. apply Forall_lookup. intros b row Hrow.
  destruct (Forall2_lookup_r _ _ _ _ _ Hall Hrow)
    as (s & Hs & copied & Hcopy & ->).
  apply copy_channels_Ok in Hcopy as [Hlen _].
  rewrite length_app, length_replicate, Hlen.
  assert (length s ≤ max_list (length <$> seqs)); [|lia].
  apply max_list_elem_of_le. apply list_elem_of_fmap. exists s.
  split; [done|]. by eapply list_elem_of_lookup_2.
Qed.

Lemma py_upto_length {A : Type} (T : Z) (x : list A) :
  (0 ≤ T)%Z → length (py_upto T x) = Z.to_nat T `min` length x.
Proof.
  intros HT. unfold py_upto. rewrite (proj2 (Z.ltb_ge T 0)) by lia.
  by rewrite length_take.
Qed.

Lemma max_list_py_upto (T : Z) (gathered : list (array2 F)) (s : array2 F) :
  (0 ≤ T)%Z → s ∈ gathered → (T ≤ Z.of_nat (length s))%Z →
  max_list (length <$> (py_upto T <$> gathered)) = Z.to_nat T.
Proof.
  intros HT Hs Hlen. apply Nat.le_antisymm.
  - apply max_list_le. apply Forall_fmap, Forall_fmap, Forall_forall.
    intros s' _. simpl. rewrite py_upto_length by done. lia.
  - apply max_list_elem_of_le. apply list_elem_of_fmap.
    exists (py_upto T s). split.
    + rewrite py_upto_length by done. lia.
    + apply list_elem_of_fmap. by exists s.
Qed.

Lemma numel_pos (x : tensor3 F) (row : array2 F) (fr : frame F) :
  row ∈ x → fr ∈ row → 0 < length fr → numel x ≠ 0.
Proof.
  intros Hrow Hfr Hlen. unfold numel.
  pose proof (sum_list_with_in _ (sum_list_with length) _ Hrow) as H1.
  pose proof (sum_list_with_in _ length _ Hfr) as H2. lia.
Qed.

Lemma cat_last_total (x y : tensor3 F) (T : nat) :
  length x = length y →
  Forall (λ row, length row = T) x → Forall (λ row, length row = T) y →
  cat_last x y = Ok (zip_with (zip_with app) x y) ∧
  Forall (λ row, length row = T) (zip_with (zip_with app) x y).
Proof.
  intros Hlen Hx Hy. split.
  - unfold cat_last. rewrite decide_True; [done|].
    apply list_eq. intros b. rewrite !list_lookup_fmap.
    destruct (x !! b) as [rx|] eqn:Ex, (y !! b) as [ry|] eqn:Ey; simpl.
    + rewrite Forall_lookup in Hx. rewrite Forall_lookup in Hy.
      by rewrite (Hx _ _ Ex), (Hy _ _ Ey).
    + apply lookup_lt_Some in Ex. apply lookup_ge_None in Ey. lia.
    + apply lookup_lt_Some in Ey. apply lookup_ge_None in Ex. lia.
    + done.
  - apply Forall_lookup. intros b row Hrow.
    apply lookup_zip_with_Some in Hrow as (rx & ry & -> & Hrx & Hry).
    rewrite Forall_lookup in Hx. rewrite Forall_lookup in Hy.
    rewrite length_zip_with, (Hx _ _ Hrx), (Hy _ _ Hry). lia.
Qed.

(** The reversed batch of a well-formed batch can be packed. *)
Lemma pack_reversed_total (D T : nat) (x : tensor3 F) (L : list Z) :
  0 < D → channels D x → Forall (λ row, length row = T) x →
  L ≠ [] → length L = length x →
  Forall (λ l, (0 < l ≤ Z.of_nat T)%Z) L →
  StronglySorted (λ a b, (b ≤ a)%Z) L →
  ∃ reversed p,
    reverse_sequences zero x L = Ok reversed ∧
    pack_padded_sequence reversed L = Ok p.
Proof.
  intros HD Hc HT Hne Hlen Hrange Hsorted.
  assert (Hrange2 : Forall2 (λ (row : array2 F) l,
                       (0 ≤ l ≤ Z.of_nat (length row))%Z) x L).
  { apply Forall2_same_length_lookup_2; [lia|].
    intros b row l Hrow Hl.
    rewrite Forall_lookup in HT. rewrite (HT _ _ Hrow).
    rewrite Forall_lookup in Hrange. specialize (Hrange _ _ Hl). lia. }
  pose proof (reverse_sequences_rows x L Hrange2) as Hrev.
  eexists. eexists. split; [exact Hrev|].
  pose proof (reverse_sequences_channels D _ _ _ Hc Hrev) as Hc'.
  unfold pack_padded_sequence.
  destruct L as [|l0 L]; [done|]. destruct x as [|row0 x]; [done|].
  apply Forall_cons in Hrange as [Hl0 Hrange].
  apply Forall_cons in HT as [HT0 HT].
  rewrite decide_False; last first.
  { simpl zip_with in *. apply Forall_cons in Hc' as [Hc0 _].
    destruct (lookup_lt_is_Some_2 (reversed_row zero row0 l0) 0) as [fr Hfr].
    { rewrite reversed_row_length. lia. }
    eapply (numel_pos _ (reversed_row zero row0 l0) fr); [by left| |].
    - by eapply list_elem_of_lookup_2.
    - rewrite Forall_lookup in Hc0. rewrite (Hc0 _ _ Hfr). lia. }
  rewrite decide_False by (rewrite length_zip_with; simpl in *; lia).
  rewrite decide_True; [done|]. split.
  - constructor; [lia|]. eapply Forall_impl; [exact Hrange|]. simpl. lia.
  - by apply Sorted.StronglySorted_Sorted.
Qed.

Lemma gather_pad_total (D : nat) (a : list (array2 F)) (smi : list nat)
    (T_max : Z) (i : nat) (s : array2 F) :
  channels D a → Forall (λ i, i < length a) smi → (0 ≤ T_max)%Z →
  i ∈ smi → a !! i = Some s → (T_max ≤ Z.of_nat (length s))%Z →
  ∃ gathered t,
    take_along a smi = Ok gathered ∧
    pad_sequence zero (py_upto T_max <$> gathered) = Ok t ∧
    length t = length smi ∧
    Forall (λ row, length row = Z.to_nat T_max) t ∧
    channels D t.
Proof.
  intros Hc Hin HT Hi Hs Hlen.
  destruct (take_along_total a smi Hin) as [gathered Hg].
  assert (Hlg := take_along_length _ _ _ Hg).
  assert (Hsg : s ∈ gathered).
  { apply list_elem_of_lookup in Hi as [k Hk].
    apply (list_elem_of_lookup_2 _ k).
    by rewrite (take_along_lookup _ _ _ _ _ Hg Hk). }
  assert (Hcg : channels D (py_upto T_max <$> gathered)).
  { unfold channels. apply Forall_fmap.
    eapply Forall_impl; [by eapply take_along_Forall|].
    intros s' Hs'. simpl. by apply py_upto_Forall. }
  destruct (pad_sequence_total D (py_upto T_max <$> gathered)) as [t Ht];
    [|done|].
  { destruct gathered; [by apply elem_of_nil in Hsg|done]. }
  exists gathered, t. split; [done|]. split; [done|].
  split; [|split].
  - by rewrite (pad_sequence_length _ _ Ht), length_fmap.
  - rewrite <- (max_list_py_upto T_max gathered s) by done.
    by apply pad_sequence_row_length.
  - by eapply pad_sequence_channels.
Qed.

Lemma feature_mask_policy_total (D : nat) mbatch ssl T_max smi fm u
    (i : nat) :
  0 < D → channels D mbatch →
  Forall (λ row, length row = Z.to_nat T_max) mbatch →
  length mbatch = length smi →
  ssl ≠ [] → length ssl = length mbatch →
  Forall (λ l, (0 < l ≤ T_max)%Z) ssl →
  StronglySorted (λ a b, (b ≤ a)%Z) ssl →
  i ∈ smi →
  from_option
    (λ m, channels D m ∧ Forall (λ i, i < length m) smi ∧
          ∃ s, m !! i = Some s ∧ (T_max ≤ Z.of_nat (length s))%Z) True fm →
  ∃ mfm reversed p,
    feature_mask_policy zero mbatch ssl T_max smi fm u = Ok (mfm, reversed) ∧
    pack_padded_sequence reversed ssl = Ok p.
Proof.
  intros HD Hc HT Hlen Hne Hlssl Hrange Hsorted Hi Hfm.
  assert (Hrange' : Forall (λ l, (0 < l ≤ Z.of_nat (Z.to_nat T_max))%Z) ssl).
  { eapply Forall_impl; [exact Hrange|]. simpl. lia. }
  assert (HTpos : (0 ≤ T_max)%Z).
  { destruct ssl as [|l ssl]; [done|].
    apply Forall_cons in Hrange as [? _]. lia. }
  unfold feature_mask_policy. destruct fm as [m|]; simpl in Hfm.
  - destruct Hfm as (Hcm & Hin & s & Hs & Hls).
    destruct (gather_pad_total D m smi T_max i s Hcm Hin HTpos Hi Hs Hls)
      as (gm & padded & Hgm & Hpm & Hlp & HTp & Hcp).
    rewrite Hgm. simpl. rewrite Hpm. simpl. destruct u; simpl.
    + destruct (cat_last_total mbatch padded (Z.to_nat T_max)) as [Hcat HTf];
        [lia|done..|].
      rewrite Hcat. simpl.
      destruct (pack_reversed_total (D + D) (Z.to_nat T_max)
                  (zip_with (zip_with app) mbatch padded) ssl)
        as (reversed & p & Hrev & Hp); [lia| |done|done| |done|done|].
      * exact (cat_last_channels D D _ _ _ Hc Hcp Hcat).
      * rewrite length_zip_with. lia.
      * rewrite Hrev. simpl. by eexists _, _, _.
    + destruct (pack_reversed_total D (Z.to_nat T_max) mbatch ssl)
        as (reversed & p & Hrev & Hp); [done..|].
      rewrite Hrev. simpl. by eexists _, _, _.
  - destruct (pack_reversed_total D (Z.to_nat T_max) mbatch ssl)
      as (reversed & p & Hrev & Hp); [done..|].
    rewrite Hrev. simpl. by eexists _, _, _.
Qed.

(** On rows that are ready, [get_mini_batch] raises no exception. *)
Lemma get_mini_batch_total (D : nat) idx seqs lens fm static y ym ids u c :
  batch_ready D idx seqs lens fm static y ym ids →
  ∃ mb, get_mini_batch zero idx seqs lens fm (Some static) y ym (Some ids) u c
        = Ok mb.
Proof.
  intros (Hne & HD & Hc & Hrows & Hst & Hfm & Hy & Hym).
  (* the gathered lengths *)
  destruct (take_along_total lens idx) as [gl Hgl].
  { apply Forall_forall. intros i (l & s & Hl & _)%Hrows.
    by eapply lookup_lt_Some. }
  assert (Hlgl := take_along_length _ _ _ Hgl).
  assert (Hglne : gl ≠ []) by (destruct gl, idx; done).
  assert (Hglrows : ∀ l, l ∈ gl → ∃ i s, i ∈ idx ∧ lens !! i = Some l ∧
            seqs !! i = Some s ∧ (0 < l ≤ Z.of_nat (length s))%Z).
  { intros l (i & Hi & Hl)%(take_along_elem_of _ _ _ _ Hgl).
    destruct (Hrows i Hi) as (l' & s & Hl' & Hs & Hls).
    exists i, s. by simplify_eq. }
  (* the sort *)
  pose proof (descending_order_perm gl) as Hperm.
  assert (Hpin : Forall (λ k, k < length gl) (descending_order gl)).
  { apply Forall_forall. intros k Hk. rewrite Hperm in Hk.
    apply elem_of_seq in Hk. lia. }
  destruct (take_along_total gl _ Hpin) as [ssl Hssl].
  destruct (take_along_total idx (descending_order gl)) as [smi Hsmi];
    [by rewrite <- Hlgl|].
  pose proof (take_along_permutation _ _ _ Hperm Hssl) as Hsslp.
  assert (Hsmip : smi ≡ₚ idx).
  { eapply take_along_permutation; [|exact Hsmi]. by rewrite <- Hlgl. }
  (* the longest sequence *)
  destruct (torch_max_Ok gl Hglne) as (T_max & HT & HTin & HTmax).
  destruct (Hglrows _ HTin) as (i0 & s0 & Hi0 & Hl0 & Hs0 & Hls0).
  assert (Hi0' : i0 ∈ smi) by by rewrite Hsmip.
  (* the padded batch *)
  destruct (gather_pad_total D seqs smi T_max i0 s0)
    as (gathered & mbatch & Hg & Hpad & Hlmb & HTmb & Hcmb);
    [done| |lia|done|done|lia|].
  { apply Forall_forall. intros i Hi. rewrite Hsmip in Hi.
    destruct (Hrows i Hi) as (l & s & _ & Hs & _). by eapply lookup_lt_Some. }
  assert (Hsmirange : ∀ n, Forall (λ i, i < n) idx → Forall (λ i, i < n) smi).
  { intros n Hn. by rewrite Hsmip. }
  destruct (take_along_total static smi) as [mstatic Hmst].
  { apply Hsmirange. eapply Forall_impl; [exact Hst|]. simpl. lia. }
  (* lengths of the batch *)
  assert (Hlssl : length ssl = length mbatch).
  { rewrite (take_along_length _ _ _ Hssl), descending_order_length.
    rewrite Hlmb, (take_along_length _ _ _ Hsmi), descending_order_length.
    done. }
  assert (Hsslrange : Forall (λ l, (0 < l ≤ T_max)%Z) ssl).
  { rewrite Hsslp. apply Forall_forall. intros l Hl.
    destruct (Hglrows _ Hl) as (i & s & _ & _ & _ & Hls).
    rewrite Forall_forall in HTmax. specialize (HTmax _ Hl). lia. }
  assert (Hmask : ∃ mask, get_mini_batch_mask mbatch ssl = Ok mask).
  { eexists. apply get_mini_batch_mask_rows; [done|].
    apply Forall2_same_length_lookup_2; [lia|].
    intros b row l Hrow Hl.
    rewrite Forall_lookup in HTmb. rewrite (HTmb _ _ Hrow).
    rewrite Forall_lookup in Hsslrange. specialize (Hsslrange _ _ Hl). lia. }
  destruct Hmask as [mask Hmask].
  destruct (take_optional_total y smi) as [ymb Hymb].
  { destruct y; simpl in *; [by apply Hsmirange|done]. }
  destruct (take_optional_total ym smi) as [ymmb Hymmb].
  { destruct ym; simpl in *; [by apply Hsmirange|done]. }
  assert (Hpol : ∃ mfm reversed packed,
            feature_mask_policy zero mbatch ssl T_max smi fm u
              = Ok (mfm, reversed) ∧
            pack_padded_sequence reversed ssl = Ok packed).
  { apply (feature_mask_policy_total D mbatch ssl T_max smi fm u i0);
      try done.
    - intros ->. destruct mbatch; [|done]. destruct smi; [|done].
      apply Permutation_nil_l in Hsmip. done.
    - by eapply descending_order_sorted.
    - destruct fm as [m|]; simpl in *; [|done]. destruct Hfm as [Hcm Hm].
      split; [done|]. split.
      + apply Forall_forall. intros i Hi. rewrite Hsmip in Hi.
        destruct (Hrows i Hi) as (l & s & Hl & _).
        destruct (Hm i l Hi Hl) as (s' & Hs' & _). by eapply lookup_lt_Some.
      + destruct (Hm i0 T_max Hi0 Hl0) as (s' & Hs' & Hls'). by exists s'. }
  destruct Hpol as (mfm & reversed & packed & Hpol & Hpack).
  destruct (take_along_total ids smi) as [source Hsrc].
  { apply Hsmirange. eapply Forall_impl; [exact Hst|]. simpl. lia. }
  eexists. by eapply get_mini_batch_intro.
Qed.

(** *** The partition of batchify *)

Lemma batchify_batches_Ok (kept : Kept (F := F)) batch_size u c batches :
  batchify_batches zero kept batch_size u c = Ok batches ↔
  ∃ n,
    N_mini_batches (Z.of_nat (length (kept_seq_lengths kept))) batch_size
      = Ok n ∧
    Forall2
      (λ which mb,
         get_mini_batch zero
           (py_slice (seq 0 (length (kept_seq_lengths kept)))
              (which * batch_size)
              (Z.min ((which + 1) * batch_size)
                 (Z.of_nat (length (kept_seq_lengths kept)))))
           (kept_sequences kept) (kept_seq_lengths kept)
           (kept_feature_mask kept) (Some (kept_static kept))
           (kept_y kept) (kept_y_mask kept) (Some (keep_index kept)) u c
         = Ok mb)
      (py_range n) batches.
Proof.
  unfold batchify_batches. rewrite bind_Ok.
  split; intros (n & Hn & H); exists n; (split; [done|]).
  - rewrite (for_each_append
      (λ which, get_mini_batch zero _ _ _ _ _ _ _ _ u c)) in H.
    apply bind_Ok in H as (ys & Hys & [= <-]). by apply map_result_Ok.
  - rewrite (for_each_append
      (λ which, get_mini_batch zero _ _ _ _ _ _ _ _ u c)).
    apply map_result_Ok in H. by rewrite H.
Qed.

(** *** Rows of a mini-batch *)

Lemma pad_gather_length (a : list (array2 F)) smi gathered T_max t :
  take_along a smi = Ok gathered →
  pad_sequence zero (py_upto T_max <$> gathered) = Ok t →
  length t = length smi.
Proof.
  intros Hg Hpad.
  by rewrite (pad_sequence_length _ _ Hpad), length_fmap,
    (take_along_length _ _ _ Hg).
Qed.

Lemma get_mini_batch_mask_length (x : tensor3 F) L mask :
  get_mini_batch_mask x L = Ok mask → length mask = length x.
Proof.
  unfold get_mini_batch_mask. intros Hloop.
  eapply (for_each_inv _ (λ st, length st = length x)); [| |exact Hloop].
  - by rewrite length_fmap.
  - intros st b st' _ Hst H. simpl in *.
    apply bind_Ok in H as (l & _ & H). apply bind_Ok in H as (ones & _ & H).
    apply bind_Ok in H as (old & _ & H).
    apply bind_Ok in H as (new & _ & [= <-]). by rewrite length_insert.
Qed.

(** Row [b] of a returned mini-batch was gathered at one and the same
    position [j] of every per-example array. *)
Lemma get_mini_batch_row idx seqs lens fm static y ym ids u c
    (mb : MiniBatch F) (b i : nat) :
  get_mini_batch zero idx seqs lens fm (Some static) y ym (Some ids) u c
    = Ok mb →
  source_indices mb !! b = Some i →
  ∃ j smi T_max gathered,
    j ∈ idx ∧ ids !! j = Some i ∧ smi !! b = Some j ∧
    (∃ row, mini_batch_static mb !! b = Some row ∧ static !! j = Some row) ∧
    (∃ l, sorted_seq_lengths mb !! b = Some l ∧ lens !! j = Some l) ∧
    optional_row (y_mini_batch mb) b y j ∧
    optional_row (y_mask_mini_batch mb) b ym j ∧
    torch_max (sorted_seq_lengths mb) = Ok T_max ∧
    take_along seqs smi = Ok gathered ∧
    pad_sequence zero (py_upto T_max <$> gathered) = Ok (mini_batch mb) ∧
    match fm with
    | None => mini_batch_feature_mask mb = None
    | Some m =>
        ∃ gm padded,
          take_along m smi = Ok gm ∧
          pad_sequence zero (py_upto T_max <$> gm) = Ok padded ∧
          mini_batch_feature_mask mb = Some padded
    end.
Proof.
  intros Hmb Hi.
  apply get_mini_batch_inv in Hmb
    as (gl & smi & T_max & gathered & static' & ids' & reversed & Hgl & Hssl
        & Hsmi & HT & Hg & Hpad & [= <-] & Hst & _ & Hy & Hym & Hpol & _
        & [= <-] & Hsrc).
  destruct (take_along_lookup_Some _ _ _ _ _ Hsrc Hi) as (j & Hj & Hidsj).
  destruct (take_along_lookup_Some _ _ _ _ _ Hsmi Hj) as (p & Hp & Hidxp).
  exists j, smi, T_max, gathered.
  split; [by eapply list_elem_of_lookup_2|]. split; [done|]. split; [done|].
  split.
  { destruct (take_along_lookup_idx _ _ _ _ _ Hst Hj) as (row & ? & ?).
    by exists row. }
  split.
  { destruct (take_along_lookup_idx _ _ _ _ _ Hssl Hp) as (l & Hl & Hglp).
    destruct (take_along_lookup_Some _ _ _ _ _ Hgl Hglp) as (j' & Hj' & Hlj).
    exists l. split; [done|]. by simplify_eq. }
  split; [by eapply take_optional_row|].
  split; [by eapply take_optional_row|].
  split.
  { eapply torch_max_perm; [|exact HT]. symmetry.
    eapply take_along_permutation; [|exact Hssl].
    apply descending_order_perm. }
  split; [done|]. split; [done|].
  apply feature_mask_policy_inv in Hpol. destruct fm as [m|].
  - destruct Hpol as (gm & padded & Hgm & Hpm & -> & _). by exists gm, padded.
  - by destruct Hpol.
Qed.

Lemma get_mini_batch_row_count idx seqs lens fm st y ym ids u c
    (mb : MiniBatch F) :
  get_mini_batch zero idx seqs lens fm st y ym ids u c = Ok mb →
  row_count mb (length idx).
Proof.
  intros Hmb.
  apply get_mini_batch_inv in Hmb
    as (gl & smi & T_max & gathered & static' & ids' & reversed & Hgl & Hssl
        & Hsmi & HT & Hg & Hpad & _ & Hst & Hmask & Hy & Hym & Hpol & _
        & _ & Hsrc).
  assert (Hlsmi : length smi = length idx).
  { rewrite (take_along_length _ _ _ Hsmi), descending_order_length.
    by eapply take_along_length. }
  assert (Hlmb : length (mini_batch mb) = length idx).
  { rewrite <- Hlsmi. by eapply pad_gather_length. }
  unfold row_count. repeat split.
  - by rewrite (take_along_length _ _ _ Hsrc).
  - by rewrite (take_along_length _ _ _ Hst).
  - done.
  - by rewrite (get_mini_batch_mask_length _ _ _ Hmask).
  - rewrite (take_along_length _ _ _ Hssl), descending_order_length.
    by eapply take_along_length.
  - apply feature_mask_policy_inv in Hpol. destruct fm as [m|].
    + destruct Hpol as (gm & padded & Hgm & Hpm & -> & _). simpl.
      rewrite <- Hlsmi. by eapply pad_gather_length.
    + by destruct Hpol as [-> _].
  - rewrite <- Hlsmi. by eapply take_optional_length.
  - rewrite <- Hlsmi. by eapply take_optional_length.
Qed.

Lemma optional_row_kept {A : Type} (x kx out : option (list A)) keep b j i :
  take_optional x keep = Ok kx → keep !! j = Some i →
  optional_row out b kx j → optional_row out b x i.
Proof.
  destruct x as [v|]; simpl.
  - intros (w & Hw & ->)%fmap_Ok Hj (w' & e & -> & Hb & He). simpl.
    exists w', e. split; [done|]. split; [done|].
    by rewrite <- (take_along_lookup _ _ _ _ _ Hw Hj).
  - by intros [= <-] _.
Qed.

(** A mini-batch returned by [batchify] was assembled by [get_mini_batch]
    from a chunk of positions of the kept arrays. *)
Lemma batchify_batch seqs lens fm st y ym max_len batch_size u c batches
    (mb : MiniBatch F) (k : nat) :
  batchify zero seqs lens fm st y ym max_len batch_size u c = Ok batches →
  batches !! k = Some mb →
  ∃ kept,
    batchify_keep seqs lens fm st y ym max_len = Ok kept ∧
    let N := length (kept_seq_lengths kept) in
    get_mini_batch zero
      (py_slice (seq 0 N) (Z.of_nat k * batch_size)
         (Z.min ((Z.of_nat k + 1) * batch_size) (Z.of_nat N)))
      (kept_sequences kept) (kept_seq_lengths kept) (kept_feature_mask kept)
      (Some (kept_static kept)) (kept_y kept) (kept_y_mask kept)
      (Some (keep_index kept)) u c = Ok mb.
Proof.
  unfold batchify. intros (kept & Hkept & Hb)%bind_Ok Hk.
  exists kept. split; [done|].
  apply batchify_batches_Ok in Hb as (n & Hn & Hall).
  destruct (Forall2_lookup_r _ _ _ _ _ Hall Hk) as (which & Hwhich & Hmb).
  unfold py_range in Hwhich. rewrite list_lookup_fmap in Hwhich.
  destruct (seq 0 (Z.to_nat n) !! k) as [k'|] eqn:Ek; simplify_eq/=.
  apply lookup_seq in Ek as [-> _]. exact Hmb.
Qed.

(** *** batchify succeeds on a valid dataset *)

Lemma kept_ready (D : nat) seqs lens fm st y ym max_len
    (kept : Kept (F := F)) (idx : list nat) :
  valid_dataset D seqs lens fm st y ym →
  batchify_keep seqs lens fm st y ym max_len = Ok kept →
  idx ≠ [] → Forall (λ i, i < length (kept_seq_lengths kept)) idx →
  batch_ready D idx (kept_sequences kept) (kept_seq_lengths kept)
    (kept_feature_mask kept) (kept_static kept) (kept_y kept)
    (kept_y_mask kept) (keep_index kept).
Proof.
  intros (_ & HD & Hc & Hcover & Hvfm).
  intros (Hkeep & Hst & Hseqs & Hlens & Hfm & Hy & Hym)%batchify_keep_inv.
  intros Hne Hidx.
  assert (HN := take_along_length _ _ _ Hlens). rewrite HN in Hidx.
  rewrite Forall_forall in Hidx.
  assert (Hrow : ∀ i, i ∈ idx → ∃ j l, keep_index kept !! i = Some j ∧
            kept_seq_lengths kept !! i = Some l ∧ lens !! j = Some l ∧
            (0 < l)%Z).
  { intros i Hi.
    destruct (lookup_lt_is_Some_2 _ _ (Hidx i Hi)) as [j Hj].
    destruct (take_along_lookup_idx _ _ _ _ _ Hlens Hj) as (l & Hl & Hlj).
    exists j, l. repeat split; [done..|].
    assert (Hjk : j ∈ np_where (keep_mask lens max_len)).
    { rewrite <- Hkeep. by eapply list_elem_of_lookup_2. }
    apply keep_index_elem in Hjk as (l' & Hl' & Hpos). simplify_eq. lia. }
  unfold batch_ready. split; [done|]. split; [done|].
  split; [by eapply take_along_Forall|].
  split; [|split; [|split; [|split]]].
  - intros i Hi. destruct (Hrow i Hi) as (j & l & Hj & Hl & Hlj & Hpos).
    destruct (take_along_lookup_idx _ _ _ _ _ Hseqs Hj) as (s & Hs & Hsj).
    exists l, s. split; [done|]. split; [done|].
    specialize (Hcover _ _ _ Hsj Hlj). lia.
  - apply Forall_forall. intros i Hi. specialize (Hidx i Hi).
    by rewrite (take_along_length _ _ _ Hst).
  - destruct fm as [m|]; simpl in Hfm, Hvfm.
    + apply fmap_Ok in Hfm as (km & Hkm & ->). simpl.
      destruct Hvfm as [Hcm Hcoverm].
      split; [by eapply take_along_Forall|].
      intros i l Hi Hl. destruct (Hrow i Hi) as (j & l' & Hj & Hl' & Hlj & _).
      destruct (take_along_lookup_idx _ _ _ _ _ Hkm Hj) as (s & Hs & Hsj).
      exists s. split; [done|]. simplify_eq. by eapply Hcoverm.
    + by injection Hfm as <-.
  - pose proof (take_optional_length _ _ _ Hy) as Hly.
    destruct (kept_y kept) as [ky|]; simpl in *; [|done].
    apply Forall_forall. intros i Hi. specialize (Hidx i Hi). lia.
  - pose proof (take_optional_length _ _ _ Hym) as Hly.
    destruct (kept_y_mask kept) as [ky|]; simpl in *; [|done].
    apply Forall_forall. intros i Hi. specialize (Hidx i Hi). lia.
Qed.

Lemma batchify_total (D : nat) seqs lens fm st y ym max_len batch_size u c :
  valid_dataset D seqs lens fm st y ym → (1 ≤ batch_size)%Z →
  ∃ batches,
    batchify zero seqs lens fm st y ym max_len batch_size u c = Ok batches.
Proof.
  intros Hvalid Hbs.
  destruct (batchify_keep_total seqs lens fm st y ym max_len)
    as [kept Hkept]; [by destruct Hvalid|].
  unfold batchify. rewrite Hkept. simpl.
  set (N := length (kept_seq_lengths kept)).
  destruct (map_result_exists
    (λ which, get_mini_batch zero
       (py_slice (seq 0 N) (which * batch_size)
          (Z.min ((which + 1) * batch_size) (Z.of_nat N)))
       (kept_sequences kept) (kept_seq_lengths kept) (kept_feature_mask kept)
       (Some (kept_static kept)) (kept_y kept) (kept_y_mask kept)
       (Some (keep_index kept)) u c)
    (py_range ((Z.of_nat N + batch_size - 1) `div` batch_size)))
    as [batches Hbatches].
  - apply Forall_forall. intros which Hwhich.
    unfold py_range in Hwhich. apply list_elem_of_fmap in Hwhich as (k & -> & Hk).
    apply elem_of_seq in Hk.
    destruct (chunk_bounds (Z.of_nat N) batch_size (Z.of_nat k))
      as (Hs1 & Hs2 & _); [lia|done|lia|].
    apply (get_mini_batch_total D). eapply kept_ready; [done..| |].
    + rewrite py_slice_seq by lia.
      destruct (Z.to_nat _ - Z.to_nat _) eqn:E; [lia|done].
    + rewrite py_slice_seq by lia. apply Forall_seq. fold N. lia.
  - exists batches. apply batchify_batches_Ok.
    eexists. split; [apply N_mini_batches_ceil; lia|].
    by apply map_result_Ok.
Qed.

(** The examples of mini-batch [k] are the [k]-th chunk of the kept
    indices, in the order of the sort. *)
Lemma batchify_chunk seqs lens fm st y ym max_len batch_size u c batches
    (mb : MiniBatch F) (k : nat) :
  (1 ≤ batch_size)%Z →
  batchify zero seqs lens fm st y ym max_len batch_size u c = Ok batches →
  batches !! k = Some mb →
  let keep := np_where (keep_mask lens max_len) in
  let N := Z.of_nat (length keep) in
  (Z.of_nat k < (N + batch_size - 1) `div` batch_size)%Z ∧
  source_indices mb
    ≡ₚ py_slice keep (Z.of_nat k * batch_size)
         (Z.min ((Z.of_nat k + 1) * batch_size) N).
Proof.
  intros Hbs Hb Hk keep N.
  assert (Hb' := Hb). unfold batchify in Hb'.
  apply bind_Ok in Hb' as (kept & Hkept & Hb').
  apply batchify_batches_Ok in Hb' as (n & Hn & Hall).
  pose proof (batchify_keep_inv _ _ _ _ _ _ _ _ Hkept)
    as (Hkeep & _ & _ & Hlens & _).
  assert (HN : length (kept_seq_lengths kept) = length keep).
  { rewrite (take_along_length _ _ _ Hlens). by rewrite Hkeep. }
  rewrite HN in Hn, Hall. fold N in Hn, Hall.
  rewrite N_mini_batches_ceil in Hn by lia. injection Hn as <-.
  destruct (Forall2_lookup_r _ _ _ _ _ Hall Hk) as (which & Hwhich & Hmb).
  unfold py_range in Hwhich. rewrite list_lookup_fmap in Hwhich.
  destruct (seq 0 _ !! k) as [k'|] eqn:Ek; simplify_eq/=.
  apply lookup_seq in Ek as [-> Hklt]. simpl in Hklt.
  split; [lia|].
  destruct (chunk_bounds N batch_size (Z.of_nat k)) as (Hs1 & Hs2 & _);
    [lia|done|lia|].
  rewrite py_slice_seq in Hmb by lia.
  apply get_mini_batch_inv in Hmb
    as (gl & smi & _ & _ & _ & ids' & _ & Hgl & _ & Hsmi & _ & _ & _ & _ & _
        & _ & _ & _ & _ & _ & [= <-] & Hsrc).
  assert (Hsmip : smi ≡ₚ seq (Z.to_nat (Z.of_nat k * batch_size))
                    (Z.to_nat (Z.min ((Z.of_nat k + 1) * batch_size) N)
                     - Z.to_nat (Z.of_nat k * batch_size))).
  { eapply take_along_permutation; [|exact Hsmi].
    rewrite descending_order_perm. by rewrite (take_along_length _ _ _ Hgl). }
  destruct (take_along_perm _ _ _ _ Hsmip Hsrc) as (ys & Hys & Hperm).
  rewrite take_along_seq_from in Hys by (rewrite Hkeep; fold keep; lia).
  injection Hys as <-. rewrite Hperm, Hkeep. done.
Qed.

(** C7.  For [batch_size >= 1], [batchify] cuts the [N] kept examples, in
    filtered order, into [ceil(N/batch_size)] contiguous chunks: every
    chunk has [batch_size] examples except possibly the last, which has
    [N mod batch_size] when that is not zero; every kept example is in
    exactly one mini-batch; a valid dataset makes the call succeed, and
    an empty filter result gives the empty list. *)
Theorem batchify_partition (D : nat) seqs lens fm st y ym max_len batch_size
    u c :
  (1 ≤ batch_size)%Z →
  let keep := np_where (keep_mask lens max_len) in
  let N := Z.of_nat (length keep) in
  let n := ((N + batch_size - 1) `div` batch_size)%Z in
  (valid_dataset D seqs lens fm st y ym →
   ∃ batches,
     batchify zero seqs lens fm st y ym max_len batch_size u c = Ok batches) ∧
  (keep = [] →
   batchify zero seqs lens fm st y ym max_len batch_size u c = Ok []) ∧
  ∀ batches,
    batchify zero seqs lens fm st y ym max_len batch_size u c = Ok batches →
    Z.of_nat (length batches) = n ∧
    (∀ k mb, batches !! k = Some mb →
       source_indices mb
         ≡ₚ py_slice keep (Z.of_nat k * batch_size)
              (Z.min ((Z.of_nat k + 1) * batch_size) N) ∧
       Z.of_nat (length (source_indices mb))
         = if decide (Z.of_nat k + 1 < n)%Z then batch_size
           else if decide (N `mod` batch_size = 0)%Z then batch_size
                else (N `mod` batch_size)%Z) ∧
    mjoin (source_indices <$> batches) ≡ₚ keep ∧
    NoDup keep.
Proof.
  intros Hbs keep N n.
  assert (Hshape : ∀ batches,
    batchify zero seqs lens fm st y ym max_len batch_size u c = Ok batches →
    Z.of_nat (length batches) = n).
  { intros batches Hb. unfold batchify in Hb.
    apply bind_Ok in Hb as (kept & Hkept & Hb).
    apply batchify_batches_Ok in Hb as (n' & Hn & Hall).
    pose proof (batchify_keep_inv _ _ _ _ _ _ _ _ Hkept)
      as (Hkeep & _ & _ & Hlens & _).
    rewrite (take_along_length _ _ _ Hlens), Hkeep in Hn.
    rewrite N_mini_batches_ceil in Hn by lia. injection Hn as <-.
    rewrite <- (Forall2_length _ _ _ Hall). unfold py_range.
    rewrite length_fmap, length_seq.
    destruct (ceil_bounds N batch_size ltac:(lia) Hbs) as (Hn0 & _).
    fold keep N n. lia. }
  split; [intros Hvalid; by eapply batchify_total|].
  split.
  - intros Hnil.
    unfold batchify, batchify_keep. fold keep. rewrite Hnil. simpl.
    destruct fm, y, ym; simpl; unfold batchify_batches; simpl;
      rewrite (N_mini_batches_ceil 0) by lia; simpl;
      by rewrite Z.div_small by lia.
  - intros batches Hb. split; [by apply Hshape|].
    split; [|split].
    + intros k mb Hk.
      destruct (batchify_chunk _ _ _ _ _ _ _ _ _ _ _ _ _ Hbs Hb Hk)
        as [Hkn Hperm]. fold keep N n in Hkn, Hperm.
      split; [done|]. rewrite Hperm. unfold py_slice.
      destruct (chunk_bounds N batch_size (Z.of_nat k)) as (Hs1 & Hs2 & Hsz);
        [lia|done|fold n; lia|]. fold n in Hsz.
      rewrite length_take, length_drop. fold N. lia.
    + trans (mjoin ((λ k, py_slice keep (k * batch_size)
                             (Z.min ((k + 1) * batch_size) N))
                      <$> py_range n));
        [|pose proof (chunks_join keep batch_size Hbs) as Hj;
          simpl in Hj; fold N n in Hj; by rewrite Hj].
      apply join_Permutation. apply Forall2_same_length_lookup_2.
      * rewrite !length_fmap. unfold py_range.
        rewrite length_fmap, length_seq. specialize (Hshape _ Hb). lia.
      * intros k src chunk Hsrc Hchunk.
        rewrite list_lookup_fmap in Hsrc.
        destruct (batches !! k) as [mb|] eqn:Hk; simplify_eq/=.
        destruct (batchify_chunk _ _ _ _ _ _ _ _ _ _ _ _ _ Hbs Hb Hk)
          as [Hkn Hperm]. fold keep N n in Hkn, Hperm.
        unfold py_range in Hchunk. rewrite !list_lookup_fmap in Hchunk.
        rewrite lookup_seq_lt in Hchunk by lia. by simplify_eq/=.
    + apply StronglySorted_lt_NoDup. apply np_where_from_sorted.
Qed.

(** *** Packing and unpacking *)

(** Unpacking a packed sequence given by its time-step blocks. *)
Lemma pad_packed_blocks (sizes : list nat) (blocks : list (list (frame F)))
    (B D : nat) (r : tensor3 F) :
  head sizes = Some B →
  length <$> blocks = sizes →
  trailing_dim [mjoin blocks] = D →
  length r = B →
  Forall (λ row, length row = length sizes) r →
  (∀ b t row fr, r !! b = Some row → row !! t = Some fr →
     if decide (b < sizes !!! t)
     then blocks !! t ≫= (.!! b) = Some fr
     else fr = replicate D zero) →
  ∃ lens,
    pad_packed_sequence zero (mkPacked (mjoin blocks) sizes) = Ok (r, lens).
Proof.
  intros Hhead Hblocks HD Hlen Hrows Hentries.
  unfold pad_packed_sequence. simpl.
  destruct sizes as [|B' sizes'] eqn:Esizes; [done|].
  injection Hhead as ->. rewrite <- Esizes in *. rewrite HD.
  assert (Hpad : map_result
    (λ b, map_result
       (λ t, if decide (b < sizes !!! t)
             then item (mjoin blocks) (step_offset sizes t + b)
             else Ok (replicate D zero))
       (seq 0 (length sizes)))
    (seq 0 B) = Ok r).
  { apply map_result_Ok. apply Forall2_same_length_lookup_2.
    { by rewrite length_seq. }
    intros i b row Hi Hrow. apply lookup_seq in Hi as [-> Hi]. simpl.
    apply map_result_Ok. apply Forall2_same_length_lookup_2.
    { rewrite length_seq. rewrite Forall_lookup in Hrows.
      by rewrite (Hrows _ _ Hrow). }
    intros j t fr Hj Hfr. apply lookup_seq in Hj as [-> Hj]. simpl.
    specialize (Hentries _ _ _ _ Hrow Hfr).
    case_decide as Hb; [|by rewrite Hentries].
    apply item_lookup. apply join_lookup_Some.
    destruct (blocks !! j) as [block|] eqn:Eblock; simpl in Hentries; [|done].
    exists j, block, i. split; [done|]. split; [done|].
    unfold step_offset. by rewrite <- Hblocks, fmap_take. }
  rewrite Hpad. simpl. by eexists.
Qed.

(** A batch that is zero beyond the lengths survives packing followed by
    unpacking, provided the padded time dimension is the largest length. *)
Lemma pad_packed_pack (r : tensor3 F) (L : list Z) (B T D : nat) :
  shape3 B T D r → 0 < D → length L = B →
  head L = Some (Z.of_nat T) →
  Forall (λ l, (0 < l ≤ Z.of_nat T)%Z) L →
  StronglySorted (λ a b, (b ≤ a)%Z) L →
  (∀ b t l row, L !! b = Some l → r !! b = Some row →
     (l ≤ Z.of_nat t)%Z → t < T → row !! t = Some (replicate D zero)) →
  ∃ p lens,
    pack_padded_sequence r L = Ok p ∧
    pad_packed_sequence zero p = Ok (r, lens).
Proof.
  intros [HB Hshape] HD Hlen Hhead Hrange Hsorted Hzero.
  rewrite Forall_lookup in Hshape.
  destruct L as [|l0 L'] eqn:EL; [done|]. injection Hhead as ->.
  rewrite <- EL in *.
  assert (HTpos : 0 < T).
  { rewrite EL in Hrange. apply Forall_cons in Hrange as [? _]. lia. }
  assert (HBpos : 0 < B) by (rewrite <- Hlen, EL; simpl; lia).
  assert (Hentry : ∀ b t, b < B → t < T →
            ∃ row fr, r !! b = Some row ∧ row !! t = Some fr ∧ length fr = D).
  { intros b t Hb Ht.
    destruct (lookup_lt_is_Some_2 r b) as [row Hrow]; [lia|].
    destruct (Hshape _ _ Hrow) as [HT Hfr].
    destruct (lookup_lt_is_Some_2 row t) as [fr Hfr']; [lia|].
    exists row, fr. split; [done|]. split; [done|].
    rewrite Forall_lookup in Hfr. by eapply Hfr. }
  assert (Halive : ∀ t, alive L t ≤ B).
  { intros t. unfold alive. rewrite <- Hlen. apply length_filter. }
  (* the packed sequence, by blocks *)
  set (block := λ t : nat, (λ b : nat, (r !!! b) !!! t) <$> seq 0 (alive L t)).
  assert (Hpack : pack_padded_sequence r L
            = Ok (mkPacked (mjoin (block <$> seq 0 T))
                    (alive L <$> seq 0 T))).
  { unfold pack_padded_sequence.
    rewrite decide_False; last first.
    { destruct (Hentry 0 0) as (row & fr & Hrow & Hfr & Hl); [lia..|].
      eapply (numel_pos _ row fr); [| |lia];
        by eapply list_elem_of_lookup_2. }
    rewrite decide_False by lia.
    rewrite decide_True; last first.
    { split; [|by apply Sorted.StronglySorted_Sorted].
      eapply Forall_impl; [exact Hrange|]. simpl. lia. }
    replace (Z.to_nat (default 0%Z (head L))) with T
      by (rewrite EL; simpl; lia).
    f_equal. f_equal.
    rewrite bind_join_fmap. f_equal. apply list_fmap_ext.
    intros t t' Ht. apply lookup_seq in Ht as [-> Ht]. simpl.
    apply bind_option_list. apply Forall_seq. intros b Hb.
    destruct (Hentry b t) as (row & fr & Hrow & Hfr & _);
      [specialize (Halive t); lia|done|].
    rewrite Hrow. simpl. rewrite Hfr.
    rewrite (list_lookup_total_correct _ _ _ Hrow).
    by rewrite (list_lookup_total_correct _ _ _ Hfr). }
  assert (Hsizes : ∀ t, t < T → (alive L <$> seq 0 T) !!! t = alive L t).
  { intros t Ht. apply list_lookup_total_correct.
    by rewrite list_lookup_fmap, lookup_seq_lt. }
  destruct (pad_packed_blocks (alive L <$> seq 0 T) (block <$> seq 0 T) B D r)
    as [lens Hunpack].
  - destruct T as [|T']; [lia|]. simpl. f_equal.
    unfold alive. rewrite filter_all; [done|].
    eapply Forall_impl; [exact Hrange|]. simpl. lia.
  - rewrite <- list_fmap_compose. apply list_fmap_ext.
    intros t t' Ht. simpl. unfold block. by rewrite length_fmap, length_seq.
  - unfold trailing_dim. simpl. rewrite app_nil_r.
    destruct T as [|T']; [lia|]. simpl.
    assert (0 < alive L 0) as Ha.
    { rewrite (alive_sorted L 0 0 (Z.of_nat (S T')) Hsorted);
        [lia|by rewrite EL]. }
    unfold block at 1. destruct (alive L 0) as [|a]; [lia|]. simpl.
    destruct (Hentry 0 0) as (row & fr & Hrow & Hfr & Hl); [lia..|].
    rewrite (list_lookup_total_correct _ _ _ Hrow).
    by rewrite (list_lookup_total_correct _ _ _ Hfr).
  - done.
  - apply Forall_lookup. intros b row Hrow.
    destruct (Hshape _ _ Hrow) as [-> _].
    by rewrite length_fmap, length_seq.
  - intros b t row fr Hrow Hfr.
    assert (Hb : b < B) by (rewrite <- HB; by eapply lookup_lt_Some).
    assert (Ht : t < T).
    { destruct (Hshape _ _ Hrow) as [<- _]. by eapply lookup_lt_Some. }
    rewrite Hsizes by done.
    destruct (lookup_lt_is_Some_2 L b) as [l Hl]; [lia|].
    case_decide as Hba.
    + rewrite list_lookup_fmap, lookup_seq_lt by done. simpl.
      unfold block. rewrite list_lookup_fmap, lookup_seq_lt by done. simpl.
      rewrite (list_lookup_total_correct _ _ _ Hrow).
      by rewrite (list_lookup_total_correct _ _ _ Hfr).
    + rewrite (alive_sorted L t b l Hsorted Hl) in Hba.
      assert (row !! t = Some (replicate D zero)) as Hz
        by (eapply Hzero; [done..|lia|done]).
      congruence.
  - by exists (mkPacked (mjoin (block <$> seq 0 T)) (alive L <$> seq 0 T)), lens.
Qed.

(** *** Reversing twice *)

Lemma reversed_row_channels (D : nat) (row : array2 F) (l : Z) :
  Forall (λ fr, length fr = D) row →
  Forall (λ fr, length fr = D) (reversed_row zero row l).
Proof.
  intros HD. unfold reversed_row. apply Forall_app. split.
  - apply Forall_reverse. by apply Forall_take.
  - apply Forall_drop. apply Forall_fmap.
    eapply Forall_impl; [exact HD|]. intros fr Hfr. simpl.
    by rewrite length_map.
Qed.

Lemma reversed_row_zero (D : nat) (row : array2 F) (l : Z) (t : nat) :
  Forall (λ fr, length fr = D) row →
  (0 ≤ l ≤ Z.of_nat (length row))%Z → (l ≤ Z.of_nat t)%Z → t < length row →
  reversed_row zero row l !! t = Some (replicate D zero).
Proof.
  intros HD Hl Ht Hlen. rewrite reversed_row_lookup_ge by done.
  destruct (lookup_lt_is_Some_2 row t Hlen) as [fr Hfr]. rewrite Hfr. simpl.
  f_equal. apply zero_frame. rewrite Forall_lookup in HD. by eapply HD.
Qed.

Lemma reversed_row_involutive (D : nat) (row : array2 F) (l : Z) :
  Forall (λ fr, length fr = D) row →
  (0 ≤ l ≤ Z.of_nat (length row))%Z →
  (∀ t, (l ≤ Z.of_nat t)%Z → t < length row →
        row !! t = Some (replicate D zero)) →
  reversed_row zero (reversed_row zero row l) l = row.
Proof.
  intros HD Hl Hzero. apply list_eq. intros t.
  destruct (decide (Z.of_nat t < l)%Z) as [Hlt|Hge].
  - rewrite reversed_row_lookup_lt by (rewrite ?reversed_row_length; lia).
    rewrite reversed_row_lookup_lt by lia. f_equal. lia.
  - destruct (decide (t < length row)) as [Ht|Ht].
    + rewrite (reversed_row_zero D);
        rewrite ?reversed_row_length; [|by apply reversed_row_channels|lia..].
      symmetry. apply Hzero; lia.
    + rewrite (lookup_ge_None_2 row) by lia. apply lookup_ge_None_2.
      rewrite !reversed_row_length. lia.
Qed.

(** C4, on the inputs the packing step accepts.  For a dense padded array
    [x] of shape [(B, T_max, D)] with [D >= 1], lengths that are
    non-increasing, at least 1 and with [T_max] the largest of them, and
    zero entries beyond each row's length: reversing, packing, and
    [pad_and_reverse] give back [x] exactly. *)
Theorem pad_and_reverse_roundtrip (x : tensor3 F) (L : list Z)
    (B T_max D : nat) :
  shape3 B T_max D x → 0 < D → length L = B →
  head L = Some (Z.of_nat T_max) →
  Forall (λ l, (1 ≤ l)%Z) L →
  Sorted (λ a b, (b ≤ a)%Z) L →
  (∀ b t l, L !! b = Some l → (l ≤ Z.of_nat t)%Z → t < T_max →
            entry x b t = Some (replicate D zero)) →
  ∃ reversed packed,
    reverse_sequences zero x L = Ok reversed ∧
    pack_padded_sequence reversed L = Ok packed ∧
    pad_and_reverse zero packed L = Ok x.
Proof.
  intros [HB Hshape] HD Hlen Hhead Hpos Hsorted Hzero.
  assert (Hss : StronglySorted (λ a b, (b ≤ a)%Z) L).
  { apply Sorted.Sorted_StronglySorted; [|done]. intros a b c ??. lia. }
  assert (Hrange : Forall (λ l, (0 < l ≤ Z.of_nat T_max)%Z) L).
  { destruct L as [|l0 L']; [done|]. injection Hhead as ->.
    apply StronglySorted_cons in Hss as [Hle _].
    apply Forall_cons in Hpos as [H0 Hpos]. constructor; [lia|].
    rewrite Forall_forall in Hle, Hpos. apply Forall_forall. intros l Hl.
    specialize (Hle l Hl). specialize (Hpos l Hl). lia. }
  rewrite Forall_lookup in Hshape. rewrite Forall_lookup in Hrange.
  assert (Hrange2 : Forall2 (λ (row : array2 F) l,
                       (0 ≤ l ≤ Z.of_nat (length row))%Z) x L).
  { apply Forall2_same_length_lookup_2; [lia|].
    intros b row l Hrow Hl. destruct (Hshape _ _ Hrow) as [-> _].
    specialize (Hrange _ _ Hl). lia. }
  pose proof (reverse_sequences_rows x L Hrange2) as Hrev.
  set (r := zip_with (reversed_row zero) x L) in *.
  assert (Hr : ∀ b row', r !! b = Some row' →
            ∃ row l, x !! b = Some row ∧ L !! b = Some l ∧
                     row' = reversed_row zero row l).
  { intros b row' Hrow'. unfold r in Hrow'.
    apply lookup_zip_with_Some in Hrow' as (row & l & -> & Hrow & Hl).
    by exists row, l. }
  destruct (pad_packed_pack r L B T_max D) as (p & lens & Hpack & Hunpack).
  - split; [unfold r; rewrite length_zip_with; lia|].
    apply Forall_lookup. intros b row' (row & l & Hrow & Hl & ->)%Hr.
    destruct (Hshape _ _ Hrow) as [HT Hfr].
    split; [by rewrite reversed_row_length|by apply reversed_row_channels].
  - done.
  - done.
  - done.
  - by apply Forall_lookup.
  - done.
  - intros b t l row' Hl (row & l' & Hrow & Hl' & ->)%Hr Hlt Ht.
    assert (l' = l) as -> by congruence.
    destruct (Hshape _ _ Hrow) as [HT Hfr].
    specialize (Hrange _ _ Hl). apply (reversed_row_zero D); [done|lia..].
  - exists r, p. split; [done|]. split; [done|].
    unfold pad_and_reverse. rewrite Hunpack. simpl.
    rewrite reverse_sequences_rows; last first.
    { apply Forall2_same_length_lookup_2;
        [unfold r; rewrite length_zip_with; lia|].
      intros b row' l Hrow' Hl. apply Hr in Hrow' as (row & l' & Hrow & Hl' & ->).
      assert (l' = l) as -> by congruence. rewrite reversed_row_length.
      destruct (Hshape _ _ Hrow) as [-> _]. specialize (Hrange _ _ Hl). lia. }
    simpl. f_equal. apply list_eq. intros b.
    rewrite lookup_zip_with. unfold r. rewrite lookup_zip_with.
    destruct (x !! b) as [row|] eqn:Hrow; simpl; [|done].
    destruct (L !! b) as [l|] eqn:Hl; simpl.
    + f_equal. destruct (Hshape _ _ Hrow) as [HT Hfr].
      specialize (Hrange _ _ Hl).
      apply (reversed_row_involutive D); [done|lia|].
      intros t Hlt Ht. specialize (Hzero b t l Hl Hlt ltac:(lia)).
      unfold entry in Hzero. by rewrite Hrow in Hzero.
    + apply lookup_lt_Some in Hrow. apply lookup_ge_None in Hl. lia.
Qed.

(** *** get_mini_batch without a feature mask *)

(** C10.  When [sequences_feature_mask] is None, [get_mini_batch] does
    the same for both values of [use_feature_mask]: on rows that are
    ready it raises nothing, the packed batch is built from the plain
    sequence alone ([input_dim] channels), and the returned
    [mini_batch_feature_mask] is None. *)
Theorem get_mini_batch_no_feature_mask (D : nat) idx seqs lens st y ym ids c :
  get_mini_batch zero idx seqs lens None st y ym ids true c
    = get_mini_batch zero idx seqs lens None st y ym ids false c ∧
  (∀ u static ids',
     st = Some static → ids = Some ids' →
     batch_ready D idx seqs lens None static y ym ids' →
     ∃ mb, get_mini_batch zero idx seqs lens None st y ym ids u c = Ok mb) ∧
  (∀ u (mb : MiniBatch F),
     get_mini_batch zero idx seqs lens None st y ym ids u c = Ok mb →
     mini_batch_feature_mask mb = None ∧
     (∃ reversed,
        reverse_sequences zero (mini_batch mb) (sorted_seq_lengths mb)
          = Ok reversed ∧
        pack_padded_sequence reversed (sorted_seq_lengths mb)
          = Ok (mini_batch_reversed_with_mask mb)) ∧
     ∀ input_dim,
       channels input_dim seqs →
       Forall (λ fr, length fr = input_dim)
         (data (mini_batch_reversed_with_mask mb))).
Proof.
  split; [reflexivity|]. split.
  - intros u static ids' -> -> Hready. by apply (get_mini_batch_total D).
  - intros u mb Hmb.
    apply get_mini_batch_inv in Hmb
      as (gl & smi & T_max & gathered & static & ids' & reversed & _ & _
          & _ & _ & Hg & Hpad & _ & _ & _ & _ & _ & Hpol & Hpack & _ & _).
    apply feature_mask_policy_inv in Hpol as [Hmfm Hrev].
    split; [done|]. split; [by exists reversed|].
    intros input_dim Hseqs.
    eapply pack_padded_sequence_channels; [|exact Hpack].
    eapply reverse_sequences_channels; [|exact Hrev].
    exact (gathered_channels _ _ _ _ _ _ Hseqs Hg Hpad).
Qed.

End Properties.

(** * Concrete instances *)

Lemma get_mini_batch_mask_correct_witness :
  ∃ mask,
    get_mini_batch_mask [[[7]; [8]; [9]]; [[4]; [5]; [0]]]%Z [3; 2]%Z
      = Ok mask ∧
    length mask = 2 ∧
    Forall (λ row, length row = 3) mask ∧
    ∀ b t l, [3; 2]%Z !! b = Some l → t < 3 →
      ∃ v, entry mask b t = Some v ∧
           (v = 1%Z ↔ (Z.of_nat t < l)%Z) ∧
           ((l ≤ Z.of_nat t)%Z → v = 0%Z).
Proof.
  apply (get_mini_batch_mask_correct
           [[[7]; [8]; [9]]; [[4]; [5]; [0]]]%Z [3; 2]%Z 3).
  - reflexivity.
  - repeat constructor.
  - repeat constructor; lia.
Defined.

Lemma reverse_sequences_correct_witness :
  ∃ out,
    reverse_sequences 0%Z [[[7]; [8]; [9]]; [[4]; [5]; [6]]]%Z [3; 2]%Z = Ok out ∧
    shape3 2 3 1 out ∧
    ∀ b t l, [3; 2]%Z !! b = Some l → t < 3 →
      ((Z.of_nat t < l)%Z →
         ∃ fr, entry out b t = Some fr ∧
               entry [[[7]; [8]; [9]]; [[4]; [5]; [6]]]%Z b (Z.to_nat l - 1 - t)
                 = Some fr) ∧
      ((l ≤ Z.of_nat t)%Z → entry out b t = Some (replicate 1 0%Z)).
Proof.
  apply (reverse_sequences_correct 0%Z
           [[[7]; [8]; [9]]; [[4]; [5]; [6]]]%Z [3; 2]%Z 2 3 1).
  - split; [reflexivity|]. repeat constructor.
  - reflexivity.
  - repeat constructor; lia.
Defined.






(** C4, as stated, fails: with a row of length 0 the packing step raises
    and nothing is returned; so it does on an array without channels. *)
Lemma pad_and_reverse_zero_length :
  (shape3 2 1 1 [[[5]]; [[0]]]%Z ∧
   Sorted (λ a b, (b ≤ a)%Z) [1; 0]%Z ∧
   (∀ b t l, [1; 0]%Z !! b = Some l → (l ≤ Z.of_nat t)%Z → t < 1 →
             entry [[[5]]; [[0]]]%Z b t = Some (replicate 1 0%Z)) ∧
   reverse_sequences 0%Z [[[5]]; [[0]]]%Z [1; 0]%Z = Ok [[[5]]; [[0]]]%Z ∧
   pack_padded_sequence [[[5]]; [[0]]]%Z [1; 0]%Z = Err RuntimeError ∧
   (reversed ← reverse_sequences 0%Z [[[5]]; [[0]]]%Z [1; 0]%Z;
    packed ← pack_padded_sequence reversed [1; 0]%Z;
    pad_and_reverse 0%Z packed [1; 0]%Z) ≠ Ok [[[5]]; [[0]]]%Z) ∧
  (shape3 (F := Z) 1 1 0 [[[]]] ∧
   (reversed ← reverse_sequences 0%Z [[[]]] [1]%Z;
    packed ← pack_padded_sequence reversed [1]%Z;
    pad_and_reverse 0%Z packed [1]%Z) = Err RuntimeError).
Proof.
  split.
  - split; [split; [reflexivity|repeat constructor]|].
    split; [repeat constructor; lia|].
    split.
    + intros [|[|b]] t l Hl Hlt Ht; simplify_eq/=.
      * lia.
      * by replace t with 0 by lia.
    + split; [reflexivity|]. split; [reflexivity|]. by vm_compute.
  - split; [split; [reflexivity|repeat constructor]|reflexivity].
Qed.

Lemma pad_and_reverse_roundtrip_witness :
  ∃ reversed packed,
    reverse_sequences 0%Z [[[1]; [2]; [3]]; [[4]; [5]; [0]]; [[6]; [0]; [0]]]%Z
      [3; 2; 1]%Z = Ok reversed ∧
    pack_padded_sequence reversed [3; 2; 1]%Z = Ok packed ∧
    pad_and_reverse 0%Z packed [3; 2; 1]%Z
      = Ok [[[1]; [2]; [3]]; [[4]; [5]; [0]]; [[6]; [0]; [0]]]%Z.
Proof.
  apply (pad_and_reverse_roundtrip 0%Z
           [[[1]; [2]; [3]]; [[4]; [5]; [0]]; [[6]; [0]; [0]]]%Z
           [3; 2; 1]%Z 3 3 1).
  - split; [reflexivity|repeat constructor].
  - lia.
  - reflexivity.
  - reflexivity.
  - repeat constructor; lia.
  - repeat constructor; lia.
  - intros [|[|[|b]]] [|[|[|t]]] l Hl Hlt Ht; simplify_eq/=;
      (reflexivity || lia).
Defined.

Lemma ex_valid_dataset :
  valid_dataset 1 ex_sequences ex_seq_lengths (Some ex_feature_mask) ex_static
    (Some ex_y) None.
Proof.
  split; [repeat split; simpl; lia|]. split; [lia|].
  split; [repeat constructor|]. split.
  - intros [|[|[|[|[|[|i]]]]]] s l Hs Hl; simplify_eq/=; lia.
  - split; [repeat constructor|].
    intros [|[|[|[|[|[|i]]]]]] s l Hs Hl; simplify_eq/=; lia.
Qed.

(** The example dataset is valid, so [batchify] succeeds on it. *)
Lemma ex_batchify_succeeds :
  ∃ batches,
    batchify 0%Z ex_sequences ex_seq_lengths (Some ex_feature_mask) ex_static
      (Some ex_y) None 3 3 true false = Ok batches.
Proof. apply (batchify_total 0%Z 1); [apply ex_valid_dataset|lia]. Qed.

(** The filtering example of the specification: lengths [0, 5, 1000, 50]
    with [max_len = 100] keep the indices 1 and 3. *)
Example keep_index_example :
  np_where (keep_mask [0; 5; 1000; 50]%Z 100) = [1; 3].
Proof. reflexivity. Qed.

(** The partition example of the specification: 10 kept examples and
    [batch_size = 4] give 3 chunks, of sizes 4, 4 and 2. *)
Example N_mini_batches_example :
  N_mini_batches 10 4 = Ok 3%Z ∧
  (λ k, length (py_slice (seq 0 10) (k * 4) (Z.min ((k + 1) * 4) 10)))
    <$> py_range 3 = [4; 4; 2].
Proof. split; reflexivity. Qed.

Lemma batchify_partition_witness :
  let keep := np_where (keep_mask ex_seq_lengths 3) in
  let N := Z.of_nat (length keep) in
  let n := ((N + 3 - 1) `div` 3)%Z in
  (valid_dataset 1 ex_sequences ex_seq_lengths (Some ex_feature_mask)
     ex_static (Some ex_y) None →
   ∃ batches,
     batchify 0%Z ex_sequences ex_seq_lengths (Some ex_feature_mask) ex_static
       (Some ex_y) None 3 3 true false = Ok batches) ∧
  (keep = [] →
   batchify 0%Z ex_sequences ex_seq_lengths (Some ex_feature_mask) ex_static
     (Some ex_y) None 3 3 true false = Ok []) ∧
  ∀ batches,
    batchify 0%Z ex_sequences ex_seq_lengths (Some ex_feature_mask) ex_static
      (Some ex_y) None 3 3 true false = Ok batches →
    Z.of_nat (length batches) = n ∧
    (∀ k mb, batches !! k = Some mb →
       source_indices mb
         ≡ₚ py_slice keep (Z.of_nat k * 3) (Z.min ((Z.of_nat k + 1) * 3) N) ∧
       Z.of_nat (length (source_indices mb))
         = if decide (Z.of_nat k + 1 < n)%Z then 3%Z
           else if decide (N `mod` 3 = 0)%Z then 3%Z
                else (N `mod` 3)%Z) ∧
    mjoin (source_indices <$> batches) ≡ₚ keep ∧
    NoDup keep.
Proof.
  apply (batchify_partition 0%Z 1 ex_sequences ex_seq_lengths
           (Some ex_feature_mask) ex_static (Some ex_y) None 3%Z 3%Z
           true false).
  lia.
Defined.

Lemma get_mini_batch_fusion_witness :
  ∃ mb,
    get_mini_batch 0%Z [0; 2; 3] ex_sequences ex_seq_lengths
      (Some ex_feature_mask) (Some ex_static) (Some ex_y) None
      (Some [0; 1; 2; 3; 4; 5]) true false = Ok mb ∧
    ∃ reversed,
      pack_padded_sequence reversed (sorted_seq_lengths mb)
        = Ok (mini_batch_reversed_with_mask mb) ∧
      (∃ padded smi T_max gs gm,
         mini_batch_feature_mask mb = Some padded ∧
         take_along ex_sequences smi = Ok gs ∧
         pad_sequence 0%Z (py_upto T_max <$> gs) = Ok (mini_batch mb) ∧
         take_along ex_feature_mask smi = Ok gm ∧
         pad_sequence 0%Z (py_upto T_max <$> gm) = Ok padded ∧
         cat_last (mini_batch mb) padded
           = Ok (zip_with (zip_with app) (mini_batch mb) padded) ∧
         reverse_sequences 0%Z
           (zip_with (zip_with app) (mini_batch mb) padded)
           (sorted_seq_lengths mb) = Ok reversed) ∧
      ∀ input_dim,
        channels input_dim ex_sequences →
        channels input_dim ex_feature_mask →
        Forall (λ fr, length fr = 2 * input_dim)
          (data (mini_batch_reversed_with_mask mb)).
Proof.
  eexists. split; [reflexivity|].
  apply (get_mini_batch_fusion 0%Z [0; 2; 3] ex_sequences ex_seq_lengths
           (Some ex_feature_mask) (Some ex_static) (Some ex_y) None
           (Some [0; 1; 2; 3; 4; 5]) true false).
  reflexivity.
Defined.

(** * Further properties of the pipeline *)

(** ** Loops, once more *)

(** Every iteration of a loop that ran to completion was entered in a
    state satisfying the invariant, and succeeded. *)
Lemma for_each_steps {A St : Type} (body : St → A → result St)
    (P : St → Prop) (xs : list A) (s0 s : St) :
  P s0 →
  (∀ s x s', x ∈ xs → P s → body s x = Ok s' → P s') →
  for_each body xs s0 = Ok s →
  ∀ x, x ∈ xs → ∃ s1 s2, P s1 ∧ body s1 x = Ok s2.
Proof.
  revert s0. induction xs as [|x0 xs IH]; intros s0 H0 Hstep Hrun x Hx.
  - by apply elem_of_nil in Hx.
  - simpl in Hrun. apply bind_Ok in Hrun as (s' & Hb & Hrun).
    apply elem_of_cons in Hx as [->|Hx].
    + by exists s0, s'.
    + eapply (IH s'); [| |exact Hrun|exact Hx].
      * eapply Hstep; [|done..]. by left.
      * intros s1 x1 s2 Hin. apply Hstep. by right.
Qed.

Lemma take_along_Ok_lt {A : Type} (a : list A) (idx : list nat) ys :
  take_along a idx = Ok ys → Forall (λ i, i < length a) idx.
Proof.
  intros H%take_along_Ok. apply Forall_lookup. intros k i Hi.
  destruct (Forall2_lookup_l _ _ _ _ _ H Hi) as (y & _ & Hy).
  by eapply lookup_lt_Some.
Qed.

(** ** Counting packed frames *)

Lemma sum_list_with_ext {A : Type} (f g : A → nat) (l : list A) :
  (∀ x, x ∈ l → f x = g x) → sum_list_with f l = sum_list_with g l.
Proof.
  induction l as [|x l IH]; intros H; simpl; [done|].
  rewrite (H x) by (by left). rewrite IH; [done|].
  intros x' Hx'. apply H. by right.
Qed.

Lemma sum_list_fmap {A : Type} (f : A → nat) (l : list A) :
  sum_list (f <$> l) = sum_list_with f l.
Proof.
  induction l as [|x l IH]; [done|].
  rewrite fmap_cons.
  change (sum_list (f x :: (f <$> l))) with (f x + sum_list (f <$> l)).
  rewrite IH. done.
Qed.

Lemma length_bind {A B : Type} (f : A → list B) (xs : list A) :
  length (xs ≫= f) = sum_list_with (λ x, length (f x)) xs.
Proof.
  induction xs as [|x xs IH]; [done|].
  rewrite bind_cons, length_app, IH. done.
Qed.

Lemma length_bind_option_list {A B : Type} (g : A → option B) (xs : list A) :
  Forall (λ x, is_Some (g x)) xs →
  length (xs ≫= λ x, option_list (g x)) = length xs.
Proof.
  induction 1 as [|x xs [y Hy] _ IH]; [done|].
  rewrite bind_cons, length_app, IH, Hy. done.
Qed.

Lemma alive_cons (l : Z) (L : list Z) (t : nat) :
  alive (l :: L) t
  = (if decide (Z.of_nat t < l)%Z then 1 else 0) + alive L t.
Proof. unfold alive. rewrite filter_cons. by case_decide. Qed.

Lemma count_below (T : nat) (l : Z) :
  sum_list_with (λ t, if decide (Z.of_nat t < l)%Z then 1 else 0) (seq 0 T)
  = T `min` Z.to_nat l.
Proof.
  induction T as [|T IH]; [done|].
  rewrite seq_S, sum_list_with_app, IH. cbn -[Nat.min Z.of_nat].
  case_decide; lia.
Qed.

(** Summed over the time steps, the rows alive at each step count every
    row once per valid time step. *)
Lemma sum_alive (L : list Z) (T : nat) :
  Forall (λ l, (l ≤ Z.of_nat T)%Z) L →
  sum_list_with (alive L) (seq 0 T) = sum_list_with Z.to_nat L.
Proof.
  induction 1 as [|l L Hl _ IH]; simpl.
  - induction (seq 0 T) as [|t ts IHts]; [done|]. simpl. by rewrite IHts.
  - assert (Hsplit : ∀ ts,
      sum_list_with (alive (l :: L)) ts
      = sum_list_with (λ t, if decide (Z.of_nat t < l)%Z then 1 else 0) ts
        + sum_list_with (alive L) ts).
    { induction ts as [|t ts IHts]; [done|]. simpl.
      rewrite alive_cons, IHts. lia. }
    rewrite Hsplit, count_below, IH. lia.
Qed.

Section Pipeline.
Context `{TS : !TorchSort} {F : Type} (zero : F).

(** ** reverse_sequences: when it returns *)

Lemma reverse_sequences_closed (x : tensor3 F) (L : list Z) :
  (∀ b row, x !! b = Some row →
     ∃ l, L !! b = Some l ∧ (0 ≤ l ≤ Z.of_nat (length row))%Z) →
  reverse_sequences zero x L = Ok (zip_with (reversed_row zero) x L).
Proof.
  intros Hrange. unfold reverse_sequences.
  replace (length x) with (length (zeros_like zero x))
    by (unfold zeros_like; by rewrite length_map).
  rewrite (for_each_rows _
    (λ b old, reverse (take (Z.to_nat (L !!! b)) (x !!! b))
              ++ drop (Z.to_nat (L !!! b)) old)).
  - f_equal. apply list_eq. intros b.
    rewrite list_lookup_imap, lookup_zip_with. unfold zeros_like.
    rewrite list_lookup_fmap.
    destruct (x !! b) as [row|] eqn:Hrow; simpl; [|done].
    destruct (Hrange _ _ Hrow) as (l & Hl & Hl').
    rewrite Hl. simpl. rewrite (list_lookup_total_correct _ _ _ Hl).
    by rewrite (list_lookup_total_correct _ _ _ Hrow).
  - intros st b old Hst Hinit Hold.
    unfold zeros_like in Hinit. rewrite list_lookup_fmap in Hinit.
    destruct (x !! b) as [row|] eqn:Hrow; simplify_eq/=.
    destruct (Hrange _ _ Hrow) as (l & Hl & Hl').
    rewrite (item_lookup _ _ _ Hl). simpl.
    rewrite (list_lookup_total_correct _ _ _ Hl).
    rewrite (list_lookup_total_correct _ _ _ Hrow).
    unfold arange_down. rewrite (proj2 (Z.ltb_ge l 0)) by lia. simpl.
    rewrite (item_lookup _ _ _ Hrow). simpl.
    rewrite (proj2 (index_select_Ok _ _ _)
               (take_along_reverse _ _ _
                  (take_along_seq row (Z.to_nat l) ltac:(lia)))).
    simpl. rewrite (item_lookup _ _ _ Hold). simpl.
    unfold assign_upto.
    rewrite length_reverse, !length_take, !length_map.
    rewrite decide_True by lia. simpl.
    by replace (Z.to_nat l `min` length row) with (Z.to_nat l) by lia.
Qed.

Lemma reverse_sequences_Ok_range (x : tensor3 F) (L : list Z) out :
  reverse_sequences zero x L = Ok out →
  ∀ b row, x !! b = Some row →
    ∃ l, L !! b = Some l ∧ (0 ≤ l ≤ Z.of_nat (length row))%Z.
Proof.
  intros Hrun b row Hrow. unfold reverse_sequences in Hrun.
  destruct (for_each_steps _ (λ _, True) _ _ _ I (λ _ _ _ _ _ _, I) Hrun b)
    as (s1 & s2 & _ & Hbody).
  { apply elem_of_seq. apply lookup_lt_Some in Hrow. lia. }
  apply bind_Ok in Hbody as (l & Hl%item_Ok & Hbody).
  apply bind_Ok in Hbody as (slice & Hslice & Hbody).
  apply bind_Ok in Hbody as (row' & Hrow'%item_Ok & Hbody).
  apply bind_Ok in Hbody as (rev & Hrev%index_select_Ok & _).
  assert (row' = row) as -> by congruence.
  exists l. split; [done|].
  unfold arange_down in Hslice. destruct (l <? 0)%Z eqn:E; [done|].
  apply Z.ltb_ge in E. injection Hslice as <-. split; [done|].
  destruct (decide (l = 0%Z)) as [->|Hne]; [lia|].
  apply take_along_Ok_lt in Hrev. rewrite Forall_forall in Hrev.
  assert (Z.to_nat l - 1 < length row); [|lia].
  apply Hrev. rewrite elem_of_reverse. apply elem_of_seq. lia.
Qed.

(** X1.  [reverse_sequences] returns exactly when every row of the batch
    has a length entry that lies between 0 and the row's time dimension;
    in every other case it raises. *)
Theorem reverse_sequences_returns_iff (x : tensor3 F) (L : list Z) :
  (∃ out, reverse_sequences zero x L = Ok out) ↔
  ∀ b row, x !! b = Some row →
    ∃ l, L !! b = Some l ∧ (0 ≤ l ≤ Z.of_nat (length row))%Z.
Proof.
  split.
  - intros [out Hout]. by eapply reverse_sequences_Ok_range.
  - intros Hrange. eexists. by apply reverse_sequences_closed.
Qed.

(** ** Reversing twice *)

Lemma reversed_row_twice (row : array2 F) (l : Z) :
  (0 ≤ l ≤ Z.of_nat (length row))%Z →
  reversed_row zero (reversed_row zero row l) l = zero_beyond zero row l.
Proof.
  intros Hl. apply list_eq. intros t. unfold zero_beyond.
  destruct (decide (Z.of_nat t < l)%Z) as [Hlt|Hge].
  - rewrite reversed_row_lookup_lt by (rewrite ?reversed_row_length; lia).
    rewrite reversed_row_lookup_lt by lia.
    rewrite lookup_app_l by (rewrite length_take; lia).
    rewrite lookup_take_lt by lia. f_equal. lia.
  - rewrite reversed_row_lookup_ge by (rewrite ?reversed_row_length; lia).
    rewrite reversed_row_lookup_ge by lia.
    rewrite lookup_app_r by (rewrite length_take; lia).
    rewrite length_take, lookup_drop, list_lookup_fmap.
    replace (Z.to_nat l + (t - Z.to_nat l `min` length row)) with t by lia.
    destruct (row !! t) as [fr|]; simpl; [|done].
    f_equal. rewrite map_map. done.
Qed.

(** X2.  Reversing a batch twice with the same lengths gives the batch
    back on the valid region of every row and zero beyond it. *)
Theorem reverse_sequences_twice (x : tensor3 F) (L : list Z) :
  (∀ b row, x !! b = Some row →
     ∃ l, L !! b = Some l ∧ (0 ≤ l ≤ Z.of_nat (length row))%Z) →
  ∃ reversed,
    reverse_sequences zero x L = Ok reversed ∧
    reverse_sequences zero reversed L = Ok (zip_with (zero_beyond zero) x L).
Proof.
  intros Hrange. eexists. split; [by apply reverse_sequences_closed|].
  rewrite reverse_sequences_closed.
  - f_equal. apply list_eq. intros b. rewrite !lookup_zip_with.
    destruct (x !! b) as [row|] eqn:Hrow; simpl; [|done].
    destruct (Hrange _ _ Hrow) as (l & Hl & Hl'). rewrite Hl. simpl.
    f_equal. by apply reversed_row_twice.
  - intros b row' Hrow'.
    apply lookup_zip_with_Some in Hrow' as (row & l & -> & Hrow & Hl).
    destruct (Hrange _ _ Hrow) as (l' & Hl' & Hr).
    exists l. split; [done|]. rewrite reversed_row_length.
    by assert (l' = l) as -> by congruence.
Qed.

(** ** The shape of a returned mini-batch *)

Lemma numel_channels_0 (x : tensor3 F) : channels 0 x → numel x = 0.
Proof.
  unfold channels, numel. induction 1 as [|row x Hrow _ IH]; [done|].
  simpl. rewrite IH.
  assert (sum_list_with length row = 0) as ->; [|done].
  induction Hrow as [|fr row Hfr _ IH']; [done|]. simpl. by rewrite Hfr, IH'.
Qed.

Lemma cat_rows_length (x y : tensor3 F) :
  length <$> x = length <$> y →
  length <$> zip_with (zip_with app) x y = length <$> x.
Proof.
  intros Hxy. apply list_eq. intros b.
  rewrite !list_lookup_fmap, lookup_zip_with.
  assert (Hb : (length <$> x) !! b = (length <$> y) !! b) by by rewrite Hxy.
  rewrite !list_lookup_fmap in Hb.
  destruct (x !! b) as [rx|], (y !! b) as [ry|]; simplify_eq/=; [|done].
  rewrite length_zip_with. f_equal. lia.
Qed.

Lemma policy_source mbatch ssl T_max smi fm u (mfm : option (tensor3 F))
    reversed (D1 : nat) :
  feature_mask_policy zero mbatch ssl T_max smi fm u = Ok (mfm, reversed) →
  channels D1 mbatch →
  let src := match mfm with
             | Some padded =>
                 if u then zip_with (zip_with app) mbatch padded else mbatch
             | None => mbatch
             end in
  reverse_sequences zero src ssl = Ok reversed ∧
  length <$> src = length <$> mbatch ∧
  ∃ D, channels D src.
Proof.
  intros Hpol%feature_mask_policy_inv Hc. destruct fm as [m|].
  - destruct Hpol as (gm & padded & Hgm & Hpm & -> & Hrev). simpl.
    destruct u.
    + destruct Hrev as (fused & Hcat & Hrev).
      assert (Hf := Hcat). unfold cat_last in Hf.
      case_decide as Hlen; [|done]. injection Hf as <-.
      split; [done|]. split; [by apply cat_rows_length|].
      exists (D1 + trailing_dim (py_upto T_max <$> gm)).
      eapply cat_last_channels; [done| |exact Hcat].
      exact (pad_sequence_out_channels zero _ _ Hpm).
    + split; [done|]. split; [done|]. by exists D1.
  - destruct Hpol as [-> Hrev]. simpl. split; [done|]. split; [done|].
    by exists D1.
Qed.

(** A successful call went through the packing step, which pins the
    shape of the batch down. *)
Lemma get_mini_batch_shape idx seqs lens fm st y ym ids u c
    (mb : MiniBatch F) :
  get_mini_batch zero idx seqs lens fm st y ym ids u c = Ok mb →
  ∃ (T D : nat),
    head (sorted_seq_lengths mb) = Some (Z.of_nat T) ∧ 0 < T ∧ 0 < D ∧
    length (sorted_seq_lengths mb) = length (mini_batch mb) ∧
    Forall (λ l, (0 < l ≤ Z.of_nat T)%Z) (sorted_seq_lengths mb) ∧
    StronglySorted (λ a b, (b ≤ a)%Z) (sorted_seq_lengths mb) ∧
    Forall (λ row, length row = T) (mini_batch mb) ∧
    length <$> packed_source mb u = length <$> mini_batch mb ∧
    channels D (packed_source mb u) ∧
    pack_padded_sequence
      (zip_with (reversed_row zero) (packed_source mb u)
         (sorted_seq_lengths mb))
      (sorted_seq_lengths mb) = Ok (mini_batch_reversed_with_mask mb).
Proof.
  intros Hmb.
  apply get_mini_batch_inv in Hmb
    as (gl & smi & T_max & gathered & static & ids' & reversed & Hgl & Hssl
        & Hsmi & HT & Hg & Hpad & _ & _ & _ & _ & _ & Hpol & Hpack & _ & _).
  set (ssl := sorted_seq_lengths mb) in *.
  set (mbatch := mini_batch mb) in *.
  (* the padded batch *)
  pose proof (pad_sequence_out_channels _ _ _ Hpad) as Hcmb.
  pose proof (pad_sequence_row_length _ _ _ Hpad) as Hrows.
  (* the batch that is reversed *)
  destruct (policy_source _ _ _ _ _ _ _ _ _ Hpol Hcmb) as (Hrev & Hlsrc & D & HD).
  replace (match mini_batch_feature_mask mb with
           | Some padded =>
               if u then zip_with (zip_with app) mbatch padded else mbatch
           | None => mbatch
           end) with (packed_source mb u) in * by done.
  set (src := packed_source mb u) in *.
  pose proof (reverse_sequences_Ok_range _ _ _ Hrev) as Hrange.
  assert (Hreversed : reversed = zip_with (reversed_row zero) src ssl).
  { pose proof (reverse_sequences_closed _ _ Hrange) as H. congruence. }
  (* the packing step *)
  apply pack_padded_sequence_Ok in Hpack as Hpk.
  destruct Hpk as (Hnumel & Hlen & Hpos & Hsorted & _).
  assert (Hss : StronglySorted (λ a b, (b ≤ a)%Z) ssl).
  { apply Sorted.Sorted_StronglySorted; [|done]. intros a b c' ??. lia. }
  assert (Hlsrc' : length src = length mbatch).
  { by rewrite <- (length_fmap length src), Hlsrc, length_fmap. }
  assert (Hlssl : length ssl = length mbatch).
  { rewrite <- Hlsrc'. apply Nat.le_antisymm.
    - rewrite Hlen, Hreversed, length_zip_with. lia.
    - destruct (decide (length src ≤ length ssl)) as [|Hgt]; [done|].
      destruct (lookup_lt_is_Some_2 src (length ssl)) as [row Hrow]; [lia|].
      destruct (Hrange _ _ Hrow) as (l & Hl%lookup_lt_Some & _). lia. }
  (* the longest sequence *)
  assert (Hperm : ssl ≡ₚ gl).
  { eapply take_along_permutation; [|exact Hssl]. apply descending_order_perm. }
  assert (Hglne : gl ≠ []) by (intros ->; done).
  destruct (torch_max_Ok gl Hglne) as (m & Hm & Hmin & Hmmax).
  assert (m = T_max) as -> by congruence.
  rewrite <- Hperm in Hmin, Hmmax.
  rewrite Forall_forall in Hpos, Hmmax.
  pose proof (Hpos _ Hmin) as HTpos.
  assert (Hhead : head ssl = Some T_max).
  { destruct ssl as [|l0 ssl'] eqn:E; [by apply elem_of_nil in Hmin|]. simpl.
    f_equal. apply StronglySorted_cons in Hss as [Hle _].
    rewrite Forall_forall in Hle.
    assert (l0 ≤ T_max)%Z by (apply Hmmax; by left).
    apply elem_of_cons in Hmin as [->|Hin]; [done|].
    specialize (Hle _ Hin). lia. }
  (* the time dimension *)
  set (M := max_list (length <$> (py_upto T_max <$> gathered))) in *.
  assert (HM : M = Z.to_nat T_max).
  { apply Nat.le_antisymm.
    - apply max_list_le. apply Forall_fmap, Forall_fmap, Forall_forall.
      intros s' _. simpl. rewrite py_upto_length by lia. lia.
    - apply list_elem_of_lookup in Hmin as [b Hb].
      destruct (lookup_lt_is_Some_2 src b) as [row Hrow].
      { rewrite Hlsrc', <- Hlssl. by eapply lookup_lt_Some. }
      destruct (Hrange _ _ Hrow) as (l & Hl & Hl').
      assert (l = T_max) as -> by congruence.
      assert (Hrb : (length <$> src) !! b = Some (length row))
        by by rewrite list_lookup_fmap, Hrow.
      rewrite Hlsrc, list_lookup_fmap in Hrb.
      destruct (mbatch !! b) as [row'|] eqn:Hrow'; simplify_eq/=.
      rewrite Forall_lookup in Hrows. rewrite <- (Hrows _ _ Hrow'). lia. }
  exists (Z.to_nat T_max), D.
  split; [by rewrite Z2Nat.id by lia|]. split; [lia|]. split.
  { destruct (decide (D = 0)) as [->|]; [|lia]. exfalso. apply Hnumel.
    apply numel_channels_0. rewrite Hreversed. unfold channels.
    apply Forall_lookup. intros b row' Hrow'.
    apply lookup_zip_with_Some in Hrow' as (row & l & -> & Hrow & Hl).
    apply reversed_row_channels. unfold channels in HD.
    rewrite Forall_lookup in HD. by eapply HD. }
  split; [done|]. split.
  { apply Forall_forall. intros l Hl. specialize (Hpos _ Hl).
    specialize (Hmmax _ Hl). lia. }
  split; [done|]. split; [by rewrite <- HM|].
  split; [done|]. split; [done|]. by rewrite <- Hreversed.
Qed.

(** ** Index fidelity *)

Lemma sorted_head_max (ssl : list Z) (m : Z) :
  StronglySorted (λ a b, (b ≤ a)%Z) ssl → torch_max ssl = Ok m →
  head ssl = Some m.
Proof.
  intros Hss Hm. destruct ssl as [|l0 ssl]; [done|]. simpl. f_equal.
  destruct (torch_max_Ok (l0 :: ssl)) as (m' & Hm' & Hin & Hmax); [done|].
  assert (m' = m) as -> by congruence.
  apply StronglySorted_cons in Hss as [Hle _].
  apply Forall_cons in Hmax as [Hl0 _].
  apply elem_of_cons in Hin as [->|Hin]; [done|].
  rewrite Forall_forall in Hle. specialize (Hle _ Hin). lia.
Qed.

Lemma max_list_length_nil {A : Type} (seqs : list (list A)) :
  Forall (λ s, s = []) seqs → max_list (length <$> seqs) = 0.
Proof.
  induction 1 as [|s seqs -> _ IH]; [done|]. rewrite fmap_cons. simpl.
  exact IH.
Qed.

(** A row of a padded gather is the gathered array, truncated and
    zero-padded, when the arrays agree on their channel count. *)
Lemma pad_gather_row (D : nat) (a : list (array2 F)) smi gathered T_max t b j :
  channels D a → (0 ≤ T_max)%Z →
  take_along a smi = Ok gathered →
  pad_sequence zero (py_upto T_max <$> gathered) = Ok t →
  smi !! b = Some j →
  ∃ s row, a !! j = Some s ∧ t !! b = Some row ∧
           padded_from zero D T_max row s.
Proof.
  intros Hc HT Hg Hpad Hj.
  destruct (take_along_lookup_idx _ _ _ _ _ Hg Hj) as (s & Hs & Has).
  assert (Hcg : channels D (py_upto T_max <$> gathered)).
  { unfold channels. apply Forall_fmap.
    eapply Forall_impl; [by eapply take_along_Forall|].
    intros s' Hs'. simpl. by apply py_upto_Forall. }
  destruct (pad_sequence_Ok zero D _ _ Hcg Hpad) as (Hne & ->).
  set (M := max_list (length <$> (py_upto T_max <$> gathered))).
  assert (HM : M ≤ Z.to_nat T_max).
  { apply max_list_le. apply Forall_fmap, Forall_fmap, Forall_forall.
    intros s' _. simpl. rewrite py_upto_length by done. lia. }
  assert (Hs_le : length (py_upto T_max s) ≤ M).
  { apply max_list_elem_of_le. apply list_elem_of_fmap.
    exists (py_upto T_max s). split; [done|].
    apply list_elem_of_fmap. exists s. split; [done|].
    by eapply list_elem_of_lookup_2. }
  assert (Hup : py_upto T_max s = take (Z.to_nat T_max) s).
  { unfold py_upto. by rewrite (proj2 (Z.ltb_ge T_max 0)) by lia. }
  exists s. eexists. split; [done|]. split.
  { rewrite !list_lookup_fmap, Hs. simpl. reflexivity. }
  fold M. split; [|split].
  - rewrite length_app, length_replicate. lia.
  - intros τ fr Hτ Hfr. apply lookup_app_l_Some. rewrite Hup.
    apply lookup_take_Some. split; [done|lia].
  - intros τ fr Hrow Hnone.
    apply lookup_app_Some in Hrow as [Hl|[Hge Hr]].
    + rewrite Hup in Hl. apply lookup_take_Some in Hl as [Hl _]. congruence.
    + apply lookup_replicate in Hr as [-> Hlt]. f_equal.
      apply trailing_dim_channels; [done|].
      intros Hnil%join_nil_1. apply max_list_length_nil in Hnil.
      fold M in Hnil. lia.
Qed.

Lemma get_mini_batch_row_of (D : nat) idx seqs lens fm static y ym ids u c
    (mb : MiniBatch F) (b i : nat) :
  channels D seqs → from_option (channels D) True fm →
  get_mini_batch zero idx seqs lens fm (Some static) y ym (Some ids) u c
    = Ok mb →
  source_indices mb !! b = Some i →
  ∃ j, j ∈ idx ∧ ids !! j = Some i ∧
       row_of zero D mb b seqs lens fm static y ym j.
Proof.
  intros Hcs Hcf Hmb Hi.
  destruct (get_mini_batch_row _ _ _ _ _ _ _ _ _ _ _ _ _ _ Hmb Hi)
    as (j & smi & T_max & gathered & Hj & Hids & Hsmi & Hst & Hl & Hy & Hym
        & HT & Hg & Hpad & Hfm).
  destruct (get_mini_batch_shape _ _ _ _ _ _ _ _ _ _ _ Hmb)
    as (T & D' & Hhead & HTpos & _ & _ & _ & Hss & Hrows & _).
  pose proof (sorted_head_max _ _ Hss HT) as Hhead'.
  assert (T_max = Z.of_nat T) as -> by congruence.
  exists j. split; [done|]. split; [done|].
  unfold row_of. split; [done|]. split; [done|]. split; [|by split].
  destruct (pad_gather_row D seqs smi gathered _ _ b j Hcs
              (Nat2Z.is_nonneg T) Hg Hpad Hsmi) as (s & row & Hs & Hrow & Hp).
  exists (Z.of_nat T), s, row.
  split; [done|]. split; [done|]. split; [done|]. split.
  { rewrite Forall_lookup in Hrows. by rewrite (Hrows _ _ Hrow). }
  split; [done|].
  destruct fm as [m|]; [|done]. simpl in Hcf.
  destruct Hfm as (gm & padded & Hgm & Hpm & Hmfm).
  destruct (pad_gather_row D m smi gm _ _ b j Hcf (Nat2Z.is_nonneg T)
              Hgm Hpm Hsmi) as (sm & rowm & Hsm & Hrowm & Hpm').
  by exists padded, sm, rowm.
Qed.

Lemma row_of_kept (D : nat) seqs lens fm st y ym max_len
    (kept : Kept (F := F)) (mb : MiniBatch F) (b j i : nat) :
  batchify_keep seqs lens fm st y ym max_len = Ok kept →
  keep_index kept !! j = Some i →
  row_of zero D mb b (kept_sequences kept) (kept_seq_lengths kept)
    (kept_feature_mask kept) (kept_static kept) (kept_y kept)
    (kept_y_mask kept) j →
  row_of zero D mb b seqs lens fm st y ym i.
Proof.
  intros (Hkeep & Hst & Hseqs & Hlens & Hfm & Hy & Hym)%batchify_keep_inv Hj.
  intros ((row & Hrow & Hkst) & (l & Hl & Hkl)
          & (T_max & s & srow & Hhead & Hs & Hsrow & Hlen & Hpad & Hmask)
          & Hyr & Hymr).
  unfold row_of. split; [|split; [|split; [|split]]].
  - exists row. split; [done|].
    by rewrite <- (take_along_lookup _ _ _ _ _ Hst Hj).
  - exists l. split; [done|].
    by rewrite <- (take_along_lookup _ _ _ _ _ Hlens Hj).
  - exists T_max, s, srow. split; [done|].
    split; [by rewrite <- (take_along_lookup _ _ _ _ _ Hseqs Hj)|].
    split; [done|]. split; [done|]. split; [done|].
    destruct fm as [m|]; simpl in Hfm.
    + apply fmap_Ok in Hfm as (km & Hkm & Hkfm). rewrite Hkfm in Hmask.
      destruct Hmask as (fmb & sm & rowm & Hfmb & Hsm & Hrowm & Hp).
      exists fmb, sm, rowm. split; [done|].
      split; [by rewrite <- (take_along_lookup _ _ _ _ _ Hkm Hj)|]. done.
    + injection Hfm as Hnone. by rewrite <- Hnone in Hmask.
  - by eapply optional_row_kept.
  - by eapply optional_row_kept.
Qed.

(** C2.  In every mini-batch returned by [batchify] on a dataset whose
    sequences (and feature masks) have [D] channels, the last returned
    element at row [b] is the original dataset index of the example whose
    data fills row [b] of every per-example array: the static row, the
    length, the sequence truncated to [T_max] and zero-padded to [T_max]
    time steps, and y, y_mask and feature_mask when present; and every
    per-example array has as many rows as there are indices. *)
Theorem batchify_index_fidelity (D : nat) seqs lens fm st y ym max_len
    batch_size u c batches (mb : MiniBatch F) (b i : nat) :
  channels D seqs → from_option (channels D) True fm →
  batchify zero seqs lens fm st y ym max_len batch_size u c = Ok batches →
  mb ∈ batches →
  source_indices mb !! b = Some i →
  row_of zero D mb b seqs lens fm st y ym i ∧
  row_count mb (length (source_indices mb)).
Proof.
  intros Hcs Hcf Hb [k Hk]%list_elem_of_lookup Hi.
  destruct (batchify_batch _ _ _ _ _ _ _ _ _ _ _ _ _ _ Hb Hk)
    as (kept & Hkept & Hmb). simpl in Hmb.
  split.
  - pose proof (batchify_keep_inv _ _ _ _ _ _ _ _ Hkept)
      as (_ & _ & Hseqs & _ & Hfm & _).
    assert (Hcks : channels D (kept_sequences kept))
      by (by eapply take_along_Forall).
    assert (Hckf : from_option (channels D) True (kept_feature_mask kept)).
    { destruct fm as [m|]; simpl in Hfm.
      - apply fmap_Ok in Hfm as (km & Hkm & Hkfm). rewrite Hkfm. simpl.
        simpl in Hcf. exact (take_along_Forall _ _ _ _ Hcf Hkm).
      - by injection Hfm as <-. }
    destruct (get_mini_batch_row_of D _ _ _ _ _ _ _ _ _ _ _ _ _ Hcks Hckf
                Hmb Hi) as (j & _ & Hj & Hrow).
    by eapply row_of_kept.
  - pose proof (get_mini_batch_row_count _ _ _ _ _ _ _ _ _ _ _ _ Hmb) as Hc.
    destruct Hc as [Hlen Hc]. rewrite Hlen. by split.
Qed.

(** X3.  Every mini-batch that [get_mini_batch] returns is dense and not
    empty: it has one row per requested index, at least one; the lengths
    are between 1 and the largest one, [T_max], which comes first; and
    every row of the padded sequence has exactly [T_max] time steps. *)
Theorem get_mini_batch_dense idx seqs lens fm st y ym ids u c
    (mb : MiniBatch F) :
  get_mini_batch zero idx seqs lens fm st y ym ids u c = Ok mb →
  ∃ T_max : nat,
    head (sorted_seq_lengths mb) = Some (Z.of_nat T_max) ∧
    0 < T_max ∧
    idx ≠ [] ∧
    row_count mb (length idx) ∧
    Forall (λ l, (1 ≤ l ≤ Z.of_nat T_max)%Z) (sorted_seq_lengths mb) ∧
    Forall (λ row, length row = T_max) (mini_batch mb).
Proof.
  intros Hmb.
  destruct (get_mini_batch_shape _ _ _ _ _ _ _ _ _ _ _ Hmb)
    as (T & D & Hhead & HT & _ & Hlen & Hrange & _ & Hrows & _).
  pose proof (get_mini_batch_row_count _ _ _ _ _ _ _ _ _ _ _ _ Hmb) as Hcount.
  exists T. split; [done|]. split; [done|]. split.
  - intros ->. destruct Hcount as (_ & _ & _ & _ & Hl & _). simpl in Hl.
    destruct (sorted_seq_lengths mb); done.
  - split; [done|]. split; [|done].
    eapply Forall_impl; [exact Hrange|]. simpl. lia.
Qed.

(** X4.  The mask of every mini-batch that [get_mini_batch] returns is
    determined by the sorted lengths alone: row [b] is
    [sorted_seq_lengths[b]] ones followed by zeros up to [T_max]. *)
Theorem get_mini_batch_mask_field idx seqs lens fm st y ym ids u c
    (mb : MiniBatch F) :
  get_mini_batch zero idx seqs lens fm st y ym ids u c = Ok mb →
  ∃ T_max : nat,
    head (sorted_seq_lengths mb) = Some (Z.of_nat T_max) ∧
    mini_batch_mask mb
    = (λ l, replicate (Z.to_nat l) 1%Z ++ replicate (T_max - Z.to_nat l) 0%Z)
        <$> sorted_seq_lengths mb.
Proof.
  intros Hmb.
  destruct (get_mini_batch_shape _ _ _ _ _ _ _ _ _ _ _ Hmb)
    as (T & D & Hhead & HT & _ & Hlen & Hrange & _ & Hrows & _).
  apply get_mini_batch_inv in Hmb
    as (_ & _ & _ & _ & _ & _ & _ & _ & _ & _ & _ & _ & _ & _ & _ & Hmask & _).
  exists T. split; [done|].
  rewrite Forall_lookup in Hrange. rewrite Forall_lookup in Hrows.
  rewrite get_mini_batch_mask_rows in Hmask.
  - injection Hmask as <-. apply list_eq. intros b.
    rewrite lookup_zip_with, list_lookup_fmap.
    destruct (mini_batch mb !! b) as [row|] eqn:Hrow; simpl.
    + destruct (sorted_seq_lengths mb !! b) as [l|]; simpl; [|done].
      by rewrite (Hrows _ _ Hrow).
    + apply lookup_ge_None in Hrow. rewrite lookup_ge_None_2 by lia. done.
  - done.
  - apply Forall2_same_length_lookup_2; [lia|].
    intros b row l Hrow Hl. rewrite (Hrows _ _ Hrow).
    specialize (Hrange _ _ Hl). lia.
Qed.

(** X5.  Unpacking what [get_mini_batch] packed: [pad_and_reverse] on the
    packed field and the sorted lengths of a returned mini-batch gives
    the dense batch that was packed (the padded sequence, with the
    feature mask appended when it is fused), in forward time order, with
    everything beyond each row's length set to zero. *)
Theorem get_mini_batch_unpack idx seqs lens fm st y ym ids u c
    (mb : MiniBatch F) :
  get_mini_batch zero idx seqs lens fm st y ym ids u c = Ok mb →
  pad_and_reverse zero (mini_batch_reversed_with_mask mb)
    (sorted_seq_lengths mb)
  = Ok (zip_with (zero_beyond zero) (packed_source mb u)
          (sorted_seq_lengths mb)).
Proof.
  intros Hmb.
  destruct (get_mini_batch_shape _ _ _ _ _ _ _ _ _ _ _ Hmb)
    as (T & D & Hhead & HT & HD & Hlen & Hrange & Hss & Hrows & Hlsrc & Hc
        & Hpack).
  set (ssl := sorted_seq_lengths mb) in *.
  set (src := packed_source mb u) in *.
  set (r := zip_with (reversed_row zero) src ssl) in *.
  assert (Hsrcrow : ∀ b row, src !! b = Some row →
            length row = T ∧ Forall (λ fr, length fr = D) row ∧
            ∃ l, ssl !! b = Some l ∧ (0 < l ≤ Z.of_nat T)%Z).
  { intros b row Hrow.
    assert (Hrb : (length <$> src) !! b = Some (length row))
      by by rewrite list_lookup_fmap, Hrow.
    rewrite Hlsrc, list_lookup_fmap in Hrb.
    destruct (mini_batch mb !! b) as [row'|] eqn:Hrow'; simplify_eq/=.
    rewrite Forall_lookup in Hrows. split; [by rewrite <- (Hrows _ _ Hrow')|].
    split; [unfold channels in Hc; rewrite Forall_lookup in Hc; by eapply Hc|].
    destruct (lookup_lt_is_Some_2 ssl b) as [l Hl].
    { rewrite Hlen. by eapply lookup_lt_Some. }
    exists l. split; [done|]. rewrite Forall_lookup in Hrange. by eapply Hrange. }
  assert (Hr : ∀ b row', r !! b = Some row' →
            ∃ row l, src !! b = Some row ∧ ssl !! b = Some l ∧
                     row' = reversed_row zero row l).
  { intros b row' Hrow'. unfold r in Hrow'.
    apply lookup_zip_with_Some in Hrow' as (row & l & -> & Hrow & Hl).
    by exists row, l. }
  assert (Hlsrc' : length src = length (mini_batch mb)).
  { by rewrite <- (length_fmap length src), Hlsrc, length_fmap. }
  destruct (pad_packed_pack zero r ssl (length ssl) T D)
    as (p & lens' & Hp & Hunpack).
  - split; [unfold r; rewrite length_zip_with; lia|].
    apply Forall_lookup. intros b row' (row & l & Hrow & Hl & ->)%Hr.
    destruct (Hsrcrow _ _ Hrow) as (HTrow & Hfr & _).
    split; [by rewrite reversed_row_length|by apply reversed_row_channels].
  - done.
  - done.
  - done.
  - done.
  - done.
  - intros b t l row' Hl (row & l' & Hrow & Hl' & ->)%Hr Hlt Ht.
    assert (l' = l) as -> by congruence.
    destruct (Hsrcrow _ _ Hrow) as (HTrow & Hfr & l' & Hl'' & Hlr).
    assert (l' = l) as -> by congruence.
    apply (reversed_row_zero zero D); [done|lia..].
  - assert (p = mini_batch_reversed_with_mask mb) as <- by congruence.
    unfold pad_and_reverse. rewrite Hunpack. simpl.
    rewrite reverse_sequences_closed.
    + simpl. f_equal. apply list_eq. intros b.
      unfold r. rewrite !lookup_zip_with.
      destruct (src !! b) as [row|] eqn:Hrow; simpl; [|done].
      destruct (ssl !! b) as [l|] eqn:Hl; simpl; [|done].
      f_equal. apply reversed_row_twice.
      destruct (Hsrcrow _ _ Hrow) as (HTrow & _ & l' & Hl' & Hlr).
      assert (l' = l) as -> by congruence. lia.
    + intros b row' (row & l & Hrow & Hl & ->)%Hr.
      exists l. split; [done|]. rewrite reversed_row_length.
      destruct (Hsrcrow _ _ Hrow) as (HTrow & _ & l' & Hl' & Hlr).
      assert (l' = l) as -> by congruence. lia.
Qed.

(** ** The size of the packed field *)

Lemma pack_sizes (r : tensor3 F) (L : list Z) (p : PackedSequence F)
    (T : nat) :
  pack_padded_sequence r L = Ok p →
  head L = Some (Z.of_nat T) →
  (∀ b t, b < length L → t < T → is_Some (entry r b t)) →
  batch_sizes p = alive L <$> seq 0 T ∧
  length (data p) = sum_list_with (alive L) (seq 0 T).
Proof.
  intros (_ & Hlen & _ & _ & ->)%pack_padded_sequence_Ok Hhead Hentry.
  simpl. rewrite Hhead. simpl. rewrite Nat2Z.id. split; [done|].
  rewrite length_bind. apply sum_list_with_ext. intros t Ht%elem_of_seq.
  rewrite length_bind_option_list, length_seq; [done|].
  apply Forall_seq. intros b Hb. apply Hentry; [|lia].
  assert (alive L t ≤ length L) by apply length_filter. lia.
Qed.

(** X6.  Packing drops the padding and nothing else.  In every returned
    mini-batch the packed field holds one frame per valid time step, that
    is as many frames as the sorted lengths add up to; it has one batch
    size per time step up to [T_max], the first of which is the number
    of rows. *)
Theorem get_mini_batch_packed_size idx seqs lens fm st y ym ids u c
    (mb : MiniBatch F) :
  get_mini_batch zero idx seqs lens fm st y ym ids u c = Ok mb →
  let packed := mini_batch_reversed_with_mask mb in
  length (data packed) = sum_list_with Z.to_nat (sorted_seq_lengths mb) ∧
  sum_list (batch_sizes packed) = length (data packed) ∧
  head (batch_sizes packed) = Some (length idx) ∧
  head (sorted_seq_lengths mb) = Some (Z.of_nat (length (batch_sizes packed))).
Proof.
  intros Hmb packed.
  destruct (get_mini_batch_shape _ _ _ _ _ _ _ _ _ _ _ Hmb)
    as (T & D & Hhead & HT & HD & Hlen & Hrange & Hss & Hrows & Hlsrc & Hc
        & Hpack).
  pose proof (get_mini_batch_row_count _ _ _ _ _ _ _ _ _ _ _ _ Hmb)
    as (_ & _ & _ & _ & Hlidx & _).
  set (ssl := sorted_seq_lengths mb) in *.
  set (src := packed_source mb u) in *.
  destruct (pack_sizes _ ssl _ T Hpack Hhead) as [Hsizes Hdata].
  { intros b t Hb Ht. unfold entry. rewrite lookup_zip_with.
    assert (Hlsrc' : length src = length (mini_batch mb)).
    { by rewrite <- (length_fmap length src), Hlsrc, length_fmap. }
    destruct (lookup_lt_is_Some_2 src b) as [row Hrow]; [lia|].
    destruct (lookup_lt_is_Some_2 ssl b) as [l Hl]; [lia|].
    rewrite Hrow, Hl. simpl. apply lookup_lt_is_Some_2.
    rewrite reversed_row_length.
    assert (Hrb : (length <$> src) !! b = Some (length row))
      by by rewrite list_lookup_fmap, Hrow.
    rewrite Hlsrc, list_lookup_fmap in Hrb.
    destruct (mini_batch mb !! b) as [row'|] eqn:Hrow'; simplify_eq/=.
    rewrite Forall_lookup in Hrows. rewrite <- Hrb, (Hrows _ _ Hrow'). done. }
  fold packed in Hsizes, Hdata.
  assert (Hsum : sum_list_with (alive ssl) (seq 0 T)
                 = sum_list_with Z.to_nat ssl).
  { apply sum_alive. eapply Forall_impl; [exact Hrange|]. simpl. lia. }
  split; [by rewrite Hdata|]. split; [|split].
  - by rewrite Hsizes, Hdata, sum_list_fmap.
  - rewrite Hsizes. destruct T as [|T']; [lia|]. simpl. f_equal.
    rewrite <- Hlidx. unfold alive. rewrite filter_all; [done|].
    eapply Forall_impl; [exact Hrange|]. simpl. lia.
  - by rewrite Hsizes, length_fmap, length_seq.
Qed.

(** ** batchify: sizes, fields and order *)

(** X7.  [batchify] with a degenerate batch size, on a dataset whose
    filter step goes through: [batch_size = 0] raises ZeroDivisionError,
    and a negative [batch_size] returns the empty list, however many
    examples were kept. *)
Theorem batchify_degenerate_batch_size seqs lens fm st y ym max_len
    batch_size u c :
  leading_dims_cover (F := F) seqs lens fm st y ym →
  (batch_size = 0%Z →
   batchify zero seqs lens fm st y ym max_len batch_size u c
     = Err ZeroDivisionError) ∧
  ((batch_size < 0)%Z →
   batchify zero seqs lens fm st y ym max_len batch_size u c = Ok []).
Proof.
  intros Hcover.
  destruct (batchify_keep_total seqs lens fm st y ym max_len Hcover)
    as [kept Hkept].
  unfold batchify. rewrite Hkept. simpl. unfold batchify_batches.
  split.
  - intros ->. done.
  - intros Hneg. unfold N_mini_batches.
    rewrite (proj2 (Z.eqb_neq batch_size 0)) by lia. simpl.
    set (N := Z.of_nat (length (kept_seq_lengths kept))).
    assert (N ÷ batch_size ≤ 0)%Z as Hq.
    { replace batch_size with (- - batch_size)%Z by lia.
      rewrite Z.quot_opp_r by lia.
      pose proof (Z.quot_pos N (- batch_size) ltac:(lia) ltac:(lia)). lia. }
    pose proof (Z.mod_neg_bound N batch_size Hneg) as Hm.
    rewrite (proj2 (Z.ltb_ge 0 (N `mod` batch_size))) by lia.
    unfold py_range. by replace (Z.to_nat (N ÷ batch_size + 0)) with 0 by lia.
Qed.

Lemma take_optional_is_Some {A : Type} (x : option (list A)) idx out :
  take_optional x idx = Ok out → is_Some out ↔ is_Some x.
Proof.
  destruct x as [v|]; simpl.
  - intros (w & _ & ->)%fmap_Ok. split; by eexists.
  - by intros [= <-].
Qed.

(** X8.  Optional arrays stay what they were: a mini-batch returned by
    [batchify] has a feature mask, a y and a y_mask exactly when the
    dataset has one; an absent array is never replaced by a filled one. *)
Theorem batchify_optional_fields seqs lens fm st y ym max_len batch_size u c
    batches (mb : MiniBatch F) :
  batchify zero seqs lens fm st y ym max_len batch_size u c = Ok batches →
  mb ∈ batches →
  (is_Some (mini_batch_feature_mask mb) ↔ is_Some fm) ∧
  (is_Some (y_mini_batch mb) ↔ is_Some y) ∧
  (is_Some (y_mask_mini_batch mb) ↔ is_Some ym).
Proof.
  intros Hb [k Hk]%list_elem_of_lookup.
  destruct (batchify_batch _ _ _ _ _ _ _ _ _ _ _ _ _ _ Hb Hk)
    as (kept & Hkept & Hmb). simpl in Hmb.
  apply batchify_keep_inv in Hkept as (_ & _ & _ & _ & Hfm & Hy & Hym).
  apply get_mini_batch_inv in Hmb
    as (_ & smi & T_max & _ & _ & _ & reversed & _ & _ & _ & _ & _ & _ & _
        & _ & _ & Hymb & Hymmb & Hpol & _).
  split; [|split].
  - rewrite <- (take_optional_is_Some _ _ _ Hfm).
    apply feature_mask_policy_inv in Hpol.
    destruct (kept_feature_mask kept) as [m|].
    + destruct Hpol as (_ & padded & _ & _ & -> & _). split; by eexists.
    + destruct Hpol as [-> _]. done.
  - rewrite (take_optional_is_Some _ _ _ Hymb).
    apply (take_optional_is_Some _ _ _ Hy).
  - rewrite (take_optional_is_Some _ _ _ Hymmb).
    apply (take_optional_is_Some _ _ _ Hym).
Qed.

(** X9.  No mini-batch returned by [batchify] holds an example that is
    empty or longer than [max_len]: every sorted length lies in
    [(0, max_len]], and no row of the padded sequence has more than
    [max_len] time steps. *)
Theorem batchify_lengths_bounded seqs lens fm st y ym max_len batch_size u c
    batches (mb : MiniBatch F) :
  batchify zero seqs lens fm st y ym max_len batch_size u c = Ok batches →
  mb ∈ batches →
  Forall (λ l, (0 < l ≤ max_len)%Z) (sorted_seq_lengths mb) ∧
  Forall (λ row, (Z.of_nat (length row) ≤ max_len)%Z) (mini_batch mb).
Proof.
  intros Hb [k Hk]%list_elem_of_lookup.
  destruct (batchify_batch _ _ _ _ _ _ _ _ _ _ _ _ _ _ Hb Hk)
    as (kept & Hkept & Hmb). simpl in Hmb.
  assert (Hlens : Forall (λ l, (0 < l ≤ max_len)%Z) (sorted_seq_lengths mb)).
  { apply Forall_lookup. intros b l Hl.
    pose proof (get_mini_batch_row_count _ _ _ _ _ _ _ _ _ _ _ _ Hmb)
      as (Hls & _ & _ & _ & Hlssl & _).
    destruct (lookup_lt_is_Some_2 (source_indices mb) b) as [i Hi].
    { rewrite Hls, <- Hlssl. by eapply lookup_lt_Some. }
    destruct (get_mini_batch_row _ _ _ _ _ _ _ _ _ _ _ _ _ _ Hmb Hi)
      as (j & _ & _ & _ & _ & Hj & _ & _ & (l' & Hl' & Hkl) & _).
    assert (l' = l) as -> by congruence.
    pose proof (batchify_keep_inv _ _ _ _ _ _ _ _ Hkept)
      as (Hkeep & _ & _ & Hklens & _).
    rewrite (take_along_lookup _ _ _ _ _ Hklens Hj) in Hkl.
    assert (Hin : i ∈ np_where (keep_mask lens max_len)).
    { rewrite <- Hkeep. by eapply list_elem_of_lookup_2. }
    apply keep_index_elem in Hin as (l'' & Hl'' & Hbound).
    by assert (l'' = l) as -> by congruence. }
  split; [done|].
  destruct (get_mini_batch_shape _ _ _ _ _ _ _ _ _ _ _ Hmb)
    as (T & D & Hhead & _ & _ & _ & _ & _ & Hrows & _).
  eapply Forall_impl; [exact Hrows|]. intros row ->. simpl.
  destruct (sorted_seq_lengths mb) as [|l0 ssl]; [done|].
  injection Hhead as ->. apply Forall_cons in Hlens as [? _]. lia.
Qed.

(** [get_mini_batch] on an empty list of indices raises (the
    maximum of no lengths does not exist) whatever the dataset: it never
    returns a mini-batch without rows. *)
Theorem get_mini_batch_empty seqs lens fm st y ym ids u c :
  get_mini_batch (F := F) zero [] seqs lens fm st y ym ids u c
  = Err RuntimeError.
Proof.
  unfold get_mini_batch. simpl.
  pose proof (descending_order_length []) as Hlen.
  destruct (descending_order []); [reflexivity|discriminate Hlen].
Qed.

Lemma py_slice_elem {A : Type} (a : list A) (start stop : Z) (x : A) :
  (0 ≤ start)%Z → x ∈ py_slice a start stop →
  ∃ j, a !! j = Some x ∧ (start ≤ Z.of_nat j < stop)%Z.
Proof.
  intros Hs [p Hp]%list_elem_of_lookup. unfold py_slice in Hp.
  apply lookup_take_Some in Hp as [Hp Hlt]. rewrite lookup_drop in Hp.
  exists (Z.to_nat start + p). split; [done|]. lia.
Qed.

(** X10.  [batchify] keeps the dataset order between mini-batches: every
    example of an earlier mini-batch has a smaller dataset index than
    every example of a later one. *)
Theorem batchify_batches_ordered seqs lens fm st y ym max_len batch_size u c
    batches (mb mb' : MiniBatch F) (k k' i i' : nat) :
  (1 ≤ batch_size)%Z →
  batchify zero seqs lens fm st y ym max_len batch_size u c = Ok batches →
  k < k' → batches !! k = Some mb → batches !! k' = Some mb' →
  i ∈ source_indices mb → i' ∈ source_indices mb' →
  i < i'.
Proof.
  intros Hbs Hb Hkk Hk Hk' Hi Hi'.
  destruct (batchify_chunk _ _ _ _ _ _ _ _ _ _ _ _ _ _ Hbs Hb Hk)
    as [_ Hperm].
  destruct (batchify_chunk _ _ _ _ _ _ _ _ _ _ _ _ _ _ Hbs Hb Hk')
    as [_ Hperm'].
  rewrite Hperm in Hi. rewrite Hperm' in Hi'.
  apply py_slice_elem in Hi as (j & Hj & Hjr); [|lia].
  apply py_slice_elem in Hi' as (j' & Hj' & Hjr'); [|lia].
  eapply (StronglySorted_lookup lt _ j j');
    [apply np_where_from_sorted| |exact Hj|exact Hj'].
  nia.
Qed.

End Pipeline.

Lemma batchify_index_fidelity_witness :
  ∃ batches mb,
    batchify 0%Z [[[1]; [2]; [3]]; []; [[4]; [5]]; [[6]]]%Z [2; 0; 2; 1]%Z
      (Some [[[1]; [1]; [0]]; []; [[0]; [1]]; [[1]]]%Z)
      [[10]; [20]; [30]; [40]]%Z (Some [7; 8; 9; 6]%Z) None 2 2 true false
      = Ok batches ∧
    batches !! 0 = Some mb ∧
    source_indices mb = [2; 0] ∧
    row_of 0%Z 1 mb 1 [[[1]; [2]; [3]]; []; [[4]; [5]]; [[6]]]%Z
      [2; 0; 2; 1]%Z (Some [[[1]; [1]; [0]]; []; [[0]; [1]]; [[1]]]%Z)
      [[10]; [20]; [30]; [40]]%Z (Some [7; 8; 9; 6]%Z) None 0 ∧
    row_count mb (length (source_indices mb)).
Proof.
  eexists. eexists. split; [reflexivity|]. split; [reflexivity|].
  split; [reflexivity|].
  eapply (batchify_index_fidelity 0%Z 1
            [[[1]; [2]; [3]]; []; [[4]; [5]]; [[6]]]%Z [2; 0; 2; 1]%Z
            (Some [[[1]; [1]; [0]]; []; [[0]; [1]]; [[1]]]%Z)
            [[10]; [20]; [30]; [40]]%Z (Some [7; 8; 9; 6]%Z) None 2%Z 2%Z
            true false).
  - repeat constructor.
  - repeat constructor.
  - reflexivity.
  - apply list_elem_of_here.
  - reflexivity.
Defined.

Lemma reverse_sequences_twice_witness :
  ∃ reversed,
    reverse_sequences 0%Z [[[1]; [2]; [3]]; [[4]; [5]; [6]]]%Z [3; 1]%Z
      = Ok reversed ∧
    reverse_sequences 0%Z reversed [3; 1]%Z
      = Ok (zip_with (zero_beyond 0%Z) [[[1]; [2]; [3]]; [[4]; [5]; [6]]]%Z
              [3; 1]%Z).
Proof.
  apply (reverse_sequences_twice 0%Z [[[1]; [2]; [3]]; [[4]; [5]; [6]]]%Z
           [3; 1]%Z).
  intros [|[|b]] row Hrow; simplify_eq/=; eexists; (split; [reflexivity|lia]).
Defined.

Lemma get_mini_batch_dense_witness :
  ∃ mb T_max,
    get_mini_batch 0%Z [0; 2; 3] ex_sequences ex_seq_lengths
      (Some ex_feature_mask) (Some ex_static) (Some ex_y) None
      (Some [0; 1; 2; 3; 4; 5]) true false = Ok mb ∧
    head (sorted_seq_lengths mb) = Some (Z.of_nat T_max) ∧
    0 < T_max ∧
    [0; 2; 3] ≠ [] ∧
    row_count mb (length [0; 2; 3]) ∧
    Forall (λ l, (1 ≤ l ≤ Z.of_nat T_max)%Z) (sorted_seq_lengths mb) ∧
    Forall (λ row, length row = T_max) (mini_batch mb).
Proof.
  eexists.
  edestruct (get_mini_batch_dense 0%Z [0; 2; 3] ex_sequences ex_seq_lengths
               (Some ex_feature_mask) (Some ex_static) (Some ex_y) None
               (Some [0; 1; 2; 3; 4; 5]) true false)
    as (T_max & H); [reflexivity|].
  exists T_max. split; [reflexivity|exact H].
Defined.

Lemma get_mini_batch_mask_field_witness :
  ∃ mb T_max,
    get_mini_batch 0%Z [0; 2; 3] ex_sequences ex_seq_lengths None
      (Some ex_static) None None (Some [0; 1; 2; 3; 4; 5]) false false
      = Ok mb ∧
    head (sorted_seq_lengths mb) = Some (Z.of_nat T_max) ∧
    mini_batch_mask mb
    = (λ l, replicate (Z.to_nat l) 1%Z ++ replicate (T_max - Z.to_nat l) 0%Z)
        <$> sorted_seq_lengths mb.
Proof.
  eexists.
  edestruct (get_mini_batch_mask_field 0%Z [0; 2; 3] ex_sequences
               ex_seq_lengths None (Some ex_static) None None
               (Some [0; 1; 2; 3; 4; 5]) false false)
    as (T_max & H); [reflexivity|].
  exists T_max. split; [reflexivity|exact H].
Defined.

Lemma get_mini_batch_unpack_witness :
  ∃ mb,
    get_mini_batch 0%Z [0; 2; 3] ex_sequences ex_seq_lengths
      (Some ex_feature_mask) (Some ex_static) None None
      (Some [0; 1; 2; 3; 4; 5]) true false = Ok mb ∧
    pad_and_reverse 0%Z (mini_batch_reversed_with_mask mb)
      (sorted_seq_lengths mb)
    = Ok (zip_with (zero_beyond 0%Z) (packed_source mb true)
            (sorted_seq_lengths mb)).
Proof.
  eexists. split; [reflexivity|].
  apply (get_mini_batch_unpack 0%Z [0; 2; 3] ex_sequences ex_seq_lengths
           (Some ex_feature_mask) (Some ex_static) None None
           (Some [0; 1; 2; 3; 4; 5]) true false).
  reflexivity.
Defined.

Lemma get_mini_batch_packed_size_witness :
  ∃ mb,
    get_mini_batch 0%Z [0; 2; 3] ex_sequences ex_seq_lengths None
      (Some ex_static) None None (Some [0; 1; 2; 3; 4; 5]) false false
      = Ok mb ∧
    let packed := mini_batch_reversed_with_mask mb in
    length (data packed) = sum_list_with Z.to_nat (sorted_seq_lengths mb) ∧
    sum_list (batch_sizes packed) = length (data packed) ∧
    head (batch_sizes packed) = Some (length [0; 2; 3]) ∧
    head (sorted_seq_lengths mb)
      = Some (Z.of_nat (length (batch_sizes packed))).
Proof.
  eexists. split; [reflexivity|].
  apply (get_mini_batch_packed_size 0%Z [0; 2; 3] ex_sequences ex_seq_lengths
           None (Some ex_static) None None (Some [0; 1; 2; 3; 4; 5])
           false false).
  reflexivity.
Defined.

Lemma ex_leading_dims_cover :
  leading_dims_cover ex_sequences ex_seq_lengths (Some ex_feature_mask)
    ex_static (Some ex_y) None.
Proof. repeat split; simpl; lia. Qed.

Lemma batchify_degenerate_batch_size_witness :
  (-2 = 0 →
   batchify 0%Z ex_sequences ex_seq_lengths (Some ex_feature_mask) ex_static
     (Some ex_y) None 3 (-2) true false = Err ZeroDivisionError)%Z ∧
  ((-2 < 0)%Z →
   batchify 0%Z ex_sequences ex_seq_lengths (Some ex_feature_mask) ex_static
     (Some ex_y) None 3 (-2) true false = Ok []).
Proof.
  apply (batchify_degenerate_batch_size 0%Z ex_sequences ex_seq_lengths
           (Some ex_feature_mask) ex_static (Some ex_y) None 3%Z (-2)%Z
           true false).
  repeat split; simpl; lia.
Defined.

Lemma batchify_optional_fields_witness :
  ∃ batches mb,
    batchify 0%Z ex_sequences ex_seq_lengths (Some ex_feature_mask) ex_static
      (Some ex_y) None 3 3 false false = Ok batches ∧
    batches !! 1 = Some mb ∧
    (is_Some (mini_batch_feature_mask mb) ↔ is_Some (Some ex_feature_mask)) ∧
    (is_Some (y_mini_batch mb) ↔ is_Some (Some ex_y)) ∧
    (is_Some (y_mask_mini_batch mb) ↔ is_Some (@None (list Z))).
Proof.
  eexists. eexists. split; [reflexivity|]. split; [reflexivity|].
  eapply (batchify_optional_fields 0%Z ex_sequences ex_seq_lengths
            (Some ex_feature_mask) ex_static (Some ex_y) None 3%Z 3%Z
            false false).
  - reflexivity.
  - apply list_elem_of_further, list_elem_of_here.
Defined.

Lemma batchify_lengths_bounded_witness :
  ∃ batches mb,
    batchify 0%Z ex_sequences ex_seq_lengths (Some ex_feature_mask) ex_static
      (Some ex_y) None 3 3 false false = Ok batches ∧
    batches !! 0 = Some mb ∧
    Forall (λ l, (0 < l ≤ 3)%Z) (sorted_seq_lengths mb) ∧
    Forall (λ row, (Z.of_nat (length row) ≤ 3)%Z) (mini_batch mb).
Proof.
  eexists. eexists. split; [reflexivity|]. split; [reflexivity|].
  eapply (batchify_lengths_bounded 0%Z ex_sequences ex_seq_lengths
            (Some ex_feature_mask) ex_static (Some ex_y) None 3%Z 3%Z
            false false).
  - reflexivity.
  - apply list_elem_of_here.
Defined.

Lemma batchify_batches_ordered_witness :
  ∃ batches mb mb',
    batchify 0%Z ex_sequences ex_seq_lengths (Some ex_feature_mask) ex_static
      (Some ex_y) None 3 3 false false = Ok batches ∧
    batches !! 0 = Some mb ∧ batches !! 1 = Some mb' ∧
    3 ∈ source_indices mb ∧ 4 ∈ source_indices mb' ∧ 3 < 4.
Proof.
  eexists. eexists. eexists.
  split; [reflexivity|]. split; [reflexivity|]. split; [reflexivity|].
  assert (H3 : 3 ∈ [2; 0; 3]) by (do 2 apply list_elem_of_further; apply list_elem_of_here).
  assert (H4 : 4 ∈ [4]) by apply list_elem_of_here.
  split; [exact H3|]. split; [exact H4|].
  eapply (batchify_batches_ordered 0%Z ex_sequences ex_seq_lengths
            (Some ex_feature_mask) ex_static (Some ex_y) None 3%Z 3%Z
            false false _ _ _ 0 1 3 4);
    [lia|reflexivity|lia|reflexivity|reflexivity|exact H3|exact H4].
Defined.

(** * The sizes of the MLP of Predicter_Attention *)

Example split_on_example :
  split_on "-"%char "48-24-12" = ["48"; "24"; "12"] ∧
  split_on "-"%char "48--12" = ["48"; ""; "12"] ∧
  split_on "-"%char "" = [""].
Proof. repeat split. Qed.

Lemma split_on_nonempty sep s : split_on sep s ≠ [].
Proof.
  destruct s as [|ch s]; simpl; [done|].
  case_decide; [done|]. by destruct (split_on sep s).
Qed.

(** Splitting at a separator splits the list of fields:
    [(u + sep + v).split(sep) == u.split(sep) + v.split(sep)]. *)
Lemma split_on_app sep u v :
  split_on sep (u +:+ String sep v) = split_on sep u ++ split_on sep v.
Proof.
  induction u as [|ch u IH]; simpl.
  - by rewrite decide_True.
  - case_decide; [by rewrite IH|]. rewrite IH.
    pose proof (split_on_nonempty sep u).
    by destruct (split_on sep u).
Qed.

(** Joining the fields with the separator gives the string back:
    [sep.join(s.split(sep)) == s]. *)
Lemma split_on_join sep s : join_with sep (split_on sep s) = s.
Proof.
  induction s as [|ch s IH]; simpl; [done|].
  pose proof (split_on_nonempty sep s) as Hne.
  case_decide as Hch.
  - subst ch. destruct (split_on sep s) as [|w ws]; [done|].
    simpl in *. by rewrite IH.
  - destruct (split_on sep s) as [|w ws]; [done|].
    destruct ws; simpl in *; by rewrite <- IH.
Qed.

(** No field contains the separator. *)
Lemma split_on_fields sep s w :
  w ∈ split_on sep s → ∀ u v, w ≠ u +:+ String sep v.
Proof.
  revert w. induction s as [|ch s IH]; simpl; intros w Hw u v.
  - apply list_elem_of_singleton in Hw as ->. by destruct u.
  - pose proof (split_on_nonempty sep s) as Hne.
    case_decide as Hch.
    + apply elem_of_cons in Hw as [->|Hw]; [by destruct u|by apply IH].
    + destruct (split_on sep s) as [|w' ws]; [done|].
      apply elem_of_cons in Hw as [->|Hw].
      * destruct u as [|c u]; simpl; [by intros [= ? _]|].
        intros [= _ Hw']. by apply (IH w' (list_elem_of_here _ _) u v).
      * apply IH. by apply list_elem_of_further.
Qed.

Section LayerSizesProperties.
Variable int : string → option Z.

Lemma all_MLP_dimensions_Some z_dim MLP_dims all :
  all_MLP_dimensions int z_dim MLP_dims = Some all →
  ∃ dims, mapM int (middle_layers MLP_dims) = Some dims ∧
          all = z_dim :: dims ++ [1%Z].
Proof.
  unfold all_MLP_dimensions. intros H.
  destruct (mapM int (middle_layers MLP_dims)) as [dims|]; simplify_eq/=.
  by exists dims.
Qed.

Lemma lin_layers_nn_lookup z_dim MLP_dims layers :
  lin_layers_nn int z_dim MLP_dims = Some layers →
  ∃ all,
    all_MLP_dimensions int z_dim MLP_dims = Some all ∧
    length layers = length all - 1 ∧
    ∀ i l, layers !! i = Some l →
      all !! i = Some (in_features l) ∧
      all !! (i + 1) = Some (out_features l) ∧
      (0 ≤ in_features l)%Z ∧ (0 ≤ out_features l)%Z.
Proof.
  unfold lin_layers_nn. intros H.
  destruct (all_MLP_dimensions int z_dim MLP_dims) as [all|]; [|done].
  simpl in H. apply mapM_Some in H. exists all. split; [done|].
  split; [by rewrite <- (Forall2_length _ _ _ H), length_seq|].
  intros i l Hl.
  destruct (Forall2_lookup_r _ _ _ _ _ H Hl) as (i' & Hi' & Hlin).
  apply lookup_seq in Hi' as [-> _]. simpl in Hlin.
  destruct (all !! i) as [a|]; [|done]. simpl in Hlin.
  destruct (all !! (i + 1)) as [b|]; [|done]. simpl in Hlin.
  unfold nn_Linear in Hlin. case_decide as Hpos; [|done].
  injection Hlin as <-. simpl. by destruct Hpos.
Qed.

(** X11.  The MLP that the constructor builds is a chain from [z_dim] to
    1: there is one layer more than there are sizes in [MLP_dims] (so at
    least one), the first layer takes [z_dim] inputs, the last one has 1
    output, every layer takes as many inputs as the layer before it has
    outputs, and no size is negative. *)
Theorem lin_layers_nn_chain z_dim MLP_dims layers :
  lin_layers_nn int z_dim MLP_dims = Some layers →
  length layers = length (middle_layers MLP_dims) + 1 ∧
  in_features <$> head layers = Some z_dim ∧
  out_features <$> last layers = Some 1%Z ∧
  (∀ i l l', layers !! i = Some l → layers !! (i + 1) = Some l' →
             out_features l = in_features l') ∧
  Forall (λ l, (0 ≤ in_features l)%Z ∧ (0 ≤ out_features l)%Z) layers.
Proof.
  intros (all & Hall & Hlen & Hlayers)%lin_layers_nn_lookup.
  apply all_MLP_dimensions_Some in Hall as (dims & Hdims & ->).
  assert (Hld := length_mapM _ _ _ Hdims).
  simpl in Hlen. rewrite length_app in Hlen. simpl in Hlen.
  split; [lia|]. split; [|split; [|split]].
  - destruct layers as [|l0 layers]; [simpl in Hlen; lia|]. simpl.
    destruct (Hlayers 0 l0 eq_refl) as (H0 & _). simpl in H0. congruence.
  - rewrite last_lookup.
    destruct (lookup_lt_is_Some_2 layers (pred (length layers))) as [l Hl];
      [lia|].
    rewrite Hl. simpl. destruct (Hlayers _ _ Hl) as (_ & H1 & _).
    replace (pred (length layers) + 1) with (S (length dims)) in H1 by lia.
    simpl in H1. rewrite lookup_app_r, Nat.sub_diag in H1 by lia.
    simpl in H1. congruence.
  - intros i l l' Hl Hl'.
    destruct (Hlayers _ _ Hl) as (_ & Hout & _).
    destruct (Hlayers _ _ Hl') as (Hin & _). congruence.
  - apply Forall_lookup. intros i l Hl.
    by destruct (Hlayers _ _ Hl) as (_ & _ & ? & ?).
Qed.


(** X13.  A string with an empty field makes the constructor raise, as
    [int] rejects the empty string: the empty string, a string other
    than ["-"] that starts or ends with ["-"], and a string with two
    ["-"] in a row. *)
Theorem lin_layers_nn_empty_field z_dim MLP_dims :
  int "" = None →
  (MLP_dims = "" ∨
   (∃ u, u ≠ "" ∧ (MLP_dims = u +:+ "-" ∨ MLP_dims = "-" +:+ u)) ∨
   (∃ u v, MLP_dims = u +:+ "--" +:+ v)) →
  lin_layers_nn int z_dim MLP_dims = None.
Proof.
  intros Hempty Hshape.
  assert (Hne : MLP_dims ≠ "-").
  { destruct Hshape as [->|[(u & Hu & [->| ->])|(u & v & ->)]]; try done.
    - destruct u as [|c [|c' u]]; done.
    - destruct u; done.
    - destruct u as [|c [|c' u]]; done. }
  assert (Hin : "" ∈ split_on "-"%char MLP_dims).
  { destruct Hshape as [->|[(u & Hu & [->| ->])|(u & v & ->)]].
    - apply list_elem_of_here.
    - change (u +:+ "-") with (u +:+ String "-"%char "").
      rewrite split_on_app. apply elem_of_app. right. apply list_elem_of_here.
    - apply list_elem_of_here.
    - change (u +:+ "--" +:+ v)
        with (u +:+ String "-"%char (String "-"%char v)).
      rewrite split_on_app. apply elem_of_app. right.
      apply list_elem_of_here. }
  unfold lin_layers_nn, all_MLP_dimensions, middle_layers.
  rewrite decide_False by done.
  assert (mapM int (split_on "-"%char MLP_dims) = None) as ->; [|done].
  apply mapM_None. apply Exists_exists. by exists "".
Qed.

End LayerSizesProperties.

Lemma lin_layers_nn_chain_witness :
  lin_layers_nn int_digits 16 "48-24" = Some
    [mkLinear 16 48; mkLinear 48 24; mkLinear 24 1] ∧
  length [mkLinear 16 48; mkLinear 48 24; mkLinear 24 1]
    = length (middle_layers "48-24") + 1 ∧
  in_features <$> head [mkLinear 16 48; mkLinear 48 24; mkLinear 24 1]
    = Some 16%Z ∧
  out_features <$> last [mkLinear 16 48; mkLinear 48 24; mkLinear 24 1]
    = Some 1%Z ∧
  (∀ i l l',
     [mkLinear 16 48; mkLinear 48 24; mkLinear 24 1] !! i = Some l →
     [mkLinear 16 48; mkLinear 48 24; mkLinear 24 1] !! (i + 1) = Some l' →
     out_features l = in_features l') ∧
  Forall (λ l, (0 ≤ in_features l)%Z ∧ (0 ≤ out_features l)%Z)
    [mkLinear 16 48; mkLinear 48 24; mkLinear 24 1].
Proof.
  split; [reflexivity|].
  apply (lin_layers_nn_chain int_digits 16%Z "48-24"). reflexivity.
Defined.

Lemma lin_layers_nn_empty_field_witness :
  lin_layers_nn int_digits 16 "48-" = None.
Proof.
  apply (lin_layers_nn_empty_field int_digits 16%Z "48-").
  - reflexivity.
  - right. left. exists "48". split; [discriminate|left; reflexivity].
Defined.
